(** * taco: expression IR, lowering analyses and scalar lowering

    A shallow embedding of [src/expr/expr.cpp], [src/lower/expr_tools.cpp]
    and [src/lower/lower_codegen.cpp], with the properties of the
    specification stated and proved over it.

    Conventions of the embedding.
    - Index and tensor variables are handles on a shared content block and
      compare by the address of that block; a handle is modelled by that
      address.
    - The mutable content of tensor variables lives in a [Heap]; two handles
      with the same address observe the same content.
    - An [IndexExpr] is an intrusive pointer to a node, possibly null.  A node
      is modelled as a tree that records, at every node, the address it was
      allocated at, so that pointer comparison ([a == op->a]) and allocation
      ([new T(a, b)]) stay observable.  Operands held by a node are defined
      expressions.
    - A [double] literal is an IEEE 754 value ([spec_float]); comparing two
      literals follows IEEE equality. *)

From Stdlib Require Import ZArith Floats.SpecFloat.
From stdpp Require Import gmap list strings.

Set Default Proof Using "Type".

(** ** Index variables, tensor variables *)

(** [IndexVar]: [operator==] and [operator<] compare [content] pointers. *)
Record IndexVar := IndexVarAt { indexVar_content : positive }.

#[global] Instance IndexVar_eq_dec : EqDecision IndexVar.
Proof. solve_decision. Defined.

#[global] Instance IndexVar_countable : Countable IndexVar :=
  inj_countable' indexVar_content IndexVarAt (fun x => match x with IndexVarAt _ => eq_refl end).

(** [TensorVar]: likewise a handle on [TensorVar::Content]. *)
Record TensorVar := TensorVarAt { tensorVar_content : positive }.

#[global] Instance TensorVar_eq_dec : EqDecision TensorVar.
Proof. solve_decision. Defined.

#[global] Instance TensorVar_countable : Countable TensorVar :=
  inj_countable' tensorVar_content TensorVarAt (fun x => match x with TensorVarAt _ => eq_refl end).

(** ** The expression IR *)

(** Address of an expression node. *)
Definition NodePtr := positive.

Bind Scope positive_scope with NodePtr.

Inductive UnaryKind := Neg | Sqrt.

Inductive BinaryKind := Add | Sub | Mul | Div.

(** The four immediate node classes with their [val] field. *)
Inductive ImmValue :=
| IntImm (val : Z)
| FloatImm (val : spec_float)
| ComplexImm (re im : spec_float)
| UIntImm (val : N).

#[global] Instance UnaryKind_eq_dec : EqDecision UnaryKind.
Proof. solve_decision. Defined.

#[global] Instance BinaryKind_eq_dec : EqDecision BinaryKind.
Proof. solve_decision. Defined.

(** [NegNode] and [SqrtNode] derive from [UnaryExprNode]; [AddNode],
    [SubNode], [MulNode] and [DivNode] from [BinaryExprNode]; the immediates
    from [ImmExprNode]. *)
Inductive ExprNode :=
| AccessNode (ptr : NodePtr) (tensorVar : TensorVar) (indexVars : list IndexVar)
| UnaryExprNode (ptr : NodePtr) (kind : UnaryKind) (a : ExprNode)
| BinaryExprNode (ptr : NodePtr) (kind : BinaryKind) (a b : ExprNode)
| ImmExprNode (ptr : NodePtr) (val : ImmValue).

Arguments AccessNode ptr%_positive tensorVar indexVars.
Arguments UnaryExprNode ptr%_positive kind a.
Arguments BinaryExprNode ptr%_positive kind a b.
Arguments ImmExprNode ptr%_positive val.

#[global] Instance spec_float_eq_dec : EqDecision spec_float.
Proof. solve_decision. Defined.

#[global] Instance ImmValue_eq_dec : EqDecision ImmValue.
Proof. solve_decision. Defined.

#[global] Instance ExprNode_eq_dec : EqDecision ExprNode.
Proof. solve_decision. Defined.

(** [IndexExpr]: [None] is the undefined expression [IndexExpr()]. *)
Definition IndexExpr := option ExprNode.

Definition defined (e : IndexExpr) : bool :=
  match e with Some _ => true | None => false end.

Definition node_ptr (e : ExprNode) : NodePtr :=
  match e with
  | AccessNode p _ _ | UnaryExprNode p _ _ | BinaryExprNode p _ _ _ | ImmExprNode p _ => p
  end.

(** [operator==] of two [IndexExpr] handles: the same pointer. *)
Definition ptr_eq (x y : IndexExpr) : bool :=
  match x, y with
  | None, None => true
  | Some a, Some b => bool_decide (node_ptr a = node_ptr b)
  | _, _ => false
  end.

(** The [Access] handle: a pointer to an [AccessNode]. *)
Record Access := AccessAt {
  access_ptr : NodePtr;
  getTensorVar : TensorVar;
  getIndexVars : list IndexVar }.

Arguments AccessAt access_ptr%_positive getTensorVar getIndexVars.

(** Allocation of nodes: [new T(...)] returns the next free address. *)
Definition Alloc (A : Type) : Type := NodePtr -> A * NodePtr.

Definition ret {A} (x : A) : Alloc A := fun n => (x, n).

Definition bind {A B} (m : Alloc A) (f : A -> Alloc B) : Alloc B :=
  fun n => let '(x, n') := m n in f x n'.

Definition new_node (mk : NodePtr -> ExprNode) : Alloc IndexExpr :=
  fun n => (Some (mk n), Pos.succ n).

Declare Scope alloc_scope.
Delimit Scope alloc_scope with alloc.
Notation "'let*' x ':=' m 'in' k" := (bind m (fun x => k))
  (at level 10, x name, m at level 100, k at level 200) : alloc_scope.

(** Structure of an expression with the node addresses forgotten. *)
Fixpoint forget (e : ExprNode) : ExprNode :=
  match e with
  | AccessNode _ t ivs => AccessNode 1 t ivs
  | UnaryExprNode _ k a => UnaryExprNode 1 k (forget a)
  | BinaryExprNode _ k a b => BinaryExprNode 1 k (forget a) (forget b)
  | ImmExprNode _ v => ImmExprNode 1 v
  end.

(** Every node address occurring in an expression. *)
Fixpoint node_ptrs (e : ExprNode) : list NodePtr :=
  match e with
  | AccessNode p _ _ | ImmExprNode p _ => [p]
  | UnaryExprNode p _ a => p :: node_ptrs a
  | BinaryExprNode p _ a b => p :: node_ptrs a ++ node_ptrs b
  end.

(** The Access nodes of an expression, left to right. *)
Fixpoint accesses (e : ExprNode) : list (TensorVar * list IndexVar) :=
  match e with
  | AccessNode _ t ivs => [(t, ivs)]
  | UnaryExprNode _ _ a => accesses a
  | BinaryExprNode _ _ a b => accesses a ++ accesses b
  | ImmExprNode _ _ => []
  end.

(** ** Structural equality ([struct Equals], [equals]) *)

Module Equals.

(** [anode->val != bnode->val] preceded by [isa<T>(b)]. *)
Definition immediateEquals (anode b : ImmValue) : bool :=
  match anode, b with
  | IntImm x, IntImm y => if negb (x =? y)%Z then false else true
  | FloatImm x, FloatImm y => if negb (SFeqb x y) then false else true
  | ComplexImm xr xi, ComplexImm yr yi =>
      if negb (SFeqb xr yr && SFeqb xi yi) then false else true
  | UIntImm x, UIntImm y => if negb (x =? y)%N then false else true
  | _, _ => false
  end.

(** The loop [for (i = 0; i < anode->indexVars.size(); i++)] over the
    positions [js]; reading a vector past its end has no defined result
    ([None]). *)
Fixpoint indexVarsLoop (a b : list IndexVar) (js : list nat) : option bool :=
  match js with
  | [] => Some true
  | i :: js' =>
      match a !! i, b !! i with
      | Some x, Some y =>
          if bool_decide (x ≠ y) then Some false else indexVarsLoop a b js'
      | _, _ => None
      end
  end.

(** [Equals::check(a, b)] on defined [a] and [b]; each [visit] with its
    [isa<T>(b)] test.  The recursive calls are those of [equals] on the
    operands, which are defined. *)
Fixpoint check (a b : ExprNode) : option bool :=
  match a with
  | AccessNode _ ta ia =>
      match b with
      | AccessNode _ tb ib =>
          if bool_decide (ta ≠ tb) then Some false
          else if bool_decide (length ia ≠ length ia) then Some false
          else indexVarsLoop ia ib (seq 0 (length ia))
      | _ => Some false
      end
  | UnaryExprNode _ k a1 =>
      match b with
      | UnaryExprNode _ k' b1 =>
          if bool_decide (k = k') then
            match check a1 b1 with
            | Some r => if negb r then Some false else Some true
            | None => None
            end
          else Some false
      | _ => Some false
      end
  | BinaryExprNode _ k a1 a2 =>
      match b with
      | BinaryExprNode _ k' b1 b2 =>
          if bool_decide (k = k') then
            match check a1 b1 with
            | Some true =>
                match check a2 b2 with
                | Some r => if negb r then Some false else Some true
                | None => None
                end
            | Some false => Some false
            | None => None
            end
          else Some false
      | _ => Some false
      end
  | ImmExprNode _ va =>
      match b with
      | ImmExprNode _ vb => Some (immediateEquals va vb)
      | _ => Some false
      end
  end.

End Equals.

Definition equals (a b : IndexExpr) : option bool :=
  match a, b with
  | None, None => Some true
  | Some _, None | None, Some _ => Some false
  | Some x, Some y => Equals.check x y
  end.

(** ** Tensor variable content and definition binding *)

(** Modelled from the spec: the type and format classes are declared outside
    the sources at hand.  A tensor type carries a shape, an ordered list of
    dimension sizes whose length is the tensor's order; a format is a
    sequence of dense or sparse modes. *)
Abbreviation Dimension := nat.

Abbreviation Shape := (list Dimension).

Record Type_ := { getShape : Shape }.

Inductive ModeType := Dense | Sparse.

Abbreviation Format := (list ModeType).

(** [struct TensorVar::Content] (the schedule, which no operation below
    reads, is left out). *)
Record Content := {
  name : string;
  type : Type_;
  format : Format;
  freeVars : list IndexVar;
  indexExpr : IndexExpr;
  accumulate : bool }.

(** The content blocks, by handle. *)
Definition Heap := TensorVar -> Content.

Definition heap_update (h : Heap) (t : TensorVar) (c : Content) : Heap :=
  fun t' => if decide (t' = t) then c else h t'.

Definition getOrder (h : Heap) (t : TensorVar) : nat :=
  length (getShape (type (h t))).

(** The messages a failed [taco_uassert] reports. *)
Inductive Error :=
| cannot_reassign (result : TensorVar)
| expr_dimension_mismatch
| expr_transposition
| expr_distribution.

(** A command on the heap; [inl] once a user assertion has failed, with the
    heap as it was at that point. *)
Definition Cmd (A : Type) : Type := Heap -> (Error + A) * Heap.

Definition cmd_ret {A} (x : A) : Cmd A := fun h => (inr x, h).

Definition cmd_bind {A B} (m : Cmd A) (f : A -> Cmd B) : Cmd B :=
  fun h =>
    match m h with
    | (inl err, h') => (inl err, h')
    | (inr x, h') => f x h'
    end.

Declare Scope cmd_scope.
Delimit Scope cmd_scope with cmd.
Notation "'let*' x ':=' m 'in' k" := (cmd_bind m (fun x => k))
  (at level 10, x name, m at level 100, k at level 200) : cmd_scope.
Notation "m ';;' k" := (cmd_bind m (fun _ => k))
  (at level 100, k at level 200, right associativity) : cmd_scope.

(** [taco_uassert(c) << err] stops the command when [c] is false. *)
Definition taco_uassert (c : bool) (err : Error) : Cmd unit :=
  fun h => if c then (inr tt, h) else (inl err, h).

(** Reading through the handles. *)
Definition read {A} (f : Heap -> A) : Cmd A := fun h => (inr (f h), h).

(** The three assignments to fields of [content]. *)
Definition set_freeVars (t : TensorVar) (v : list IndexVar) : Cmd unit :=
  fun h =>
    (inr tt,
     heap_update h t
       {| name := name (h t); type := type (h t); format := format (h t);
          freeVars := v; indexExpr := indexExpr (h t); accumulate := accumulate (h t) |}).

Definition set_indexExpr (t : TensorVar) (v : IndexExpr) : Cmd unit :=
  fun h =>
    (inr tt,
     heap_update h t
       {| name := name (h t); type := type (h t); format := format (h t);
          freeVars := freeVars (h t); indexExpr := v; accumulate := accumulate (h t) |}).

Definition set_accumulate (t : TensorVar) (v : bool) : Cmd unit :=
  fun h =>
    (inr tt,
     heap_update h t
       {| name := name (h t); type := type (h t); format := format (h t);
          freeVars := freeVars (h t); indexExpr := indexExpr (h t); accumulate := v |}).

(** The checks of namespace [error], declared outside the sources at hand;
    they read the expression and the types of the tensors in it. *)
Record ErrorChecks := {
  dimensionsTypecheck : Heap -> list IndexVar -> IndexExpr -> Shape -> bool;
  containsTranspose : Heap -> Format -> list IndexVar -> IndexExpr -> bool;
  containsDistribution : Heap -> list IndexVar -> IndexExpr -> bool }.

Section Binding.

Variable error : ErrorChecks.

Definition setIndexExpression (this : TensorVar) (freeVars0 : list IndexVar)
    (indexExpr0 : IndexExpr) (accumulate0 : bool) : Cmd unit :=
  (let* shape := read (fun h => getShape (type (h this))) in
   let* typechecks := read (fun h => dimensionsTypecheck error h freeVars0 indexExpr0 shape) in
   taco_uassert typechecks expr_dimension_mismatch ;;
   let* transposes :=
     read (fun h => containsTranspose error h (format (h this)) freeVars0 indexExpr0) in
   taco_uassert (negb transposes) expr_transposition ;;
   let* distributes := read (fun h => containsDistribution error h freeVars0 indexExpr0) in
   taco_uassert (negb distributes) expr_distribution ;;
   set_freeVars this freeVars0 ;;
   set_indexExpr this indexExpr0 ;;
   set_accumulate this accumulate0)%cmd.

(** [Access::operator=(const IndexExpr&)]; the flag defaults to [false]. *)
Definition Access_assign (this : Access) (expr : IndexExpr) : Cmd unit :=
  (let result := getTensorVar this in
   let* definition := read (fun h => indexExpr (h result)) in
   taco_uassert (negb (defined definition)) (cannot_reassign result) ;;
   setIndexExpression result (getIndexVars this) expr false)%cmd.

(** [Access::operator+=(const IndexExpr&)] *)
Definition Access_accumulate (this : Access) (expr : IndexExpr) : Cmd unit :=
  (let result := getTensorVar this in
   let* definition := read (fun h => indexExpr (h result)) in
   taco_uassert (negb (defined definition)) (cannot_reassign result) ;;
   setIndexExpression result (getIndexVars this) expr true)%cmd.

End Binding.

(** ** Index variable ranges *)

(** Modelled from the spec: [match] (declared outside the sources at hand)
    calls the handler on every Access of the expression in traversal order,
    and on none when the expression is undefined. *)
Definition match_AccessNode (e : IndexExpr) : list (TensorVar * list IndexVar) :=
  match e with
  | Some n => accesses n
  | None => []
  end.

(** [std::map::insert]: an existing key keeps its value. *)
Definition map_insert (m : gmap IndexVar Dimension) (k : IndexVar) (d : Dimension)
    : gmap IndexVar Dimension :=
  match m !! k with
  | Some _ => m
  | None => <[k := d]> m
  end.

(** [for (i...) indexVarRanges.insert({vars[i], shape.getDimension(i)})],
    from position [i] on; a dimension read past the order of the shape has no
    defined result. *)
Fixpoint insertRanges (vars : list IndexVar) (shape : Shape) (i : nat)
    (indexVarRanges : gmap IndexVar Dimension) : option (gmap IndexVar Dimension) :=
  match vars with
  | [] => Some indexVarRanges
  | v :: vars' =>
      match shape !! i with
      | Some d => insertRanges vars' shape (S i) (map_insert indexVarRanges v d)
      | None => None
      end
  end.

(** The handler run on each Access, in order. *)
Fixpoint insertAccessRanges (h : Heap) (ops : list (TensorVar * list IndexVar))
    (indexVarRanges : gmap IndexVar Dimension) : option (gmap IndexVar Dimension) :=
  match ops with
  | [] => Some indexVarRanges
  | (tensor, vars) :: ops' =>
      match insertRanges vars (getShape (type (h tensor))) 0 indexVarRanges with
      | Some m => insertAccessRanges h ops' m
      | None => None
      end
  end.

Definition getIndexVarRanges (h : Heap) (tensor : TensorVar)
    : option (gmap IndexVar Dimension) :=
  match insertRanges (freeVars (h tensor)) (getShape (type (h tensor))) 0 ∅ with
  | Some m => insertAccessRanges h (match_AccessNode (indexExpr (h tensor))) m
  | None => None
  end.

(** ** Simplification ([struct Simplify], [simplify]) *)

Module Simplify.

(** Modelled from the spec: the order on [Access] handles that keys
    [set<Access>] is declared outside the sources at hand; the exhausted set
    is keyed by structural access identity (the tensor variable and the
    index-variable sequence), not by node identity. *)
Definition contains (exhausted : list Access) (op : ExprNode) : bool :=
  match op with
  | AccessNode _ t ivs =>
      existsb (fun x => bool_decide (getTensorVar x = t ∧ getIndexVars x = ivs)) exhausted
  | _ => false
  end.

Section Rewriter.

(** The rewriter's own [rewrite], called on the operands. *)
Variable rewrite : ExprNode -> Alloc IndexExpr.

Definition visitUnaryOp (op : ExprNode) (k : UnaryKind) (op_a : ExprNode)
    : Alloc IndexExpr :=
  (let* a := rewrite op_a in
   match a with
   | None => ret None
   | Some a' =>
       if ptr_eq a (Some op_a) then ret (Some op)
       else new_node (fun p => UnaryExprNode p k a')
   end)%alloc.

Definition visitDisjunctionOp (op : ExprNode) (k : BinaryKind) (op_a op_b : ExprNode)
    : Alloc IndexExpr :=
  (let* a := rewrite op_a in
   let* b := rewrite op_b in
   match a, b with
   | None, None => ret None
   | None, Some _ => ret b
   | Some _, None => ret a
   | Some a', Some b' =>
       if ptr_eq a (Some op_a) && ptr_eq b (Some op_b) then ret (Some op)
       else new_node (fun p => BinaryExprNode p k a' b')
   end)%alloc.

Definition visitConjunctionOp (op : ExprNode) (k : BinaryKind) (op_a op_b : ExprNode)
    : Alloc IndexExpr :=
  (let* a := rewrite op_a in
   let* b := rewrite op_b in
   match a, b with
   | Some a', Some b' =>
       if ptr_eq a (Some op_a) && ptr_eq b (Some op_b) then ret (Some op)
       else new_node (fun p => BinaryExprNode p k a' b')
   | _, _ => ret None
   end)%alloc.

End Rewriter.

(** [rewrite] on a defined expression dispatches to the [visit] of its node
    class. *)
Fixpoint rewrite (exhausted : list Access) (op : ExprNode) : Alloc IndexExpr :=
  match op with
  | AccessNode _ _ _ =>
      if contains exhausted op then ret None else ret (Some op)
  | UnaryExprNode _ k a => visitUnaryOp (rewrite exhausted) op k a
  | BinaryExprNode _ k a b =>
      match k with
      | Add | Sub => visitDisjunctionOp (rewrite exhausted) op k a b
      | Mul | Div => visitConjunctionOp (rewrite exhausted) op k a b
      end
  | ImmExprNode _ _ => ret (Some op)
  end.

End Simplify.

(** [simplify]: [Simplify(exhausted).rewrite(expr)]; the rewriter hands an
    undefined expression back as it is. *)
Definition simplify (expr : IndexExpr) (exhausted : list Access) : Alloc IndexExpr :=
  match expr with
  | Some op => Simplify.rewrite exhausted op
  | None => ret None
  end.

(** ** Available expressions ([getAvailableExpressions]) *)

Module ExtractAvailableExpressions.

(** The visitor's fields: the vector of available expressions and the stack
    of active expressions (top first). *)
Record State := {
  availableExpressions : list ExprNode;
  activeExpressions : list (ExprNode * bool) }.

Definition push (x : ExprNode * bool) (st : State) : State :=
  {| availableExpressions := availableExpressions st;
     activeExpressions := x :: activeExpressions st |}.

Definition push_back (e : ExprNode) (st : State) : State :=
  {| availableExpressions := availableExpressions st ++ [e];
     activeExpressions := activeExpressions st |}.

Section Visitor.

Variable visitedVars : gset IndexVar.

(** The loop of [visit] of an [AccessNode], with its [break]. *)
Fixpoint accessAvailable (indexVars : list IndexVar) : bool :=
  match indexVars with
  | [] => true
  | var :: rest =>
      if negb (bool_decide (var ∈ visitedVars)) then false
      else accessAvailable rest
  end.

(** [None]: a [taco_iassert] on the stack size fails. *)
Fixpoint visit (op : ExprNode) (st : State) : option State :=
  match op with
  | AccessNode _ _ indexVars =>
      Some (push (op, accessAvailable indexVars) st)
  | UnaryExprNode _ _ op_a =>
      match visit op_a st with
      | Some st1 =>
          match activeExpressions st1 with
          | a :: rest =>
              Some {| availableExpressions := availableExpressions st1;
                      activeExpressions := (op, a.2) :: rest |}
          | [] => None
          end
      | None => None
      end
  | BinaryExprNode _ _ op_a op_b =>
      match visit op_a st with
      | Some st1 =>
          match visit op_b st1 with
          | Some st2 =>
              match activeExpressions st2 with
              | a :: b :: rest =>
                  let popped :=
                    {| availableExpressions := availableExpressions st2;
                       activeExpressions := rest |} in
                  if a.2 && b.2 then Some (push (op, true) popped)
                  else
                    let st3 := if a.2 then push_back a.1 popped else popped in
                    let st4 := if b.2 then push_back b.1 st3 else st3 in
                    Some (push (op, false) st4)
              | _ => None
              end
          | None => None
          end
      | None => None
      end
  | ImmExprNode _ _ => Some (push (op, true) st)
  end.

End Visitor.

Definition get (expr : ExprNode) (vars : list IndexVar) : option (list ExprNode) :=
  let visitedVars : gset IndexVar := list_to_set vars in
  match visit visitedVars expr {| availableExpressions := []; activeExpressions := [] |} with
  | Some st =>
      match activeExpressions st with
      | [top] =>
          Some (availableExpressions (if top.2 then push_back top.1 st else st))
      | _ => None
      end
  | None => None
  end.

End ExtractAvailableExpressions.

Definition getAvailableExpressions (expr : ExprNode) (vars : list IndexVar)
    : option (list ExprNode) :=
  ExtractAvailableExpressions.get expr vars.

(** ** Sub-expressions ([getSubExprOld], [getSubExpr]) *)

(** The loop shared by both [visit] of an [AccessNode]: some index variable
    of the access is in [vars]. *)
Fixpoint accessKept (vars : gset IndexVar) (indexVars : list IndexVar) : bool :=
  match indexVars with
  | [] => false
  | indexVar :: rest =>
      if bool_decide (indexVar ∈ vars) then true else accessKept vars rest
  end.

Module SubExprVisitorOld.

Fixpoint getSubExpression (vars : gset IndexVar) (op : ExprNode) : IndexExpr :=
  match op with
  | AccessNode _ _ indexVars =>
      if accessKept vars indexVars then Some op else None
  | UnaryExprNode _ _ op_a =>
      let a := getSubExpression vars op_a in
      if defined a then Some op else None
  | BinaryExprNode _ _ op_a op_b =>
      let a := getSubExpression vars op_a in
      let b := getSubExpression vars op_b in
      if defined a && defined b then Some op
      else if defined a then a
      else if defined b then b
      else None
  | ImmExprNode _ _ => None
  end.

End SubExprVisitorOld.

Definition getSubExprOld (expr : ExprNode) (vars : list IndexVar) : IndexExpr :=
  SubExprVisitorOld.getSubExpression (list_to_set vars) expr.

Module SubExprVisitor.

Section Visitor.

Variable getSubExpression : ExprNode -> Alloc IndexExpr.

Definition unarySubExpr (op op_a : ExprNode) : Alloc IndexExpr :=
  (let* a := getSubExpression op_a in
   ret (if defined a then Some op else None))%alloc.

Definition binarySubExpr (k : BinaryKind) (op_a op_b : ExprNode) : Alloc IndexExpr :=
  (let* a := getSubExpression op_a in
   let* b := getSubExpression op_b in
   match a, b with
   | Some a', Some b' => new_node (fun p => BinaryExprNode p k a' b')
   | Some _, None => ret a
   | None, Some _ => ret b
   | None, None => ret None
   end)%alloc.

End Visitor.

Fixpoint getSubExpression (vars : gset IndexVar) (op : ExprNode) : Alloc IndexExpr :=
  match op with
  | AccessNode _ _ indexVars =>
      ret (if accessKept vars indexVars then Some op else None)
  | UnaryExprNode _ _ op_a => unarySubExpr (getSubExpression vars) op op_a
  | BinaryExprNode _ k op_a op_b => binarySubExpr (getSubExpression vars) k op_a op_b
  | ImmExprNode _ _ => ret None
  end.

End SubExprVisitor.

Definition getSubExpr (expr : ExprNode) (vars : list IndexVar) : Alloc IndexExpr :=
  SubExprVisitor.getSubExpression (list_to_set vars) expr.

(** ** Scalar lowering ([lowerToScalarExpression]) *)

Module ir.

(** Modelled from the spec: the low-level IR is declared outside the sources
    at hand; it has variables, literals, one arithmetic operator per
    index-notation operator, the value buffer of a tensor and memory loads. *)
Inductive TensorProperty := Values.

Inductive Expr :=
| Var (id : positive)
| Literal (val : ImmValue)
| Neg (a : Expr)
| Sqrt (a : Expr)
| Add (a b : Expr)
| Sub (a b : Expr)
| Mul (a b : Expr)
| Div (a b : Expr)
| GetProperty (tensor : Expr) (property : TensorProperty)
| Load (arr loc : Expr).

End ir.

Module storage.

(** [storage::Iterator], by the accessors used here. *)
Record Iterator := {
  getPtrVar : ir.Expr;
  getIdxVar : ir.Expr;
  getTensor : ir.Expr }.

End storage.

Section Lowering.

(** The iteration graph and the iterator table are supplied by the caller;
    their classes are declared outside the sources at hand. *)
Variables TensorPath TensorPathStep : Type.
Variable getLastStep : TensorPath -> TensorPathStep.

(** The two operands of a binary node are lowered as the arguments of one
    call, [ir::Add::make(lower(op->a), lower(op->b))], and the language
    leaves the order of evaluating the arguments of a call to the compiler;
    [leftFirst op] tells whether the compiled code lowers the left operand
    of [op] first. *)
Variable leftFirst : ExprNode -> bool.

Record IterationGraph := { getTensorPath : ExprNode -> TensorPath }.

Record Iterators := {
  getRoot : TensorPath -> storage.Iterator;
  iterator_at : TensorPathStep -> storage.Iterator }.

(** What a lowering asked of the iteration graph and the iterator table. *)
Inductive Lookup :=
| LookupTensorPath (op : ExprNode)
| LookupRoot (path : TensorPath)
| LookupStep (step : TensorPathStep).

Variable h : Heap.
Variable iterators : Iterators.
Variable iterationGraph : IterationGraph.
Variable temporaries : gmap TensorVar ir.Expr.

(** [ScalarCode::visit] of an [AccessNode]. *)
Definition lowerAccess (op : ExprNode) (tensorVar : TensorVar) : ir.Expr * list Lookup :=
  match temporaries !! tensorVar with
  | Some e => (e, [])
  | None =>
      let path := getTensorPath iterationGraph op in
      let type0 := type (h tensorVar) in
      let '(iterator, asked) :=
        if (length (getShape type0) =? 0)%nat
        then (getRoot iterators path, LookupRoot path)
        else (iterator_at iterators (getLastStep path), LookupStep (getLastStep path)) in
      let ptr := storage.getPtrVar iterator in
      let values := ir.GetProperty (storage.getTensor iterator) ir.Values in
      let loadValue := ir.Load values ptr in
      (loadValue, [LookupTensorPath op; asked])
  end.

(** [ScalarCode::lower]; the look-ups of the two operands of a binary node
    come in the order the operands are lowered in. *)
Fixpoint lower (op : ExprNode) : ir.Expr * list Lookup :=
  match op with
  | AccessNode _ tensorVar _ => lowerAccess op tensorVar
  | UnaryExprNode _ k a =>
      let '(ea, la) := lower a in
      (match k with Neg => ir.Neg ea | Sqrt => ir.Sqrt ea end, la)
  | BinaryExprNode _ k a b =>
      let '(ea, la) := lower a in
      let '(eb, lb) := lower b in
      (match k with
       | Add => ir.Add ea eb
       | Sub => ir.Sub ea eb
       | Mul => ir.Mul ea eb
       | Div => ir.Div ea eb
       end, if leftFirst op then la ++ lb else lb ++ la)
  | ImmExprNode _ val => (ir.Literal val, [])
  end.

Definition lowerToScalarExpression (indexExpr : ExprNode) : ir.Expr * list Lookup :=
  lower indexExpr.

End Lowering.

Arguments LookupTensorPath {TensorPath TensorPathStep}.
Arguments LookupRoot {TensorPath TensorPathStep}.
Arguments LookupStep {TensorPath TensorPathStep}.
Arguments getTensorPath {TensorPath}.
Arguments getRoot {TensorPath TensorPathStep}.
Arguments iterator_at {TensorPath TensorPathStep}.
Arguments lowerToScalarExpression {TensorPath TensorPathStep}.
Arguments lower {TensorPath TensorPathStep}.
Arguments lowerAccess {TensorPath TensorPathStep}.

(** Scalar lowering as the specification words it, on the structure of the
    expression: an Access to a registered temporary is the precomputed value
    of the temporary; an Access to any other tensor is a load from the value
    buffer of the iterator at the last step of its tensor path, or of the
    root iterator when the tensor has order zero, at the position pointer of
    that iterator; every other node is the IR operation of its kind over its
    lowered operands. *)
Section LoweringSpec.

Context {TensorPath TensorPathStep : Type}.
Variable getLastStep : TensorPath -> TensorPathStep.
Variable h : Heap.
Variable iterators : Iterators TensorPath TensorPathStep.
Variable iterationGraph : IterationGraph TensorPath.
Variable temporaries : gmap TensorVar ir.Expr.

Definition accessSpec (op : ExprNode) (t : TensorVar) : ir.Expr :=
  match temporaries !! t with
  | Some value => value
  | None =>
      let path := getTensorPath iterationGraph op in
      let iterator :=
        if (getOrder h t =? 0)%nat then getRoot iterators path
        else iterator_at iterators (getLastStep path) in
      ir.Load (ir.GetProperty (storage.getTensor iterator) ir.Values)
        (storage.getPtrVar iterator)
  end.

Fixpoint lowerSpec (e : ExprNode) : ir.Expr :=
  match e with
  | AccessNode _ t _ => accessSpec e t
  | UnaryExprNode _ Neg a => ir.Neg (lowerSpec a)
  | UnaryExprNode _ Sqrt a => ir.Sqrt (lowerSpec a)
  | BinaryExprNode _ Add a b => ir.Add (lowerSpec a) (lowerSpec b)
  | BinaryExprNode _ Sub a b => ir.Sub (lowerSpec a) (lowerSpec b)
  | BinaryExprNode _ Mul a b => ir.Mul (lowerSpec a) (lowerSpec b)
  | BinaryExprNode _ Div a b => ir.Div (lowerSpec a) (lowerSpec b)
  | ImmExprNode _ val => ir.Literal val
  end.

(** What the specification lets a leaf ask of the iteration graph and the
    iterator table: nothing for an immediate or an Access to a registered
    temporary; for an Access to any other tensor its tensor path, then the
    root iterator or the iterator of the last step of the path. *)
Definition lookupsSpec (leaf : ExprNode) : list (Lookup TensorPath TensorPathStep) :=
  match leaf with
  | AccessNode _ t _ =>
      match temporaries !! t with
      | Some _ => []
      | None =>
          let path := getTensorPath iterationGraph leaf in
          [LookupTensorPath leaf;
           if (getOrder h t =? 0)%nat then LookupRoot path
           else LookupStep (getLastStep path)]
      end
  | _ => []
  end.

End LoweringSpec.

(** ** Predicates used in the statements *)

Definition is_nan (x : spec_float) : bool :=
  match x with S754_nan => true | _ => false end.

(** Both signed zeros compare equal; no other two distinct values do. *)
Definition sf_norm (x : spec_float) : spec_float :=
  match x with S754_zero _ => S754_zero false | _ => x end.

(** No literal of the expression is, or has a component that is, a NaN. *)
Definition immNanFree (v : ImmValue) : bool :=
  match v with
  | FloatImm x => negb (is_nan x)
  | ComplexImm re im => negb (is_nan re) && negb (is_nan im)
  | _ => true
  end.

Fixpoint nanFree (e : ExprNode) : bool :=
  match e with
  | AccessNode _ _ _ => true
  | UnaryExprNode _ _ a => nanFree a
  | BinaryExprNode _ _ a b => nanFree a && nanFree b
  | ImmExprNode _ v => immNanFree v
  end.

(** The data-model invariant on accesses: as many index variables as the
    order of the tensor. *)
Fixpoint wellFormed (h : Heap) (e : ExprNode) : bool :=
  match e with
  | AccessNode _ t ivs => bool_decide (length ivs = getOrder h t)
  | UnaryExprNode _ _ a => wellFormed h a
  | BinaryExprNode _ _ a b => wellFormed h a && wellFormed h b
  | ImmExprNode _ _ => true
  end.


Definition wellFormedExpr (h : Heap) (e : IndexExpr) : bool :=
  match e with Some n => wellFormed h n | None => true end.

(** The comparison of two index-variable vectors of [Equals], by recursion
    on the vectors. *)
Fixpoint prefixLoop (a b : list IndexVar) : option bool :=
  match a, b with
  | [], _ => Some true
  | _ :: _, [] => None
  | x :: a', y :: b' => if bool_decide (x ≠ y) then Some false else prefixLoop a' b'
  end.

(** The positions at which [getIndexVarRanges] meets an index variable, in
    the order it meets them, each with the dimension of the tensor at that
    position: the free variables of the tensor, then the index variables of
    every Access of its definition. *)
Definition encounters (h : Heap) (tensor : TensorVar) : list (IndexVar * Dimension) :=
  zip (freeVars (h tensor)) (getShape (type (h tensor)))
  ++ concat (map (fun op : TensorVar * list IndexVar =>
                    zip op.2 (getShape (type (h op.1))))
               (match_AccessNode (indexExpr (h tensor)))).

(** The dimension at the first position that holds [v]. *)
Fixpoint firstBinding (v : IndexVar) (l : list (IndexVar * Dimension)) : option Dimension :=
  match l with
  | [] => None
  | (x, d) :: l' => if decide (x = v) then Some d else firstBinding v l'
  end.

(** Every node of an expression, the root first. *)
Fixpoint subterms (e : ExprNode) : list ExprNode :=
  e :: match e with
       | AccessNode _ _ _ | ImmExprNode _ _ => []
       | UnaryExprNode _ _ a => subterms a
       | BinaryExprNode _ _ a b => subterms a ++ subterms b
       end.

(** Addresses identify nodes: two nodes of the expression at the same
    address are the same node (a node may occur under several parents). *)
Definition wellLabelled (e : ExprNode) : bool :=
  forallb (fun x =>
    forallb (fun y => bool_decide (node_ptr x = node_ptr y -> x = y)) (subterms e))
    (subterms e).

(** Every node of the expression was allocated before [n]. *)
Definition allocatedBefore (n : NodePtr) (e : ExprNode) : bool :=
  forallb (fun p => bool_decide (p < n)%positive) (node_ptrs e).

(** The access [(t, ivs)] is a member of the exhausted set. *)
Definition isExhausted (exhausted : list Access) (op : TensorVar * list IndexVar) : bool :=
  existsb (fun x => bool_decide (getTensorVar x = op.1 /\ getIndexVars x = op.2)) exhausted.

(** Emptiness as the specification words it: an access is empty when it is
    exhausted, a unary node when its operand is, an addition or subtraction
    when both operands are, a multiplication or division when either is, an
    immediate never. *)
Fixpoint empties (exhausted : list Access) (e : ExprNode) : bool :=
  match e with
  | AccessNode _ t ivs => isExhausted exhausted (t, ivs)
  | UnaryExprNode _ _ a => empties exhausted a
  | BinaryExprNode _ k a b =>
      match k with
      | Add | Sub => empties exhausted a && empties exhausted b
      | Mul | Div => empties exhausted a || empties exhausted b
      end
  | ImmExprNode _ _ => false
  end.

(** Simplification as the specification words it, on structure alone. *)
Fixpoint simplifySpec (exhausted : list Access) (e : ExprNode) : IndexExpr :=
  match e with
  | AccessNode _ t ivs => if isExhausted exhausted (t, ivs) then None else Some e
  | UnaryExprNode p k a =>
      match simplifySpec exhausted a with
      | None => None
      | Some a' => Some (UnaryExprNode p k a')
      end
  | BinaryExprNode p k a b =>
      match k with
      | Add | Sub =>
          match simplifySpec exhausted a, simplifySpec exhausted b with
          | None, None => None
          | None, Some b' => Some b'
          | Some a', None => Some a'
          | Some a', Some b' => Some (BinaryExprNode p k a' b')
          end
      | Mul | Div =>
          match simplifySpec exhausted a, simplifySpec exhausted b with
          | Some a', Some b' => Some (BinaryExprNode p k a' b')
          | _, _ => None
          end
      end
  | ImmExprNode _ _ => Some e
  end.

(** The rule of a disjunctive node of kind [k]: with [ra] and [rb] the
    rewritten operands, the node is undefined exactly when both are, and it
    is the other operand when one of them is. *)
Definition disjunctionRule (exhausted : list Access) (k : BinaryKind) : Prop :=
  forall (p : NodePtr) (a b : ExprNode) (n : NodePtr),
    let ra := Simplify.rewrite exhausted a n in
    let rb := Simplify.rewrite exhausted b ra.2 in
    let r := Simplify.rewrite exhausted (BinaryExprNode p k a b) n in
    (r.1 = None <-> ra.1 = None /\ rb.1 = None)
    /\ (ra.1 = None -> r = rb)
    /\ (rb.1 = None -> r = (ra.1, rb.2)).

(** The rule of a conjunctive node of kind [k]. *)
Definition conjunctionRule (exhausted : list Access) (k : BinaryKind) : Prop :=
  forall (p : NodePtr) (a b : ExprNode) (n : NodePtr),
    let ra := Simplify.rewrite exhausted a n in
    let rb := Simplify.rewrite exhausted b ra.2 in
    let r := Simplify.rewrite exhausted (BinaryExprNode p k a b) n in
    r.1 = None <-> ra.1 = None \/ rb.1 = None.

(** Some Access of the expression has an index variable in [vars]. *)
Definition mentions (vars : gset IndexVar) (e : ExprNode) : bool :=
  existsb (fun op : TensorVar * list IndexVar => accessKept vars op.2) (accesses e).

(** [getSubExpr] prunes nothing from the expression: every Access outside
    the unary nodes has an index variable in [vars], no immediate stands
    outside them, and the operand of every outermost unary node mentions a
    variable of [vars] (such a node is kept whole). *)
Fixpoint unpruned (vars : gset IndexVar) (e : ExprNode) : bool :=
  match e with
  | AccessNode _ _ ivs => accessKept vars ivs
  | UnaryExprNode _ _ a => mentions vars a
  | BinaryExprNode _ _ a b => unpruned vars a && unpruned vars b
  | ImmExprNode _ _ => false
  end.

(** The extraction meets no binary node both of whose operands mention a
    variable of [vars]; at a binary node one of whose operands does, it goes
    on in that operand. *)
Fixpoint noBothKept (vars : gset IndexVar) (e : ExprNode) : bool :=
  match e with
  | BinaryExprNode _ _ a b =>
      match mentions vars a, mentions vars b with
      | true, true => false
      | true, false => noBothKept vars a
      | false, true => noBothKept vars b
      | false, false => true
      end
  | _ => true
  end.

(** The extraction meets no binary node both of whose operands mention a
    variable of [vars], or nothing is pruned from the operands of the first
    such node it meets. *)
Fixpoint sameStructure (vars : gset IndexVar) (e : ExprNode) : bool :=
  match e with
  | BinaryExprNode _ _ a b =>
      match mentions vars a, mentions vars b with
      | true, true => unpruned vars a && unpruned vars b
      | true, false => sameStructure vars a
      | false, true => sameStructure vars b
      | false, false => true
      end
  | _ => true
  end.

Fixpoint unaryFree (e : ExprNode) : bool :=
  match e with
  | AccessNode _ _ _ | ImmExprNode _ _ => true
  | UnaryExprNode _ _ _ => false
  | BinaryExprNode _ _ a b => unaryFree a && unaryFree b
  end.

(** Sub-expression extraction as the specification words it, a unary node
    wrapping the extraction of its operand. *)
Fixpoint subExprSpec (vars : gset IndexVar) (e : ExprNode) : IndexExpr :=
  match e with
  | AccessNode _ _ ivs => if accessKept vars ivs then Some e else None
  | UnaryExprNode p k a =>
      match subExprSpec vars a with
      | Some a' => Some (UnaryExprNode p k a')
      | None => None
      end
  | BinaryExprNode p k a b =>
      match subExprSpec vars a, subExprSpec vars b with
      | Some a', Some b' => Some (BinaryExprNode p k a' b')
      | Some a', None => Some a'
      | None, Some b' => Some b'
      | None, None => None
      end
  | ImmExprNode _ _ => None
  end.

(** The leaves of an expression, left to right. *)
Fixpoint leaves (e : ExprNode) : list ExprNode :=
  match e with
  | AccessNode _ _ _ | ImmExprNode _ _ => [e]
  | UnaryExprNode _ _ a => leaves a
  | BinaryExprNode _ _ a b => leaves a ++ leaves b
  end.

(** A leaf is available when it is an immediate, or an Access all of whose
    index variables have been visited. *)
Definition availableLeaf (visitedVars : gset IndexVar) (leaf : ExprNode) : bool :=
  match leaf with
  | AccessNode _ _ ivs => forallb (fun v => bool_decide (v ∈ visitedVars)) ivs
  | ImmExprNode _ _ => true
  | _ => false
  end.

(** An expression is available when all its leaves are. *)
Definition isAvailable (visitedVars : gset IndexVar) (e : ExprNode) : bool :=
  forallb (availableLeaf visitedVars) (leaves e).

(** The operands handed over below an expression: at every binary node with
    exactly one available operand, that operand. *)
Fixpoint handedOver (visitedVars : gset IndexVar) (e : ExprNode) : list ExprNode :=
  match e with
  | AccessNode _ _ _ | ImmExprNode _ _ => []
  | UnaryExprNode _ _ a => handedOver visitedVars a
  | BinaryExprNode _ _ a b =>
      handedOver visitedVars a ++ handedOver visitedVars b ++
      match isAvailable visitedVars a, isAvailable visitedVars b with
      | true, false => [a]
      | false, true => [b]
      | _, _ => []
      end
  end.

(** The expressions returned for [e]: the operands handed over, and [e]
    itself when it is available. *)
Definition cover (visitedVars : gset IndexVar) (e : ExprNode) : list ExprNode :=
  handedOver visitedVars e ++ (if isAvailable visitedVars e then [e] else []).

(** ** Sample data for the concrete statements

    Three tensor variables [a], [b], [c] and three index variables [i], [j],
    [k]; a heap in which every tensor is a vector of dimension 3 without a
    definition. *)
Definition tensor_a : TensorVar := TensorVarAt 1.
Definition tensor_b : TensorVar := TensorVarAt 2.
Definition tensor_c : TensorVar := TensorVarAt 3.
Definition var_i : IndexVar := IndexVarAt 1.
Definition var_j : IndexVar := IndexVarAt 2.
Definition var_k : IndexVar := IndexVarAt 3.

Definition vectors : Heap :=
  fun _ => {| name := "A"; type := {| getShape := [3] |}; format := [Dense];
              freeVars := []; indexExpr := None; accumulate := false |}.

(** [a(i) + b(i)], built twice at different addresses. *)
Definition sum_ab_1 : ExprNode :=
  BinaryExprNode 3 Add (AccessNode 1 tensor_a [var_i]) (AccessNode 2 tensor_b [var_i]).

Definition sum_ab_2 : ExprNode :=
  BinaryExprNode 6 Add (AccessNode 4 tensor_a [var_i]) (AccessNode 5 tensor_b [var_i]).

(** [-(a(i) + b(j))] and [(a(i) + b(j)) * c(i)]. *)
Definition neg_sum : ExprNode :=
  UnaryExprNode 4 Neg
    (BinaryExprNode 3 Add (AccessNode 1 tensor_a [var_i]) (AccessNode 2 tensor_b [var_j])).

Definition sum_times_c : ExprNode :=
  BinaryExprNode 5 Mul
    (BinaryExprNode 3 Add (AccessNode 1 tensor_a [var_i]) (AccessNode 2 tensor_b [var_j]))
    (AccessNode 4 tensor_c [var_i]).

(** A heap in which [a] is defined as [a(i) = b(i)]. *)
Definition a_defined : Heap :=
  heap_update vectors tensor_a
    {| name := "A"; type := {| getShape := [3] |}; format := [Dense];
       freeVars := [var_i]; indexExpr := Some (AccessNode 2 tensor_b [var_i]);
       accumulate := false |}.

(** A dimension check that compares the number of free variables with the
    order of the shape, and pattern checks that find nothing. *)
Definition arity_checks : ErrorChecks :=
  {| dimensionsTypecheck := fun _ fv _ s => bool_decide (length fv = length s);
     containsTranspose := fun _ _ _ _ => false;
     containsDistribution := fun _ _ _ => false |}.

(** [a(i) * b(i) + c(j)]. *)
Definition product_ab : ExprNode :=
  BinaryExprNode 3 Mul (AccessNode 1 tensor_a [var_i]) (AccessNode 2 tensor_b [var_i]).

Definition product_plus_c : ExprNode :=
  BinaryExprNode 5 Add product_ab (AccessNode 4 tensor_c [var_j]).

(** A tensor [t] of dimensions 3 by 4 defined as [t(i,j) = a(j)], where [a]
    is a vector of dimension 5: [j] is met first with dimension 4, then with
    dimension 5. *)
Definition tensor_t : TensorVar := TensorVarAt 4.

Definition disagreeing : Heap :=
  fun t =>
    if decide (t = tensor_t) then
      {| name := "t"; type := {| getShape := [3; 4] |}; format := [Dense; Dense];
         freeVars := [var_i; var_j];
         indexExpr := Some (AccessNode 1 tensor_a [var_j]);
         accumulate := false |}
    else
      {| name := "a"; type := {| getShape := [5] |}; format := [Dense];
         freeVars := []; indexExpr := None; accumulate := false |}.

(** An iteration graph whose paths and steps are numbers, and an iterator
    table with one iterator for the roots and one for the steps. *)
Definition numbered_graph : IterationGraph nat :=
  {| getTensorPath := fun op => Pos.to_nat (node_ptr op) |}.

Definition two_iterators : Iterators nat nat :=
  {| getRoot := fun _ =>
       {| storage.getPtrVar := ir.Var 1; storage.getIdxVar := ir.Var 2;
          storage.getTensor := ir.Var 3 |};
     iterator_at := fun _ =>
       {| storage.getPtrVar := ir.Var 4; storage.getIdxVar := ir.Var 5;
          storage.getTensor := ir.Var 6 |} |}.

(** * Further operations of the sources *)

(** ** Building expressions *)

(** An [Access] handle read as an expression: the node it points to. *)
Definition Access_expr (x : Access) : ExprNode :=
  AccessNode (access_ptr x) (getTensorVar x) (getIndexVars x).

(** The message of the assertion of [TensorVar::operator()]: the order of
    the tensor and the indices it was given. *)
Inductive CallError := wrong_order (order : nat) (indices : list IndexVar).

(** [TensorVar::operator()(const std::vector<IndexVar>&)], const or not:
    the assertion on the number of indices (which fits an [int]), then a new
    [AccessNode]. *)
Definition TensorVar_call (h : Heap) (this : TensorVar) (indices : list IndexVar)
    : Alloc (CallError + Access) :=
  fun n =>
    if negb (length indices =? getOrder h this)%nat then
      (inl (wrong_order (getOrder h this) indices), n)
    else (inr (AccessAt n this indices), Pos.succ n).

(** [operator+], [operator-], [operator*], [operator/] on two expressions,
    and [IndexExpr::operator-()]: each returns a new node over its
    operands, which are shared, not copied. *)
Definition operator_add (lhs rhs : ExprNode) : Alloc ExprNode :=
  fun n => (BinaryExprNode n Add lhs rhs, Pos.succ n).

Definition operator_sub (lhs rhs : ExprNode) : Alloc ExprNode :=
  fun n => (BinaryExprNode n Sub lhs rhs, Pos.succ n).

Definition operator_mul (lhs rhs : ExprNode) : Alloc ExprNode :=
  fun n => (BinaryExprNode n Mul lhs rhs, Pos.succ n).

Definition operator_div (lhs rhs : ExprNode) : Alloc ExprNode :=
  fun n => (BinaryExprNode n Div lhs rhs, Pos.succ n).

Definition operator_neg (this : ExprNode) : Alloc ExprNode :=
  fun n => (UnaryExprNode n Neg this, Pos.succ n).

(** The four converting constructors [IndexExpr(long long)],
    [IndexExpr(unsigned long long)], [IndexExpr(double)] and
    [IndexExpr(std::complex<double>)]. *)
Definition IndexExpr_imm (val : ImmValue) : Alloc ExprNode :=
  fun n => (ImmExprNode n val, Pos.succ n).

(** ** Index variables of a tensor ([getIndexVars]) *)

(** [getIndexVars(const TensorVar&)] (the name [getIndexVars] is taken by the
    accessor of [Access]): the set of the free variables, into which the
    handler inserts the index variables of every Access of the definition. *)
Definition getTensorIndexVars (h : Heap) (tensor : TensorVar) : gset IndexVar :=
  foldl (fun (indexVars : gset IndexVar) (op : TensorVar * list IndexVar) =>
           indexVars ∪ list_to_set op.2)
    (list_to_set (freeVars (h tensor)))
    (match_AccessNode (indexExpr (h tensor))).

(** ** Packing tensors into parameters ([getTensorVars]) *)

Section TensorVars.

(** [ir::Var::make] and [getOperands] are declared outside the sources at
    hand: the first builds the variable of a tensor from its name, type and
    format, the second lists the operand tensors of an expression. *)
Variable Var_make : string -> Type_ -> Format -> ir.Expr.
Variable getOperands : IndexExpr -> list TensorVar.

(** The loop over the operands, [None] when the assertion
    [taco_iassert(!util::contains(mapping, operand))] fails. *)
Fixpoint packOperands (h : Heap) (operands : list TensorVar)
    (parameters : list ir.Expr) (mapping : gmap TensorVar ir.Expr)
    : option (list ir.Expr * gmap TensorVar ir.Expr) :=
  match operands with
  | [] => Some (parameters, mapping)
  | operand :: rest =>
      let operandVarExpr :=
        Var_make (name (h operand)) (type (h operand)) (format (h operand)) in
      if bool_decide (is_Some (mapping !! operand)) then None
      else
        packOperands h rest (parameters ++ [operandVarExpr])
          (match mapping !! operand with
           | Some _ => mapping
           | None => <[operand := operandVarExpr]> mapping
           end)
  end.

(** The tuple of parameters, results and mapping. *)
Definition getTensorVars (h : Heap) (tensor : TensorVar)
    : option (list ir.Expr * list ir.Expr * gmap TensorVar ir.Expr) :=
  let tensorVarExpr :=
    Var_make (name (h tensor)) (type (h tensor)) (format (h tensor)) in
  let mapping : gmap TensorVar ir.Expr := <[tensor := tensorVarExpr]> ∅ in
  let results := [tensorVarExpr] in
  match packOperands h (getOperands (indexExpr (h tensor))) [] mapping with
  | Some (parameters, mapping') => Some (parameters, results, mapping')
  | None => None
  end.

End TensorVars.

(** ** Further predicates *)

(** Addresses identify nodes across a pool of expressions. *)
Definition consistent (pool : list ExprNode) : bool :=
  forallb (fun x =>
    forallb (fun y => bool_decide (node_ptr x = node_ptr y -> x = y))
      (pool ≫= subterms))
    (pool ≫= subterms).

(** No floating-point or complex literal in the expression. *)
Fixpoint floatFree (e : ExprNode) : bool :=
  match e with
  | AccessNode _ _ _ => true
  | UnaryExprNode _ _ a => floatFree a
  | BinaryExprNode _ _ a b => floatFree a && floatFree b
  | ImmExprNode _ (IntImm _) | ImmExprNode _ (UIntImm _) => true
  | ImmExprNode _ _ => false
  end.

(** Every leaf is an Access with an index variable in [vars]. *)
Definition allKept (vars : gset IndexVar) (e : ExprNode) : bool :=
  forallb (fun leaf =>
             match leaf with
             | AccessNode _ _ ivs => accessKept vars ivs
             | _ => false
             end) (leaves e).

(** The variable of a tensor: its name alone (sample data). *)
Definition named_var (name : string) (ty : Type_) (fmt : Format) : ir.Expr :=
  ir.Var (Pos.of_nat (String.length name)).

(** The operands of an expression: the tensors it accesses, each once
    (sample data). *)
Definition accessed_tensors (e : IndexExpr) : list TensorVar :=
  remove_dups (fst <$> match_AccessNode e).

(** A heap in which [a] is defined as [a(i) = b(i) + c(i)]. *)
Definition a_is_b_plus_c : Heap :=
  heap_update vectors tensor_a
    {| name := "A"; type := {| getShape := [3] |}; format := [Dense];
       freeVars := [var_i];
       indexExpr := Some (BinaryExprNode 3 Add (AccessNode 1 tensor_b [var_i])
                            (AccessNode 2 tensor_c [var_i]));
       accumulate := false |}.

(** What a heap keeps of another: the declaration of every tensor, and the
    whole content of the tensors other than [t]. *)
Definition keeps (t : TensorVar) (h h' : Heap) : Prop :=
  (forall t', name (h' t') = name (h t') /\ type (h' t') = type (h t')
              /\ format (h' t') = format (h t'))
  /\ (forall t', t' <> t -> h' t' = h t').

(** The store invariant: addresses identify the nodes of the pool, and all
    of them were allocated before [n]. *)
Definition storeOk (pool : list ExprNode) (n : NodePtr) : Prop :=
  (forall x y, x ∈ pool ≫= subterms -> y ∈ pool ≫= subterms ->
     node_ptr x = node_ptr y -> x = y)
  /\ (forall x, x ∈ pool ≫= subterms -> (node_ptr x < n)%positive).

(** The accesses that are not exhausted. *)
Definition survivors (exhausted : list Access) (e : ExprNode)
    : list (TensorVar * list IndexVar) :=
  filter (fun op => isExhausted exhausted op = false) (accesses e).

(** A second iteration graph and iterator table give the answer of the
    first to a look-up. *)
Definition sameAnswer {TensorPath TensorPathStep : Type}
    (iterators iterators' : Iterators TensorPath TensorPathStep)
    (iterationGraph iterationGraph' : IterationGraph TensorPath)
    (asked : Lookup TensorPath TensorPathStep) : Prop :=
  match asked with
  | LookupTensorPath op => getTensorPath iterationGraph' op = getTensorPath iterationGraph op
  | LookupRoot path => getRoot iterators' path = getRoot iterators path
  | LookupStep step => iterator_at iterators' step = iterator_at iterators step
  end.

(** * Structural equality: proofs *)

Section EqualsFacts.

Lemma SFeqb_true_iff (x y : spec_float) :
  SFeqb x y = true <-> is_nan x = false /\ is_nan y = false /\ sf_norm x = sf_norm y.
Proof.
  unfold SFeqb.
  destruct x as [s1|s1| |s1 m1 e1], y as [s2|s2| |s2 m2 e2]; simpl;
    try (destruct s1); try (destruct s2); simpl;
    try (split; [intros ?|intros (?&?&?)]; done).
  all: change (PosDef.Pos.compare_cont Eq m1 m2) with (Pos.compare m1 m2).
  all: destruct (Z.compare_spec e1 e2) as [->| |];
      [destruct (Pos.compare_spec m1 m2) as [->| |]|..]; simpl;
      (split; [intros ?|intros (?&?&?)]; try done; simplify_eq; lia).
Qed.



Lemma SFeqb_refl (x : spec_float) : is_nan x = false -> SFeqb x x = true.
Proof. intros. apply SFeqb_true_iff; auto. Qed.

Import Equals.



Lemma immediateEquals_refl (v : ImmValue) :
  immNanFree v = true -> immediateEquals v v = true.
Proof.
  destruct v; simpl.
  - by rewrite Z.eqb_refl.
  - intros H%negb_true_iff. by rewrite SFeqb_refl.
  - intros [H1%negb_true_iff H2%negb_true_iff]%andb_true_iff.
    by rewrite !SFeqb_refl.
  - by rewrite N.eqb_refl.
Qed.

Lemma indexVarsLoop_shift (x y : IndexVar) (a b : list IndexVar) (n k : nat) :
  indexVarsLoop (x :: a) (y :: b) (seq (S k) n) = indexVarsLoop a b (seq k n).
Proof.
  revert k. induction n as [|n IH]; intros k; simpl; [done|].
  by rewrite IH.
Qed.

Lemma indexVarsLoop_prefixLoop (a b : list IndexVar) :
  indexVarsLoop a b (seq 0 (length a)) = prefixLoop a b.
Proof.
  revert b. induction a as [|x a IH]; intros b; [done|].
  destruct b as [|y b]; [done|].
  cbn [length seq indexVarsLoop prefixLoop lookup list_lookup].
  simpl. rewrite indexVarsLoop_shift, IH. done.
Qed.

Lemma prefixLoop_true (a b : list IndexVar) :
  prefixLoop a b = Some true <-> a `prefix_of` b.
Proof.
  revert b. induction a as [|x a IH]; intros b; simpl.
  - split; [intros _; apply prefix_nil | done].
  - destruct b as [|y b].
    + split; [done|]. intros H%prefix_nil_inv. done.
    + case_bool_decide as Hxy.
      * split; [done|]. intros [k Hk]. by simplify_eq/=.
      * subst y. rewrite IH. split.
        -- apply prefix_cons.
        -- apply prefix_cons_inv_2.
Qed.

Lemma prefixLoop_same_length (a b : list IndexVar) :
  length a = length b -> prefixLoop a b = Some (bool_decide (a = b)).
Proof.
  revert b. induction a as [|x a IH]; intros [|y b] Hlen; simplify_eq/=; [done|].
  rewrite (IH b) by done.
  repeat case_bool_decide; naive_solver.
Qed.

Lemma check_access (p q : NodePtr) (ta tb : TensorVar) (ia ib : list IndexVar) :
  check (AccessNode p ta ia) (AccessNode q tb ib) =
  if bool_decide (ta ≠ tb) then Some false else prefixLoop ia ib.
Proof.
  simpl. case_bool_decide; [done|].
  rewrite bool_decide_eq_false_2 by (intros ?; done).
  apply indexVarsLoop_prefixLoop.
Qed.

End EqualsFacts.

Section CheckFacts.

Import Equals.

Lemma check_unary (p q : NodePtr) (k k' : UnaryKind) (a b : ExprNode) :
  check (UnaryExprNode p k a) (UnaryExprNode q k' b) =
  if bool_decide (k = k') then
    match check a b with Some r => Some r | None => None end
  else Some false.
Proof. simpl. case_bool_decide; [|done]. by destruct (check a b) as [[]|]. Qed.

Lemma check_binary (p q : NodePtr) (k k' : BinaryKind) (a1 a2 b1 b2 : ExprNode) :
  check (BinaryExprNode p k a1 a2) (BinaryExprNode q k' b1 b2) =
  if bool_decide (k = k') then
    match check a1 b1 with
    | Some true => check a2 b2
    | other => other
    end
  else Some false.
Proof.
  simpl. case_bool_decide; [|done].
  destruct (check a1 b1) as [[]|]; [|done..]. by destruct (check a2 b2) as [[]|].
Qed.

Lemma check_refl (a : ExprNode) : nanFree a = true -> check a a = Some true.
Proof.
  induction a as [p t ivs|p k a IH|p k a IHa b IHb|p v]; intros Hn.
  - rewrite check_access, bool_decide_eq_false_2 by (intros ?; done).
    by apply prefixLoop_true.
  - rewrite check_unary, bool_decide_eq_true_2 by done. by rewrite IH.
  - simpl in Hn. apply andb_true_iff in Hn as [Ha Hb].
    rewrite check_binary, bool_decide_eq_true_2 by done. by rewrite IHa, IHb.
  - simpl. by rewrite immediateEquals_refl.
Qed.

Lemma check_forget_l (a b : ExprNode) : check (forget a) b = check a b.
Proof.
  revert b. induction a as [p t ivs|p k a IH|p k a1 IH1 a2 IH2|p v];
    intros b; destruct b; try done.
  - cbn [forget]. by rewrite !check_unary, IH.
  - cbn [forget]. by rewrite !check_binary, IH1, IH2.
Qed.

Lemma check_forget_r (a b : ExprNode) : check a (forget b) = check a b.
Proof.
  revert b. induction a as [p t ivs|p k a IH|p k a1 IH1 a2 IH2|p v];
    intros b; destruct b; try done.
  - cbn [forget]. by rewrite !check_unary, IH.
  - cbn [forget]. by rewrite !check_binary, IH1, IH2.
Qed.

Lemma check_same_shape (a b : ExprNode) :
  forget a = forget b -> nanFree a = true -> check a b = Some true.
Proof.
  intros Hf Hn. rewrite <- check_forget_r, <- Hf, check_forget_r.
  by apply check_refl.
Qed.


Variable h : Heap.



End CheckFacts.

(** C5 (the code departs from it): [Equals::visit] of an [AccessNode]
    compares the size of [anode->indexVars] with itself, so two accesses to
    the same tensor variable are reported equal as soon as the index tuple of
    the first is an initial segment of that of the second, whatever the
    extra index variables [more] are; with the operands swapped the loop
    reads the shorter vector past its end. *)
Theorem C5_equals_access_ignores_length (p q : NodePtr) (t : TensorVar)
    (iv : IndexVar) (ivs more : list IndexVar) :
  equals (Some (AccessNode p t ivs)) (Some (AccessNode q t (ivs ++ iv :: more))) = Some true
  /\ equals (Some (AccessNode q t (ivs ++ iv :: more))) (Some (AccessNode p t ivs)) = None.
Proof.
  unfold equals. rewrite !check_access.
  rewrite !bool_decide_eq_false_2 by (intros ?; done). split.
  - apply prefixLoop_true. by apply prefix_app_r.
  - induction ivs as [|x ivs IH]; simpl; [done|].
    by rewrite bool_decide_eq_false_2 by (intros ?; done).
Qed.




(** * Definition binding: proofs *)

Lemma cmd_bind_read {A B} (f : Heap -> A) (k : A -> Cmd B) (h : Heap) :
  cmd_bind (read f) k h = k (f h) h.
Proof. reflexivity. Qed.

Lemma cmd_bind_uassert {B} (c : bool) (err : Error) (k : unit -> Cmd B) (h : Heap) :
  cmd_bind (taco_uassert c err) k h = if c then k tt h else (inl err, h).
Proof. unfold cmd_bind, taco_uassert. by destruct c. Qed.

Section BindingFacts.

Variable error : ErrorChecks.

(** A failed binding hands the heap back as it found it. *)
Lemma setIndexExpression_failure (t : TensorVar) (fv : list IndexVar) (e : IndexExpr)
    (acc : bool) (h h' : Heap) (err : Error) :
  setIndexExpression error t fv e acc h = (inl err, h') -> h' = h.
Proof.
  unfold setIndexExpression, cmd_bind, read, taco_uassert. simpl.
  destruct (dimensionsTypecheck error h fv e _); simpl; [|by intros [= _ <-]].
  destruct (containsTranspose error h _ fv e); simpl; [by intros [= _ <-]|].
  destruct (containsDistribution error h fv e); simpl; [by intros [= _ <-]|].
  done.
Qed.

Lemma setIndexExpression_success (t : TensorVar) (fv : list IndexVar) (e : IndexExpr)
    (acc : bool) (h : Heap) :
  dimensionsTypecheck error h fv e (getShape (type (h t))) = true ->
  containsTranspose error h (format (h t)) fv e = false ->
  containsDistribution error h fv e = false ->
  exists h', setIndexExpression error t fv e acc h = (inr tt, h')
    /\ freeVars (h' t) = fv /\ indexExpr (h' t) = e /\ accumulate (h' t) = acc
    /\ name (h' t) = name (h t) /\ type (h' t) = type (h t) /\ format (h' t) = format (h t)
    /\ forall t', t' <> t -> h' t' = h t'.
Proof.
  intros Hdim Htr Hdis.
  unfold setIndexExpression, cmd_bind, read, taco_uassert. simpl.
  rewrite Hdim. simpl. rewrite Htr. simpl. rewrite Hdis. simpl.
  eexists. split; [reflexivity|].
  unfold heap_update. rewrite !decide_True by done. simpl.
  repeat split. intros t' Hne. by rewrite !decide_False.
Qed.

Lemma setIndexExpression_mismatch (t : TensorVar) (fv : list IndexVar) (e : IndexExpr)
    (acc : bool) (h : Heap) :
  dimensionsTypecheck error h fv e (getShape (type (h t))) = false ->
  setIndexExpression error t fv e acc h = (inl expr_dimension_mismatch, h).
Proof.
  intros Hdim. unfold setIndexExpression, cmd_bind, read, taco_uassert. simpl.
  by rewrite Hdim.
Qed.

Lemma Access_assign_undefined (this : Access) (e : IndexExpr) (h : Heap) :
  indexExpr (h (getTensorVar this)) = None ->
  Access_assign error this e h
  = setIndexExpression error (getTensorVar this) (getIndexVars this) e false h
  /\ Access_accumulate error this e h
     = setIndexExpression error (getTensorVar this) (getIndexVars this) e true h.
Proof.
  intros Hundef. unfold Access_assign, Access_accumulate.
  by rewrite !cmd_bind_read, !cmd_bind_uassert, Hundef.
Qed.

Lemma Access_assign_defined (this : Access) (e : IndexExpr) (h : Heap) :
  indexExpr (h (getTensorVar this)) <> None ->
  Access_assign error this e h = (inl (cannot_reassign (getTensorVar this)), h)
  /\ Access_accumulate error this e h = (inl (cannot_reassign (getTensorVar this)), h).
Proof.
  intros Hdef. unfold Access_assign, Access_accumulate.
  rewrite !cmd_bind_read, !cmd_bind_uassert.
  by destruct (indexExpr (h (getTensorVar this))).
Qed.

(** C7: whenever [setIndexExpression] fails, the heap is as it was before
    the call.  A binding through [operator=] or [operator+=] whose dimension
    check fails on a tensor without a definition reports the dimension
    mismatch and leaves the heap, hence the undefined definition, as it was;
    a binding to a tensor that has a definition is refused and leaves the
    heap, hence the free variables, the expression and the accumulate flag of
    the first definition, as it was. *)
Theorem C7_binding_atomic_on_failure (h : Heap) (this : Access) (expr : IndexExpr) :
  let t := getTensorVar this in
  (forall fv acc err h',
     setIndexExpression error t fv expr acc h = (inl err, h') -> h' = h)
  /\ (indexExpr (h t) = None ->
      dimensionsTypecheck error h (getIndexVars this) expr (getShape (type (h t))) = false ->
      Access_assign error this expr h = (inl expr_dimension_mismatch, h)
      /\ Access_accumulate error this expr h = (inl expr_dimension_mismatch, h)
      /\ indexExpr ((Access_assign error this expr h).2 t) = None
      /\ indexExpr ((Access_accumulate error this expr h).2 t) = None)
  /\ (indexExpr (h t) <> None ->
      Access_assign error this expr h = (inl (cannot_reassign t), h)
      /\ Access_accumulate error this expr h = (inl (cannot_reassign t), h)
      /\ (Access_assign error this expr h).2 t = h t
      /\ (Access_accumulate error this expr h).2 t = h t).
Proof.
  intros t. subst t. split; [|split].
  - intros fv acc err h'. apply setIndexExpression_failure.
  - intros Hundef Hdim.
    destruct (Access_assign_undefined this expr h Hundef) as [-> ->].
    rewrite !setIndexExpression_mismatch by done. simpl. by rewrite Hundef.
  - intros Hdef.
    destruct (Access_assign_defined this expr h Hdef) as [-> ->]. done.
Qed.

(** C10: [setIndexExpression] looks at the three checks only.  Called on a
    tensor variable, defined or not, for which they pass, it succeeds and
    records the new free variables, expression and accumulate flag in place
    of the previous ones, other tensor variables being untouched; when the
    tensor was defined, it is [operator=] and [operator+=] that refuse. *)
Theorem C10_setIndexExpression_overwrites (h : Heap) (t : TensorVar)
    (fv : list IndexVar) (e : IndexExpr) (acc : bool) :
  dimensionsTypecheck error h fv e (getShape (type (h t))) = true ->
  containsTranspose error h (format (h t)) fv e = false ->
  containsDistribution error h fv e = false ->
  let r := setIndexExpression error t fv e acc h in
  r.1 = inr tt
  /\ freeVars (r.2 t) = fv
  /\ indexExpr (r.2 t) = e
  /\ accumulate (r.2 t) = acc
  /\ (forall t', t' <> t -> r.2 t' = h t')
  /\ (indexExpr (h t) <> None ->
      forall this x, getTensorVar this = t ->
        Access_assign error this x h = (inl (cannot_reassign t), h)
        /\ Access_accumulate error this x h = (inl (cannot_reassign t), h)).
Proof.
  intros Hdim Htr Hdis r. subst r.
  destruct (setIndexExpression_success t fv e acc h Hdim Htr Hdis)
    as (h' & -> & Hfv & He & Hacc & _ & _ & _ & Hother).
  simpl. split; [done|]. split; [done|]. split; [done|]. split; [done|].
  split; [done|].
  intros Hdef this x Ht. subst t. by apply Access_assign_defined.
Qed.

End BindingFacts.

Lemma C7_binding_atomic_on_failure_witness :
  let this := AccessAt 7 tensor_a [var_i; var_j] in
  let expr := Some (AccessNode 2 tensor_b [var_i]) in
  (Access_assign arity_checks this expr vectors = (inl expr_dimension_mismatch, vectors)
   /\ Access_accumulate arity_checks this expr vectors
      = (inl expr_dimension_mismatch, vectors)
   /\ indexExpr ((Access_assign arity_checks this expr vectors).2 tensor_a) = None
   /\ indexExpr ((Access_accumulate arity_checks this expr vectors).2 tensor_a) = None)
  /\ (Access_assign arity_checks this expr a_defined
        = (inl (cannot_reassign tensor_a), a_defined)
      /\ Access_accumulate arity_checks this expr a_defined
         = (inl (cannot_reassign tensor_a), a_defined)
      /\ (Access_assign arity_checks this expr a_defined).2 tensor_a = a_defined tensor_a
      /\ (Access_accumulate arity_checks this expr a_defined).2 tensor_a
         = a_defined tensor_a).
Proof.
  intros this expr. split.
  - apply (C7_binding_atomic_on_failure arity_checks vectors this expr); reflexivity.
  - apply (C7_binding_atomic_on_failure arity_checks a_defined this expr). discriminate.
Defined.

Lemma C10_setIndexExpression_overwrites_witness :
  let e := Some (AccessNode 9 tensor_c [var_j]) in
  let r := setIndexExpression arity_checks tensor_a [var_j] e true a_defined in
  r.1 = inr tt
  /\ freeVars (r.2 tensor_a) = [var_j]
  /\ indexExpr (r.2 tensor_a) = e
  /\ accumulate (r.2 tensor_a) = true
  /\ (forall t', t' <> tensor_a -> r.2 t' = a_defined t')
  /\ (indexExpr (a_defined tensor_a) <> None ->
      forall this x, getTensorVar this = tensor_a ->
        Access_assign arity_checks this x a_defined
          = (inl (cannot_reassign tensor_a), a_defined)
        /\ Access_accumulate arity_checks this x a_defined
           = (inl (cannot_reassign tensor_a), a_defined)).
Proof.
  intros e.
  apply (C10_setIndexExpression_overwrites arity_checks a_defined tensor_a [var_j] e true);
    reflexivity.
Defined.

(** * Index variable ranges: proofs *)

Section RangeFacts.

Implicit Types (m : gmap IndexVar Dimension) (l : list (IndexVar * Dimension)).

Lemma map_insert_lookup m (k v : IndexVar) (d : Dimension) :
  map_insert m k d !! v =
  match m !! v with
  | Some x => Some x
  | None => if decide (k = v) then Some d else None
  end.
Proof.
  unfold map_insert. destruct (m !! k) as [x|] eqn:Hk.
  - destruct (m !! v) eqn:Hv; [done|]. case_decide; [congruence|done].
  - rewrite lookup_insert. case_decide; subst.
    + by rewrite Hk.
    + by destruct (m !! v).
Qed.

Lemma firstBinding_app (v : IndexVar) l1 l2 :
  firstBinding v (l1 ++ l2) =
  match firstBinding v l1 with Some d => Some d | None => firstBinding v l2 end.
Proof.
  induction l1 as [|[x d] l1 IH]; simpl; [done|]. by case_decide.
Qed.

(** The first binding wins: what the loop leaves in the map. *)
Lemma insertRanges_spec (vars : list IndexVar) (shape : list Dimension) (i : nat) m :
  i + length vars <= length shape ->
  exists m', insertRanges vars shape i m = Some m'
    /\ forall v, m' !! v =
         match m !! v with
         | Some d => Some d
         | None => firstBinding v (zip vars (drop i shape))
         end.
Proof.
  revert i m. induction vars as [|x vars IH]; intros i m Hlen;
    cbn [insertRanges length] in *.
  - exists m. split; [done|]. intros v. by destruct (m !! v).
  - destruct (lookup_lt_is_Some_2 shape i) as [d Hd]; [lia|].
    rewrite Hd. destruct (IH (S i) (map_insert m x d)) as (m' & -> & Hm'); [lia|].
    exists m'. split; [done|]. intros v.
    rewrite Hm', map_insert_lookup, (drop_S _ _ _ Hd). simpl.
    destruct (m !! v); [done|]. by case_decide.
Qed.

Lemma insertAccessRanges_spec (h : Heap) (ops : list (TensorVar * list IndexVar)) m :
  Forall (fun op => length op.2 = getOrder h op.1) ops ->
  exists m', insertAccessRanges h ops m = Some m'
    /\ forall v, m' !! v =
         match m !! v with
         | Some d => Some d
         | None =>
             firstBinding v
               (concat (map (fun op : TensorVar * list IndexVar =>
                               zip op.2 (getShape (type (h op.1)))) ops))
         end.
Proof.
  revert m. induction ops as [|[t ivs] ops IH]; intros m Hwf; simpl.
  - exists m. split; [done|]. intros v. by destruct (m !! v).
  - apply Forall_cons in Hwf as [Ht Hwf]. simpl in Ht.
    destruct (insertRanges_spec ivs (getShape (type (h t))) 0 m) as (m1 & -> & Hm1).
    { unfold getOrder in Ht. lia. }
    destruct (IH m1 Hwf) as (m' & -> & Hm'). exists m'. split; [done|].
    intros v. rewrite Hm', Hm1, firstBinding_app. rewrite drop_0.
    destruct (m !! v); [done|]. done.
Qed.

Lemma wellFormed_accesses (h : Heap) (e : ExprNode) :
  wellFormed h e = true ->
  Forall (fun op => length op.2 = getOrder h op.1) (accesses e).
Proof.
  induction e as [p t ivs|p k a IH|p k a IHa b IHb|p v]; simpl; intros Hwf.
  - apply bool_decide_eq_true in Hwf. by apply Forall_singleton.
  - by apply IH.
  - apply andb_true_iff in Hwf as [Ha Hb]. apply Forall_app. auto.
  - constructor.
Qed.

End RangeFacts.

(** C9: on a tensor whose free variables and whose accesses respect the
    orders of their tensors, [getIndexVarRanges] returns a map (no error,
    whatever the dimensions are) in which every index variable is bound to
    the dimension of the first position it is met at, free-variable positions
    first and Access positions after them in traversal order; a variable met
    in an initial part of the positions keeps the dimension it got there
    whatever the later positions hold. *)
Theorem C9_getIndexVarRanges_first_wins (h : Heap) (tensor : TensorVar) :
  length (freeVars (h tensor)) = getOrder h tensor ->
  wellFormedExpr h (indexExpr (h tensor)) = true ->
  exists m, getIndexVarRanges h tensor = Some m
    /\ (forall v, m !! v = firstBinding v (encounters h tensor))
    /\ (forall v d earlier later,
          encounters h tensor = earlier ++ later ->
          firstBinding v earlier = Some d -> m !! v = Some d).
Proof.
  intros Hfree Hwf. unfold getIndexVarRanges, encounters.
  destruct (insertRanges_spec (freeVars (h tensor)) (getShape (type (h tensor))) 0 ∅)
    as (m0 & -> & Hm0).
  { unfold getOrder in Hfree. lia. }
  destruct (insertAccessRanges_spec h (match_AccessNode (indexExpr (h tensor))) m0)
    as (m & -> & Hm).
  { destruct (indexExpr (h tensor)) as [e|]; simpl in *.
    - by apply wellFormed_accesses.
    - constructor. }
  assert (Hall : forall v, m !! v = firstBinding v
    (zip (freeVars (h tensor)) (getShape (type (h tensor))) ++
     concat (map (fun op : TensorVar * list IndexVar => zip op.2 (getShape (type (h op.1))))
               (match_AccessNode (indexExpr (h tensor)))))).
  { intros v. rewrite Hm, Hm0, lookup_empty, firstBinding_app, drop_0.
    by destruct (firstBinding v _). }
  exists m. split; [done|]. split; [done|].
  intros v d earlier later Heq Hfirst.
  by rewrite Hall, Heq, firstBinding_app, Hfirst.
Qed.

Lemma C9_getIndexVarRanges_first_wins_witness :
  exists m, getIndexVarRanges disagreeing tensor_t = Some m
    /\ (forall v, m !! v = firstBinding v (encounters disagreeing tensor_t))
    /\ (forall v d earlier later,
          encounters disagreeing tensor_t = earlier ++ later ->
          firstBinding v earlier = Some d -> m !! v = Some d).
Proof.
  apply (C9_getIndexVarRanges_first_wins disagreeing tensor_t); reflexivity.
Defined.


(** * Node addresses: proofs *)

Section LabelFacts.

Lemma subterms_self (e : ExprNode) : e ∈ subterms e.
Proof. destruct e; simpl; apply list_elem_of_here. Qed.

Lemma subterms_trans (x y e : ExprNode) :
  x ∈ subterms y -> y ∈ subterms e -> x ∈ subterms e.
Proof.
  intros Hx.
  induction e as [p t ivs|p k a IH|p k a IHa b IHb|p v]; cbn [subterms]; intros Hy;
    apply elem_of_cons in Hy as [->|Hy]; try exact Hx; apply elem_of_cons; right.
  - by apply elem_of_nil in Hy.
  - by apply IH.
  - apply elem_of_app in Hy as [Hy|Hy]; apply elem_of_app; [left|right]; auto.
  - by apply elem_of_nil in Hy.
Qed.

Lemma subterms_ptr (x e : ExprNode) : x ∈ subterms e -> node_ptr x ∈ node_ptrs e.
Proof.
  induction e as [p t ivs|p k a IH|p k a IHa b IHb|p v]; cbn [subterms node_ptrs];
    intros Hx; apply elem_of_cons in Hx as [->|Hx]; try apply list_elem_of_here;
    apply elem_of_cons; right.
  - by apply elem_of_nil in Hx.
  - by apply IH.
  - apply elem_of_app in Hx as [Hx|Hx]; apply elem_of_app; [left|right]; auto.
  - by apply elem_of_nil in Hx.
Qed.

Lemma subterms_ptrs_incl (q : NodePtr) (a e : ExprNode) :
  a ∈ subterms e -> q ∈ node_ptrs a -> q ∈ node_ptrs e.
Proof.
  intros Ha Hq.
  induction e as [p t ivs|p k a' IH|p k a1 IH1 a2 IH2|p v]; cbn [subterms node_ptrs] in *;
    apply elem_of_cons in Ha as [->|Ha]; try exact Hq; apply elem_of_cons; right.
  - by apply elem_of_nil in Ha.
  - by apply IH.
  - apply elem_of_app in Ha as [Ha|Ha]; apply elem_of_app; [left|right]; auto.
  - by apply elem_of_nil in Ha.
Qed.

Lemma wellLabelled_spec (e x y : ExprNode) :
  wellLabelled e = true ->
  x ∈ subterms e -> y ∈ subterms e -> node_ptr x = node_ptr y -> x = y.
Proof.
  unfold wellLabelled. rewrite forallb_forall. intros H Hx Hy.
  apply list_elem_of_In in Hx, Hy. specialize (H x Hx).
  rewrite forallb_forall in H. specialize (H y Hy).
  by apply bool_decide_eq_true in H.
Qed.

Lemma wellLabelled_sub (e a : ExprNode) :
  a ∈ subterms e -> wellLabelled e = true -> wellLabelled a = true.
Proof.
  intros Ha He. unfold wellLabelled. apply forallb_forall. intros x Hx.
  apply forallb_forall. intros y Hy. apply bool_decide_eq_true.
  apply list_elem_of_In in Hx, Hy.
  apply (wellLabelled_spec e); [done|by eapply subterms_trans..].
Qed.

Lemma allocatedBefore_spec (n : NodePtr) (e x : ExprNode) :
  allocatedBefore n e = true -> x ∈ subterms e -> (node_ptr x < n)%positive.
Proof.
  unfold allocatedBefore. rewrite forallb_forall. intros H Hx.
  apply subterms_ptr, list_elem_of_In in Hx. specialize (H _ Hx).
  by apply bool_decide_eq_true in H.
Qed.

Lemma allocatedBefore_sub (n m : NodePtr) (e a : ExprNode) :
  a ∈ subterms e -> (n <= m)%positive ->
  allocatedBefore n e = true -> allocatedBefore m a = true.
Proof.
  intros Ha Hnm He. unfold allocatedBefore in *. rewrite forallb_forall in *.
  intros q Hq. apply bool_decide_eq_true.
  assert (Hin : In q (node_ptrs e)).
  { apply list_elem_of_In. apply list_elem_of_In in Hq. by eapply subterms_ptrs_incl. }
  specialize (He _ Hin). apply bool_decide_eq_true in He. lia.
Qed.

(** A node that is part of [e] or was allocated after every node of [e], and
    sits at the address of [e], is [e]. *)
Lemma same_ptr_same_node (n : NodePtr) (e r : ExprNode) :
  wellLabelled e = true -> allocatedBefore n e = true ->
  r ∈ subterms e \/ (n <= node_ptr r)%positive ->
  node_ptr r = node_ptr e -> r = e.
Proof.
  intros Hwl Hal [Hsub|Hnew] Hptr.
  - apply (wellLabelled_spec e); [done..|apply subterms_self|done].
  - pose proof (allocatedBefore_spec n e e Hal (subterms_self e)). lia.
Qed.

End LabelFacts.

(** * Simplification: proofs *)

Section SimplifyFacts.

Import Simplify.

Variable exhausted : list Access.

Lemma contains_access (p : NodePtr) (t : TensorVar) (ivs : list IndexVar) :
  contains exhausted (AccessNode p t ivs) = isExhausted exhausted (t, ivs).
Proof. reflexivity. Qed.

Lemma rewrite_unary (p : NodePtr) (k : UnaryKind) (a : ExprNode) (n : NodePtr) :
  rewrite exhausted (UnaryExprNode p k a) n =
  match rewrite exhausted a n with
  | (None, n1) => (None, n1)
  | (Some a', n1) =>
      if bool_decide (node_ptr a' = node_ptr a) then (Some (UnaryExprNode p k a), n1)
      else (Some (UnaryExprNode n1 k a'), Pos.succ n1)
  end.
Proof.
  cbn [rewrite]. unfold visitUnaryOp, bind.
  destruct (rewrite exhausted a n) as [[a'|] n1]; [|done].
  simpl. by case_bool_decide.
Qed.

Lemma rewrite_disjunction (p : NodePtr) (k : BinaryKind) (a b : ExprNode) (n : NodePtr) :
  k = Add \/ k = Sub ->
  rewrite exhausted (BinaryExprNode p k a b) n =
  let ra := rewrite exhausted a n in
  let rb := rewrite exhausted b ra.2 in
  match ra.1, rb.1 with
  | None, None => (None, rb.2)
  | None, Some b' => (Some b', rb.2)
  | Some a', None => (Some a', rb.2)
  | Some a', Some b' =>
      if bool_decide (node_ptr a' = node_ptr a) && bool_decide (node_ptr b' = node_ptr b)
      then (Some (BinaryExprNode p k a b), rb.2)
      else (Some (BinaryExprNode rb.2 k a' b'), Pos.succ rb.2)
  end.
Proof.
  intros [-> | ->]; cbn [rewrite]; unfold visitDisjunctionOp, bind;
    destruct (rewrite exhausted a n) as [[a'|] n1]; simpl;
    destruct (rewrite exhausted b n1) as [[b'|] n2]; simpl; try done;
    by destruct (bool_decide _ && bool_decide _).
Qed.

Lemma rewrite_conjunction (p : NodePtr) (k : BinaryKind) (a b : ExprNode) (n : NodePtr) :
  k = Mul \/ k = Div ->
  rewrite exhausted (BinaryExprNode p k a b) n =
  let ra := rewrite exhausted a n in
  let rb := rewrite exhausted b ra.2 in
  match ra.1, rb.1 with
  | Some a', Some b' =>
      if bool_decide (node_ptr a' = node_ptr a) && bool_decide (node_ptr b' = node_ptr b)
      then (Some (BinaryExprNode p k a b), rb.2)
      else (Some (BinaryExprNode rb.2 k a' b'), Pos.succ rb.2)
  | _, _ => (None, rb.2)
  end.
Proof.
  intros [-> | ->]; cbn [rewrite]; unfold visitConjunctionOp, bind;
    destruct (rewrite exhausted a n) as [[a'|] n1]; simpl;
    destruct (rewrite exhausted b n1) as [[b'|] n2]; simpl; try done;
    by destruct (bool_decide _ && bool_decide _).
Qed.

Lemma disjunctionRule_holds (k : BinaryKind) :
  k = Add \/ k = Sub -> disjunctionRule exhausted k.
Proof.
  intros Hk p a b n. cbv zeta. rewrite (rewrite_disjunction p k a b n Hk). cbv zeta.
  destruct (rewrite exhausted a n) as [[a'|] n1]; cbn [fst snd];
    destruct (rewrite exhausted b n1) as [[b'|] n2]; cbn [fst snd];
    try (destruct (bool_decide (node_ptr a' = node_ptr a)
                   && bool_decide (node_ptr b' = node_ptr b))); cbn [fst snd];
    (split; [split; [done | by intros []] | split; done]).
Qed.

Lemma conjunctionRule_holds (k : BinaryKind) :
  k = Mul \/ k = Div -> conjunctionRule exhausted k.
Proof.
  intros Hk p a b n. cbv zeta. rewrite (rewrite_conjunction p k a b n Hk). cbv zeta.
  destruct (rewrite exhausted a n) as [[a'|] n1]; cbn [fst snd];
    destruct (rewrite exhausted b n1) as [[b'|] n2]; cbn [fst snd];
    try (destruct (bool_decide (node_ptr a' = node_ptr a)
                   && bool_decide (node_ptr b' = node_ptr b))); cbn [fst snd];
    (split; [by auto | by intros []]).
Qed.

(** The rewriting is undefined exactly on the expressions that empty. *)
Lemma rewrite_None_iff (e : ExprNode) (n : NodePtr) :
  (rewrite exhausted e n).1 = None <-> empties exhausted e = true.
Proof.
  revert n. induction e as [p t ivs|p k a IH|p k a IHa b IHb|p v]; intros n.
  - cbn [rewrite empties]. rewrite contains_access.
    by destruct (isExhausted exhausted (t, ivs)).
  - rewrite rewrite_unary. cbn [empties]. rewrite <- (IH n).
    destruct (rewrite exhausted a n) as [[a'|] n1]; simpl; [|done].
    by case_bool_decide.
  - cbn [empties]. destruct k.
    + destruct (disjunctionRule_holds Add (or_introl eq_refl) p a b n) as (-> & _).
      rewrite andb_true_iff, IHa, IHb. done.
    + destruct (disjunctionRule_holds Sub (or_intror eq_refl) p a b n) as (-> & _).
      rewrite andb_true_iff, IHa, IHb. done.
    + rewrite (conjunctionRule_holds Mul (or_introl eq_refl) p a b n).
      rewrite orb_true_iff, IHa, IHb. done.
    + rewrite (conjunctionRule_holds Div (or_intror eq_refl) p a b n).
      rewrite orb_true_iff, IHa, IHb. done.
  - done.
Qed.

(** Rewriting only moves the allocator forward. *)
Lemma rewrite_mono (e : ExprNode) (n : NodePtr) :
  (n <= (rewrite exhausted e n).2)%positive.
Proof.
  revert n. induction e as [p t ivs|p k a IH|p k a IHa b IHb|p v]; intros n.
  - cbn [rewrite]. destruct (contains _ _); simpl; lia.
  - rewrite rewrite_unary. specialize (IH n).
    destruct (rewrite exhausted a n) as [[a'|] n1]; simpl in *; [|done].
    case_bool_decide; simpl; lia.
  - specialize (IHa n). specialize (IHb (rewrite exhausted a n).2).
    assert (Hk : (k = Add \/ k = Sub) \/ (k = Mul \/ k = Div)) by (destruct k; auto).
    destruct Hk as [Hk|Hk];
      [rewrite (rewrite_disjunction p k a b n Hk)
      |rewrite (rewrite_conjunction p k a b n Hk)]; cbv zeta;
      destruct (rewrite exhausted a n) as [[a'|] n1]; cbn [fst snd] in *;
      destruct (rewrite exhausted b n1) as [[b'|] n2]; cbn [fst snd] in *;
      try (destruct (bool_decide (node_ptr a' = node_ptr a)
                     && bool_decide (node_ptr b' = node_ptr b))); cbn [fst snd]; lia.
  - simpl. lia.
Qed.

(** A rewritten expression is a node of the expression or a new node. *)
Lemma rewrite_origin (e r : ExprNode) (n : NodePtr) :
  (rewrite exhausted e n).1 = Some r ->
  r ∈ subterms e \/ (n <= node_ptr r)%positive.
Proof.
  revert r n. induction e as [p t ivs|p k a IH|p k a IHa b IHb|p v]; intros r n.
  - cbn [rewrite]. destruct (contains _ _); simpl; [done|].
    intros [= <-]. left. apply subterms_self.
  - rewrite rewrite_unary. pose proof (rewrite_mono a n) as Hm.
    destruct (rewrite exhausted a n) as [[a'|] n1]; simpl in *; [|done].
    case_bool_decide; simpl; intros [= <-].
    + left. apply (subterms_self (UnaryExprNode p k a)).
    + right. simpl. done.
  - pose proof (rewrite_mono a n) as Hma.
    pose proof (rewrite_mono b (rewrite exhausted a n).2) as Hmb.
    pose proof (fun r => IHa r n) as Ha'.
    pose proof (fun r => IHb r (rewrite exhausted a n).2) as Hb'. clear IHa IHb.
    assert (Hsub : forall x, x ∈ subterms a \/ x ∈ subterms b ->
                     x ∈ subterms (BinaryExprNode p k a b)).
    { intros x Hx. cbn [subterms]. apply elem_of_cons. right. by apply elem_of_app. }
    assert (Hk : (k = Add \/ k = Sub) \/ (k = Mul \/ k = Div)) by (destruct k; auto).
    destruct Hk as [Hk|Hk];
      [rewrite (rewrite_disjunction p k a b n Hk)
      |rewrite (rewrite_conjunction p k a b n Hk)]; cbv zeta;
      destruct (rewrite exhausted a n) as [[a'|] n1]; cbn [fst snd] in *;
      destruct (rewrite exhausted b n1) as [[b'|] n2]; cbn [fst snd] in *;
      try (destruct (bool_decide (node_ptr a' = node_ptr a)
                     && bool_decide (node_ptr b' = node_ptr b))); cbn [fst snd];
      intros [= <-]; cbn [node_ptr];
      try (left; apply (subterms_self (BinaryExprNode p k a b)));
      try (right; lia).
    + destruct (Ha' _ eq_refl); [left; auto | right; lia].
    + destruct (Hb' _ eq_refl); [left; auto | right; lia].
  - simpl. intros [= <-]. left. apply (subterms_self (ImmExprNode p v)).
Qed.

(** On an expression whose addresses identify its nodes and with a fresh
    allocator, the rewriter computes, up to node addresses, the expression
    the specification describes. *)
Lemma rewrite_refines (e : ExprNode) (n : NodePtr) :
  wellLabelled e = true -> allocatedBefore n e = true ->
  forget <$> (rewrite exhausted e n).1 = forget <$> simplifySpec exhausted e.
Proof.
  revert n. induction e as [p t ivs|p k a IH|p k a IHa b IHb|p v]; intros n Hwl Hal.
  - cbn [rewrite simplifySpec]. rewrite contains_access.
    by destruct (isExhausted exhausted (t, ivs)).
  - assert (Ha : a ∈ subterms (UnaryExprNode p k a)).
    { cbn [subterms]. apply elem_of_cons. right. apply subterms_self. }
    specialize (IH n (wellLabelled_sub _ _ Ha Hwl)
                  (allocatedBefore_sub n n _ _ Ha ltac:(lia) Hal)).
    pose proof (fun r => rewrite_origin a r n) as Ho.
    rewrite rewrite_unary. cbn [simplifySpec].
    destruct (rewrite exhausted a n) as [[a'|] n1]; cbn [fst] in *;
      destruct (simplifySpec exhausted a) as [sa|]; try done.
    simpl in IH. injection IH as IH.
    case_bool_decide as Hp; simpl; [|by rewrite IH].
    assert (a' = a) as ->; [|by rewrite IH].
    apply (same_ptr_same_node n);
      [by eapply wellLabelled_sub
      |by apply (allocatedBefore_sub n n _ _ Ha); [lia|]
      |by apply Ho
      |done].
  - assert (Ha : a ∈ subterms (BinaryExprNode p k a b)).
    { cbn [subterms]. apply elem_of_cons. right. apply elem_of_app. left.
      apply subterms_self. }
    assert (Hb : b ∈ subterms (BinaryExprNode p k a b)).
    { cbn [subterms]. apply elem_of_cons. right. apply elem_of_app. right.
      apply subterms_self. }
    pose proof (rewrite_mono a n) as Hm.
    pose proof (wellLabelled_sub _ _ Ha Hwl) as Hwla.
    pose proof (wellLabelled_sub _ _ Hb Hwl) as Hwlb.
    pose proof (allocatedBefore_sub n n _ _ Ha ltac:(lia) Hal) as Hala.
    pose proof (allocatedBefore_sub n _ _ _ Hb Hm Hal) as Halb.
    specialize (IHa n Hwla Hala). specialize (IHb _ Hwlb Halb).
    pose proof (fun r => rewrite_origin a r n) as Hoa.
    pose proof (fun r => rewrite_origin b r (rewrite exhausted a n).2) as Hob.
    assert (Hk : (k = Add \/ k = Sub) \/ (k = Mul \/ k = Div)) by (destruct k; auto).
    destruct Hk as [Hk|Hk];
      [rewrite (rewrite_disjunction p k a b n Hk)
      |rewrite (rewrite_conjunction p k a b n Hk)]; cbv zeta; cbn [simplifySpec];
      destruct Hk as [-> | ->];
      destruct (rewrite exhausted a n) as [[a'|] n1]; cbn [fst snd] in *;
      destruct (rewrite exhausted b n1) as [[b'|] n2]; cbn [fst snd] in *;
      destruct (simplifySpec exhausted a) as [sa|];
      destruct (simplifySpec exhausted b) as [sb|]; try done;
      simpl in IHa, IHb; simplify_eq; try done;
      (destruct (bool_decide (node_ptr a' = node_ptr a)
                 && bool_decide (node_ptr b' = node_ptr b)) eqn:Ep;
       [apply andb_true_iff in Ep as [Epa Epb];
        apply bool_decide_eq_true in Epa, Epb;
        (assert (a' = a) as -> by (apply (same_ptr_same_node n); auto));
        (assert (b' = b) as -> by (apply (same_ptr_same_node n1); auto))|];
       simpl; congruence).
  - done.
Qed.

End SimplifyFacts.

(** With nothing exhausted the rewriter returns its argument, the same node,
    and allocates nothing. *)
Lemma rewrite_nothing_exhausted (e : ExprNode) (n : NodePtr) :
  Simplify.rewrite [] e n = (Some e, n).
Proof.
  revert n. induction e as [p t ivs|p k a IH|p k a IHa b IHb|p v]; intros n.
  - done.
  - rewrite rewrite_unary, IH. by rewrite bool_decide_eq_true_2.
  - assert (Hk : (k = Add \/ k = Sub) \/ (k = Mul \/ k = Div)) by (destruct k; auto).
    destruct Hk as [Hk|Hk];
      [rewrite (rewrite_disjunction [] p k a b n Hk)
      |rewrite (rewrite_conjunction [] p k a b n Hk)]; cbv zeta;
      rewrite IHa; cbn [fst snd]; rewrite IHb; cbn [fst snd];
      by rewrite !bool_decide_eq_true_2.
  - done.
Qed.


(** C3: [simplify] replaces every exhausted Access by the undefined
    expression and propagates emptiness.  On an expression whose addresses
    identify its nodes, with a fresh allocator, the result is, up to node
    addresses, the one the specification describes, and it is undefined
    exactly when the expression empties.  Node by node: an Access is
    undefined when exhausted and itself otherwise; an addition or a
    subtraction is undefined only if both rewritten operands are, and is the
    other operand if one is; a multiplication or a division is undefined if
    either rewritten operand is; an immediate is returned unchanged.  With
    nothing exhausted the expression itself, the same node, is returned
    (which [equals] reports equal to it when it holds no NaN literal), and
    the undefined expression is always rewritten to itself;
    [simplify(a(i) + b(i), {a(i)})] is [b(i)] and
    [simplify(a(i) * b(i), {a(i)})] is undefined. *)
Theorem C3_simplify (exhausted : list Access) (e : ExprNode) (n : NodePtr) :
  wellLabelled e = true ->
  allocatedBefore n e = true ->
  forget <$> (simplify (Some e) exhausted n).1 = forget <$> simplifySpec exhausted e
  /\ ((simplify (Some e) exhausted n).1 = None <-> empties exhausted e = true)
  /\ (forall p t ivs m,
        simplify (Some (AccessNode p t ivs)) exhausted m =
        (if isExhausted exhausted (t, ivs) then None else Some (AccessNode p t ivs), m))
  /\ disjunctionRule exhausted Add
  /\ disjunctionRule exhausted Sub
  /\ conjunctionRule exhausted Mul
  /\ conjunctionRule exhausted Div
  /\ (forall p v m,
        simplify (Some (ImmExprNode p v)) exhausted m = (Some (ImmExprNode p v), m))
  /\ simplify (Some e) [] n = (Some e, n)
  /\ (nanFree e = true -> equals (simplify (Some e) [] n).1 (Some e) = Some true)
  /\ simplify None exhausted n = (None, n)
  /\ (forall p q r x m,
        let a_i := AccessNode p tensor_a [var_i] in
        let b_i := AccessNode q tensor_b [var_i] in
        simplify (Some (BinaryExprNode r Add a_i b_i)) [AccessAt x tensor_a [var_i]] m
          = (Some b_i, m)
        /\ equals (simplify (Some (BinaryExprNode r Add a_i b_i))
                     [AccessAt x tensor_a [var_i]] m).1 (Some b_i) = Some true
        /\ simplify (Some (BinaryExprNode r Mul a_i b_i)) [AccessAt x tensor_a [var_i]] m
          = (None, m)).
Proof.
  intros Hwl Hal. unfold simplify.
  split; [by apply rewrite_refines|].
  split; [apply rewrite_None_iff|].
  split.
  { intros p t ivs m. cbn [Simplify.rewrite]. rewrite contains_access.
    by destruct (isExhausted exhausted (t, ivs)). }
  split; [apply disjunctionRule_holds; auto|].
  split; [apply disjunctionRule_holds; auto|].
  split; [apply conjunctionRule_holds; auto|].
  split; [apply conjunctionRule_holds; auto|].
  split; [done|].
  split; [apply rewrite_nothing_exhausted|].
  split; [intros Hn; rewrite rewrite_nothing_exhausted; by apply check_refl|].
  split; [done|].
  intros p q r x m. repeat split.
Qed.

Lemma C3_simplify_witness :
  wellLabelled sum_ab_1 = true
  /\ allocatedBefore 10 sum_ab_1 = true
  /\ forget <$> (simplify (Some sum_ab_1) [AccessAt 7 tensor_a [var_i]] 10%positive).1
     = Some (AccessNode 1 tensor_b [var_i])
  /\ simplify (Some sum_ab_1) [] 10%positive = (Some sum_ab_1, 10%positive).
Proof.
  split; [reflexivity|]. split; [reflexivity|].
  pose proof (C3_simplify [AccessAt 7 tensor_a [var_i]] sum_ab_1 10 eq_refl eq_refl)
    as (Href & _).
  pose proof (C3_simplify [] sum_ab_1 10 eq_refl eq_refl)
    as (_ & _ & _ & _ & _ & _ & _ & _ & Hnil & _).
  split; [exact Href | exact Hnil].
Defined.


(** * Sub-expression extraction: proofs *)

Section SubExprFacts.

Import SubExprVisitor.

Variable vars : gset IndexVar.

Lemma accessKept_iff (ivs : list IndexVar) :
  accessKept vars ivs = true <-> exists v, v ∈ ivs /\ v ∈ vars.
Proof.
  induction ivs as [|x ivs IH]; simpl.
  - split; [done|]. intros (v & Hv & _). by apply elem_of_nil in Hv.
  - case_bool_decide as Hx.
    + split; [|done]. intros _. exists x. split; [apply list_elem_of_here|done].
    + rewrite IH. split.
      * intros (v & Hv & Hin). exists v. split; [by apply list_elem_of_further|done].
      * intros (v & Hv & Hin). apply elem_of_cons in Hv as [->|Hv]; [done|].
        by exists v.
Qed.

Lemma getSubExpression_unary (p : NodePtr) (k : UnaryKind) (a : ExprNode) (n : NodePtr) :
  getSubExpression vars (UnaryExprNode p k a) n =
  let ra := getSubExpression vars a n in
  (if defined ra.1 then Some (UnaryExprNode p k a) else None, ra.2).
Proof.
  cbn [getSubExpression]. unfold unarySubExpr, bind, ret.
  by destruct (getSubExpression vars a n).
Qed.

Lemma getSubExpression_binary (p : NodePtr) (k : BinaryKind) (a b : ExprNode) (n : NodePtr) :
  getSubExpression vars (BinaryExprNode p k a b) n =
  let ra := getSubExpression vars a n in
  let rb := getSubExpression vars b ra.2 in
  match ra.1, rb.1 with
  | Some a', Some b' => (Some (BinaryExprNode rb.2 k a' b'), Pos.succ rb.2)
  | Some a', None => (Some a', rb.2)
  | None, Some b' => (Some b', rb.2)
  | None, None => (None, rb.2)
  end.
Proof.
  cbn [getSubExpression]. unfold binarySubExpr, bind, ret, new_node.
  destruct (getSubExpression vars a n) as [[a'|] n1]; cbn [fst snd];
    by destruct (getSubExpression vars b n1) as [[b'|] n2].
Qed.

Lemma mentions_unary (p : NodePtr) (k : UnaryKind) (a : ExprNode) :
  mentions vars (UnaryExprNode p k a) = mentions vars a.
Proof. reflexivity. Qed.

Lemma mentions_binary (p : NodePtr) (k : BinaryKind) (a b : ExprNode) :
  mentions vars (BinaryExprNode p k a b) = mentions vars a || mentions vars b.
Proof. unfold mentions. cbn [accesses]. apply existsb_app. Qed.

(** The extraction is defined exactly when the expression mentions a
    variable of the set. *)
Lemma getSubExpression_defined (e : ExprNode) (n : NodePtr) :
  defined (getSubExpression vars e n).1 = mentions vars e.
Proof.
  revert n. induction e as [p t ivs|p k a IH|p k a IHa b IHb|p v]; intros n.
  - unfold mentions. simpl. destruct (accessKept vars ivs); by rewrite ?orb_false_r.
  - rewrite getSubExpression_unary, mentions_unary. cbv zeta. cbn [fst].
    rewrite <- (IH n). by destruct (defined (getSubExpression vars a n).1).
  - rewrite getSubExpression_binary, mentions_binary. cbv zeta.
    rewrite <- (IHa n), <- (IHb (getSubExpression vars a n).2).
    destruct (getSubExpression vars a n) as [[a'|] n1]; cbn [fst snd];
      by destruct (getSubExpression vars b n1) as [[b'|] n2].
  - done.
Qed.

Lemma getSubExpressionOld_defined (e : ExprNode) :
  defined (SubExprVisitorOld.getSubExpression vars e) = mentions vars e.
Proof.
  induction e as [p t ivs|p k a IH|p k a IHa b IHb|p v].
  - unfold mentions. simpl. destruct (accessKept vars ivs); by rewrite ?orb_false_r.
  - cbn [SubExprVisitorOld.getSubExpression]. rewrite IH, mentions_unary.
    by destruct (mentions vars a).
  - cbn [SubExprVisitorOld.getSubExpression]. rewrite mentions_binary, <- IHa, <- IHb.
    destruct (SubExprVisitorOld.getSubExpression vars a) as [a'|],
      (SubExprVisitorOld.getSubExpression vars b) as [b'|]; done.
  - done.
Qed.

Lemma getSubExpression_mono (e : ExprNode) (n : NodePtr) :
  (n <= (getSubExpression vars e n).2)%positive.
Proof.
  revert n. induction e as [p t ivs|p k a IH|p k a IHa b IHb|p v]; intros n.
  - simpl. lia.
  - rewrite getSubExpression_unary. apply IH.
  - rewrite getSubExpression_binary. cbv zeta.
    specialize (IHa n). specialize (IHb (getSubExpression vars a n).2).
    destruct (getSubExpression vars a n) as [[a'|] n1]; cbn [fst snd] in *;
      destruct (getSubExpression vars b n1) as [[b'|] n2]; cbn [fst snd] in *; lia.
  - simpl. lia.
Qed.

(** The structure of the extraction does not depend on the allocator. *)
Lemma getSubExpression_forget (e : ExprNode) (n m : NodePtr) :
  forget <$> (getSubExpression vars e n).1 = forget <$> (getSubExpression vars e m).1.
Proof.
  revert n m. induction e as [p t ivs|p k a IH|p k a IHa b IHb|p v]; intros n m.
  - done.
  - rewrite !getSubExpression_unary. cbv zeta. cbn [fst].
    specialize (IH n m).
    destruct (getSubExpression vars a n).1, (getSubExpression vars a m).1; done.
  - rewrite !getSubExpression_binary. cbv zeta.
    specialize (IHa n m).
    specialize (IHb (getSubExpression vars a n).2 (getSubExpression vars a m).2).
    destruct (getSubExpression vars a n) as [[a1|] n1],
      (getSubExpression vars a m) as [[a2|] m1]; cbn [fst snd] in *; try done;
      destruct (getSubExpression vars b n1) as [[b1|] n2],
        (getSubExpression vars b m1) as [[b2|] m2]; cbn [fst snd] in *; try done;
      simpl in *; congruence.
  - done.
Qed.

Lemma getSubExpressionOld_subterm (e x : ExprNode) :
  SubExprVisitorOld.getSubExpression vars e = Some x -> x ∈ subterms e.
Proof.
  revert x. induction e as [p t ivs|p k a IH|p k a IHa b IHb|p v]; intros x;
    cbn [SubExprVisitorOld.getSubExpression].
  - destruct (accessKept vars ivs); [|done]. intros [= <-]. apply subterms_self.
  - destruct (defined _); [|done]. intros [= <-].
    apply (subterms_self (UnaryExprNode p k a)).
  - destruct (SubExprVisitorOld.getSubExpression vars a) as [a'|],
      (SubExprVisitorOld.getSubExpression vars b) as [b'|]; simpl; try done.
    + intros [= <-]. apply (subterms_self (BinaryExprNode p k a b)).
    + intros [= <-]. apply elem_of_cons. right. apply elem_of_app. left. by apply IHa.
    + intros [= <-]. apply elem_of_cons. right. apply elem_of_app. right. by apply IHb.
  - done.
Qed.

(** [getSubExpr] on [e] computes what it computes on the node that
    [getSubExprOld] returns for [e]. *)
Lemma getSubExpression_via_old (e x : ExprNode) (n : NodePtr) :
  SubExprVisitorOld.getSubExpression vars e = Some x ->
  forget <$> (getSubExpression vars e n).1 = forget <$> (getSubExpression vars x n).1.
Proof.
  revert x n. induction e as [p t ivs|p k a IH|p k a IHa b IHb|p v]; intros x n;
    cbn [SubExprVisitorOld.getSubExpression].
  - destruct (accessKept vars ivs); [|done]. by intros [= <-].
  - destruct (defined _); [|done]. by intros [= <-].
  - pose proof (getSubExpressionOld_defined a) as Hda.
    pose proof (getSubExpressionOld_defined b) as Hdb.
    pose proof (getSubExpression_defined a n) as Hna.
    pose proof (getSubExpression_defined b (getSubExpression vars a n).2) as Hnb.
    rewrite <- Hda in Hna. rewrite <- Hdb in Hnb.
    rewrite (getSubExpression_binary p k a b). cbv zeta.
    destruct (SubExprVisitorOld.getSubExpression vars a) as [a'|] eqn:Ea,
      (SubExprVisitorOld.getSubExpression vars b) as [b'|] eqn:Eb; simpl; try done.
    + intros [= <-]. by rewrite (getSubExpression_binary p k a b).
    + intros [= <-]. specialize (IHa _ n eq_refl).
      destruct (getSubExpression vars a n) as [[a1|] n1]; cbn [fst snd] in *; [|done].
      by destruct (getSubExpression vars b n1) as [[b1|] n2].
    + intros [= <-]. specialize (IHb _ (getSubExpression vars a n).2 eq_refl).
      rewrite (getSubExpression_forget b' _ n) in IHb.
      destruct (getSubExpression vars a n) as [[a1|] n1]; cbn [fst snd] in *; [done|].
      by destruct (getSubExpression vars b n1) as [[b1|] n2].
  - done.
Qed.

(** Without unary nodes, every Access that is left mentions a variable of
    the set. *)
Lemma getSubExpression_residual (e r : ExprNode) (n : NodePtr) :
  unaryFree e = true ->
  (getSubExpression vars e n).1 = Some r ->
  Forall (fun op : TensorVar * list IndexVar => accessKept vars op.2 = true) (accesses r).
Proof.
  revert r n. induction e as [p t ivs|p k a IH|p k a IHa b IHb|p v]; intros r n Hu.
  - simpl. destruct (accessKept vars ivs) eqn:E; [|done]. intros [= <-].
    by apply Forall_singleton.
  - done.
  - simpl in Hu. apply andb_true_iff in Hu as [Hua Hub].
    pose proof (fun r => IHa r n Hua) as Ha.
    pose proof (fun r => IHb r (getSubExpression vars a n).2 Hub) as Hb.
    rewrite getSubExpression_binary. cbv zeta.
    destruct (getSubExpression vars a n) as [[a'|] n1]; cbn [fst snd] in *;
      destruct (getSubExpression vars b n1) as [[b'|] n2]; cbn [fst snd] in *;
      intros [= <-]; auto.
    cbn [accesses]. apply Forall_app. auto.
  - done.
Qed.

End SubExprFacts.

(** C1, counterexample: on [-(a(i) + b(j))] with target [{i}] the operand
    extracts to [a(i)], and the result is the negation node itself, still
    holding [b(j)], not a negation wrapping the extracted operand. *)
Lemma C1_unary_keeps_whole_operand :
  (getSubExpr neg_sum [var_i] 10%positive).1 = Some neg_sum
  /\ subExprSpec (list_to_set [var_i]) neg_sum
     = Some (UnaryExprNode 4 Neg (AccessNode 1 tensor_a [var_i]))
  /\ forget <$> (getSubExpr neg_sum [var_i] 10%positive).1
     <> forget <$> subExprSpec (list_to_set [var_i]) neg_sum.
Proof. split; [|split]; [reflexivity..|]. vm_compute. discriminate. Qed.

(** C1, as amended: an Access is kept as it is iff one of its index
    variables is in the set, else dropped; a unary node is returned as it is,
    the original node over its original operand, iff the extraction of its
    operand is defined, else dropped; a binary node whose two operand
    extractions are defined yields a new node of the same kind over the two
    extractions, at an address not allocated before, one whose single operand
    extraction is defined yields that extraction, and one with none is
    undefined; an immediate is undefined.  The result is defined exactly when
    some Access of the expression has an index variable in the set, and in an
    expression without unary nodes every Access left has one. *)
Theorem C1_getSubExpr (vars : list IndexVar) (n : NodePtr) :
  (forall p t ivs,
     getSubExpr (AccessNode p t ivs) vars n =
     (if accessKept (list_to_set vars) ivs then Some (AccessNode p t ivs) else None, n))
  /\ (forall ivs,
        accessKept (list_to_set vars) ivs = true <-> exists v, v ∈ ivs /\ v ∈ vars)
  /\ (forall p k a,
        let ra := getSubExpr a vars n in
        getSubExpr (UnaryExprNode p k a) vars n =
        (if defined ra.1 then Some (UnaryExprNode p k a) else None, ra.2))
  /\ (forall p k a b,
        let ra := getSubExpr a vars n in
        let rb := getSubExpr b vars ra.2 in
        (n <= rb.2)%positive
        /\ getSubExpr (BinaryExprNode p k a b) vars n =
           match ra.1, rb.1 with
           | Some a', Some b' => (Some (BinaryExprNode rb.2 k a' b'), Pos.succ rb.2)
           | Some a', None => (Some a', rb.2)
           | None, Some b' => (Some b', rb.2)
           | None, None => (None, rb.2)
           end)
  /\ (forall p v, getSubExpr (ImmExprNode p v) vars n = (None, n))
  /\ (forall e, defined (getSubExpr e vars n).1 = mentions (list_to_set vars) e)
  /\ (forall e r,
        unaryFree e = true ->
        (getSubExpr e vars n).1 = Some r ->
        Forall (fun op : TensorVar * list IndexVar =>
                  accessKept (list_to_set vars) op.2 = true) (accesses r)).
Proof.
  unfold getSubExpr. split; [done|].
  split.
  { intros ivs. rewrite accessKept_iff. by setoid_rewrite elem_of_list_to_set. }
  split; [intros p k a; apply getSubExpression_unary|].
  split.
  { intros p k a b. split; [|apply getSubExpression_binary].
    etrans; [apply (getSubExpression_mono (list_to_set vars) a n)|].
    apply getSubExpression_mono. }
  split; [done|].
  split; [intros e; apply getSubExpression_defined|].
  intros e r Hu Hr. by eapply getSubExpression_residual.
Qed.

Lemma C1_getSubExpr_witness :
  unaryFree sum_times_c = true
  /\ (getSubExpr sum_times_c [var_i] 10%positive).1
     = Some (BinaryExprNode 10 Mul (AccessNode 1 tensor_a [var_i])
               (AccessNode 4 tensor_c [var_i]))
  /\ Forall (fun op : TensorVar * list IndexVar =>
               accessKept (list_to_set [var_i]) op.2 = true)
       (accesses (BinaryExprNode 10 Mul (AccessNode 1 tensor_a [var_i])
                    (AccessNode 4 tensor_c [var_i]))).
Proof.
  split; [reflexivity|]. split; [reflexivity|].
  pose proof (C1_getSubExpr [var_i] 10) as (_ & _ & _ & _ & _ & _ & Hres).
  apply (Hres sum_times_c); reflexivity.
Defined.

(** * The old and the canonical extraction: proofs *)

Section OldAndNewFacts.

Import SubExprVisitor.

Variable vars : gset IndexVar.

Lemma subterms_forget_length (e : ExprNode) :
  length (subterms (forget e)) = length (subterms e).
Proof.
  induction e as [p t ivs|p k a IH|p k a IHa b IHb|p v]; cbn [forget subterms length];
    rewrite ?length_app; congruence.
Qed.

(** An extraction is no larger than the expression. *)
Lemma getSubExpression_size (e r : ExprNode) (n : NodePtr) :
  (getSubExpression vars e n).1 = Some r ->
  length (subterms r) <= length (subterms e).
Proof.
  revert r n. induction e as [p t ivs|p k a IH|p k a IHa b IHb|p v]; intros r n.
  - cbn [getSubExpression]. unfold ret. cbn [fst].
    destruct (accessKept vars ivs); [|done]. by intros [= <-].
  - rewrite getSubExpression_unary. cbv zeta. cbn [fst].
    destruct (defined _); [|done]. by intros [= <-].
  - pose proof (fun r => IHa r n) as Ha.
    pose proof (fun r => IHb r (getSubExpression vars a n).2) as Hb. clear IHa IHb.
    rewrite getSubExpression_binary. cbv zeta.
    destruct (getSubExpression vars a n) as [[a'|] n1]; cbn [fst snd] in *;
      destruct (getSubExpression vars b n1) as [[b'|] n2]; cbn [fst snd] in *;
      intros [= <-]; cbn [subterms length]; rewrite ?length_app;
      try (pose proof (Ha _ eq_refl)); try (pose proof (Hb _ eq_refl)); lia.
  - done.
Qed.

(** [unpruned] tells when the extraction has the structure of the whole
    expression. *)
Lemma unpruned_spec (e : ExprNode) (n : NodePtr) :
  forget <$> (getSubExpression vars e n).1 = Some (forget e) <-> unpruned vars e = true.
Proof.
  revert n. induction e as [p t ivs|p k a IH|p k a IHa b IHb|p v]; intros n.
  - cbn [getSubExpression unpruned]. unfold ret. cbn [fst].
    by destruct (accessKept vars ivs).
  - rewrite getSubExpression_unary. cbv zeta. cbn [fst unpruned].
    rewrite getSubExpression_defined. by destruct (mentions vars a).
  - pose proof (fun r => getSubExpression_size a r n) as Hsa.
    pose proof (fun r => getSubExpression_size b r (getSubExpression vars a n).2) as Hsb.
    rewrite getSubExpression_binary. cbv zeta. cbn [unpruned].
    rewrite andb_true_iff, <- (IHa n), <- (IHb (getSubExpression vars a n).2).
    destruct (getSubExpression vars a n) as [[a'|] n1]; cbn [fst snd] in *;
      destruct (getSubExpression vars b n1) as [[b'|] n2]; cbn [fst snd] in *.
    + cbn. split.
      * intros [= Ha Hb]. by rewrite Ha, Hb.
      * intros [[= Ha] [= Hb]]. by rewrite Ha, Hb.
    + cbn. split; [|by intros [_ ?]]. intros [= Ha]. exfalso.
      pose proof (Hsa a' eq_refl) as Hle.
      rewrite <- (subterms_forget_length a'), Ha in Hle.
      cbn [subterms length] in Hle.
      rewrite length_app, !subterms_forget_length in Hle. lia.
    + cbn. split; [|by intros [? _]]. intros [= Hb]. exfalso.
      pose proof (Hsb b' eq_refl) as Hle.
      rewrite <- (subterms_forget_length b'), Hb in Hle.
      cbn [subterms length] in Hle.
      rewrite length_app, !subterms_forget_length in Hle. lia.
    + cbn. split; [done|by intros [? _]].
  - done.
Qed.

Lemma getSubExpressionOld_binary (p : NodePtr) (k : BinaryKind) (a b : ExprNode) :
  SubExprVisitorOld.getSubExpression vars (BinaryExprNode p k a b) =
  match mentions vars a, mentions vars b with
  | true, true => Some (BinaryExprNode p k a b)
  | true, false => SubExprVisitorOld.getSubExpression vars a
  | false, true => SubExprVisitorOld.getSubExpression vars b
  | false, false => None
  end.
Proof.
  cbn [SubExprVisitorOld.getSubExpression].
  rewrite <- (getSubExpressionOld_defined vars a), <- (getSubExpressionOld_defined vars b).
  by destruct (SubExprVisitorOld.getSubExpression vars a),
    (SubExprVisitorOld.getSubExpression vars b).
Qed.

Lemma getSubExpression_binary_cases (p : NodePtr) (k : BinaryKind) (a b : ExprNode)
    (n : NodePtr) :
  let ra := getSubExpression vars a n in
  let rb := getSubExpression vars b ra.2 in
  (getSubExpression vars (BinaryExprNode p k a b) n).1 =
  match mentions vars a, mentions vars b with
  | true, true =>
      match ra.1, rb.1 with
      | Some a', Some b' => Some (BinaryExprNode rb.2 k a' b')
      | _, _ => None
      end
  | true, false => ra.1
  | false, true => rb.1
  | false, false => None
  end.
Proof.
  cbv zeta. rewrite getSubExpression_binary. cbv zeta.
  rewrite <- (getSubExpression_defined vars a n).
  rewrite <- (getSubExpression_defined vars b (getSubExpression vars a n).2).
  destruct (getSubExpression vars a n) as [[a'|] n1]; cbn [fst snd];
    by destruct (getSubExpression vars b n1) as [[b'|] n2].
Qed.

(** [sameStructure] tells when the two routines agree on structure. *)
Lemma sameStructure_spec (e : ExprNode) (n : NodePtr) :
  forget <$> SubExprVisitorOld.getSubExpression vars e
  = forget <$> (getSubExpression vars e n).1
  <-> sameStructure vars e = true.
Proof.
  revert n. induction e as [p t ivs|p k a IH|p k a IHa b IHb|p v]; intros n.
  - cbn. by destruct (accessKept vars ivs).
  - rewrite getSubExpression_unary. cbv zeta.
    cbn [fst SubExprVisitorOld.getSubExpression sameStructure].
    rewrite getSubExpression_defined, getSubExpressionOld_defined.
    by destruct (mentions vars a).
  - pose proof (getSubExpression_binary_cases p k a b n) as Hnew. cbv zeta in Hnew.
    rewrite Hnew, getSubExpressionOld_binary. cbn [sameStructure].
    pose proof (getSubExpression_defined vars a n) as Hda.
    pose proof (getSubExpression_defined vars b (getSubExpression vars a n).2) as Hdb.
    destruct (mentions vars a), (mentions vars b); [|apply IHa|apply IHb|done].
    rewrite andb_true_iff, <- (unpruned_spec a n),
      <- (unpruned_spec b (getSubExpression vars a n).2).
    destruct (getSubExpression vars a n) as [[a'|] n1]; cbn [fst snd defined] in *;
      [|done].
    destruct (getSubExpression vars b n1) as [[b'|] n2]; cbn [fst snd defined] in *;
      [|done].
    cbn. split.
    + intros [= Ha Hb]. by rewrite Ha, Hb.
    + intros [[= Ha] [= Hb]]. by rewrite Ha, Hb.
  - done.
Qed.

(** Without a binary node that keeps both operands the two routines return
    the same node. *)
Lemma noBothKept_same (e : ExprNode) (n : NodePtr) :
  noBothKept vars e = true ->
  (getSubExpression vars e n).1 = SubExprVisitorOld.getSubExpression vars e.
Proof.
  revert n. induction e as [p t ivs|p k a IH|p k a IHa b IHb|p v]; intros n.
  - done.
  - intros _. rewrite getSubExpression_unary. cbv zeta.
    cbn [fst SubExprVisitorOld.getSubExpression].
    by rewrite getSubExpression_defined, getSubExpressionOld_defined.
  - pose proof (getSubExpression_binary_cases p k a b n) as Hnew. cbv zeta in Hnew.
    rewrite Hnew, getSubExpressionOld_binary. cbn [noBothKept].
    destruct (mentions vars a), (mentions vars b); [done|apply IHa|apply IHb|done].
  - done.
Qed.

(** With a fresh allocator, only then. *)
Lemma same_noBothKept (e : ExprNode) (n : NodePtr) :
  allocatedBefore n e = true ->
  (getSubExpression vars e n).1 = SubExprVisitorOld.getSubExpression vars e ->
  noBothKept vars e = true.
Proof.
  revert n. induction e as [p t ivs|p k a IH|p k a IHa b IHb|p v]; intros n Hal;
    try done.
  assert (Ha : a ∈ subterms (BinaryExprNode p k a b)).
  { cbn [subterms]. apply elem_of_cons. right. apply elem_of_app. left.
    apply subterms_self. }
  assert (Hb : b ∈ subterms (BinaryExprNode p k a b)).
  { cbn [subterms]. apply elem_of_cons. right. apply elem_of_app. right.
    apply subterms_self. }
  pose proof (getSubExpression_mono vars a n) as Hma.
  pose proof (getSubExpression_mono vars b (getSubExpression vars a n).2) as Hmb.
  pose proof (allocatedBefore_spec n _ _ Hal (subterms_self _)) as Hp. cbn in Hp.
  pose proof (getSubExpression_binary_cases p k a b n) as Hnew. cbv zeta in Hnew.
  rewrite Hnew, getSubExpressionOld_binary. cbn [noBothKept].
  destruct (mentions vars a), (mentions vars b); [| | |done].
  - destruct (getSubExpression vars a n) as [[a'|] n1]; cbn [fst snd] in *; [|done].
    destruct (getSubExpression vars b n1) as [[b'|] n2]; cbn [fst snd] in *; [|done].
    intros [= Hq _ _]. lia.
  - apply IHa. by apply (allocatedBefore_sub n n _ _ Ha); [lia|].
  - apply IHb. by apply (allocatedBefore_sub n _ _ _ Hb).
Qed.

Lemma noBothKept_sameStructure (e : ExprNode) :
  noBothKept vars e = true -> sameStructure vars e = true.
Proof.
  induction e as [p t ivs|p k a IH|p k a IHa b IHb|p v]; cbn [noBothKept sameStructure];
    try done.
  by destruct (mentions vars a), (mentions vars b).
Qed.

End OldAndNewFacts.

(** C2, counterexample: on [(a(i) + b(j)) * c(i)] with [{i}] both operand
    extractions are defined; [getSubExprOld] returns the original product,
    [getSubExpr] a new product [a(i) * c(i)], and [equals] tells them
    apart. *)
Lemma C2_old_and_new_differ :
  getSubExprOld sum_times_c [var_i] = Some sum_times_c
  /\ (getSubExpr sum_times_c [var_i] 10%positive).1
     = Some (BinaryExprNode 10 Mul (AccessNode 1 tensor_a [var_i])
               (AccessNode 4 tensor_c [var_i]))
  /\ equals (getSubExprOld sum_times_c [var_i])
       (getSubExpr sum_times_c [var_i] 10%positive).1 = Some false.
Proof. repeat split. Qed.

(** C2, as amended: the two routines are defined on the same inputs, and
    [getSubExprOld] returns a node of the expression itself.  They return
    the same node whenever the extraction meets no binary node both of whose
    operands mention a variable of the list and, with a fresh allocator,
    only then.  They return results of the same structure exactly when the
    extraction meets no such node or [getSubExpr] prunes nothing from the
    two operands of the first such node it meets; at such a node the old
    routine returns the original node, whole, and the canonical one a new
    node over the two extractions.  [getSubExpr] prunes nothing from an
    expression exactly when its result has the structure of the
    expression. *)
Theorem C2_old_and_new (e : ExprNode) (vars : list IndexVar) (n : NodePtr) :
  let kept : gset IndexVar := list_to_set vars in
  defined (getSubExprOld e vars) = defined (getSubExpr e vars n).1
  /\ (forall x, getSubExprOld e vars = Some x ->
        x ∈ subterms e
        /\ forget <$> (getSubExpr e vars n).1 = forget <$> (getSubExpr x vars n).1)
  /\ (noBothKept kept e = true -> (getSubExpr e vars n).1 = getSubExprOld e vars)
  /\ (allocatedBefore n e = true ->
      (getSubExpr e vars n).1 = getSubExprOld e vars -> noBothKept kept e = true)
  /\ (forget <$> getSubExprOld e vars = forget <$> (getSubExpr e vars n).1
      <-> sameStructure kept e = true)
  /\ (noBothKept kept e = true -> sameStructure kept e = true)
  /\ (forall p k a b,
        e = BinaryExprNode p k a b ->
        mentions kept a = true -> mentions kept b = true ->
        let ra := getSubExpr a vars n in
        let rb := getSubExpr b vars ra.2 in
        getSubExprOld e vars = Some e
        /\ (exists a' b',
              ra.1 = Some a' /\ rb.1 = Some b'
              /\ (getSubExpr e vars n).1 = Some (BinaryExprNode rb.2 k a' b'))
        /\ (forget <$> getSubExprOld e vars = forget <$> (getSubExpr e vars n).1
            <-> unpruned kept a = true /\ unpruned kept b = true))
  /\ (forall x m,
        forget <$> (getSubExpr x vars m).1 = Some (forget x) <-> unpruned kept x = true).
Proof.
  intros kept. subst kept. unfold getSubExprOld, getSubExpr.
  split; [by rewrite getSubExpressionOld_defined, getSubExpression_defined|].
  split.
  { intros x Hx. split; [by eapply getSubExpressionOld_subterm|].
    by apply getSubExpression_via_old. }
  split; [apply noBothKept_same|].
  split; [apply same_noBothKept|].
  split; [apply sameStructure_spec|].
  split; [apply noBothKept_sameStructure|].
  split; [|intros x m; apply unpruned_spec].
  intros p k a b -> Ma Mb. cbv zeta.
  pose proof (getSubExpression_binary_cases (list_to_set vars) p k a b n) as Hnew.
  cbv zeta in Hnew.
  pose proof (getSubExpression_defined (list_to_set vars) a n) as Hda.
  pose proof (getSubExpression_defined (list_to_set vars) b
                (SubExprVisitor.getSubExpression (list_to_set vars) a n).2) as Hdb.
  rewrite sameStructure_spec. cbn [sameStructure].
  rewrite getSubExpressionOld_binary, Hnew, Ma, Mb in *.
  split; [done|]. split; [|by rewrite andb_true_iff].
  destruct (SubExprVisitor.getSubExpression (list_to_set vars) a n) as [[a'|] n1];
    cbn [fst snd defined] in *; [|done].
  destruct (SubExprVisitor.getSubExpression (list_to_set vars) b n1) as [[b'|] n2];
    cbn [fst snd defined] in *; [|done].
  by exists a', b'.
Qed.

Lemma C2_old_and_new_witness :
  let a_i := AccessNode 1 tensor_a [var_i] in
  let e := BinaryExprNode 3 Add a_i (AccessNode 2 tensor_b [var_j]) in
  getSubExprOld e [var_i] = Some a_i
  /\ a_i ∈ subterms e
  /\ (getSubExpr e [var_i] 10%positive).1 = getSubExprOld e [var_i]
  /\ forget <$> getSubExprOld sum_times_c [var_i]
     <> forget <$> (getSubExpr sum_times_c [var_i] 10%positive).1.
Proof.
  intros a_i e. split; [reflexivity|].
  pose proof (C2_old_and_new e [var_i] 10) as (_ & Hnode & Hsame & _).
  pose proof (C2_old_and_new sum_times_c [var_i] 10) as (_ & _ & _ & _ & Hstr & _).
  split; [exact (proj1 (Hnode a_i eq_refl))|].
  split; [exact (Hsame eq_refl)|].
  intros Heq. apply Hstr in Heq. discriminate Heq.
Defined.


(** * Available expressions: proofs *)

Section AvailableFacts.

Import ExtractAvailableExpressions.

Variable visitedVars : gset IndexVar.

Lemma accessAvailable_forallb (ivs : list IndexVar) :
  accessAvailable visitedVars ivs = forallb (fun v => bool_decide (v ∈ visitedVars)) ivs.
Proof.
  induction ivs as [|v ivs IH]; simpl; [done|]. rewrite IH. by destruct (bool_decide _).
Qed.

Lemma isAvailable_unary (p : NodePtr) (k : UnaryKind) (a : ExprNode) :
  isAvailable visitedVars (UnaryExprNode p k a) = isAvailable visitedVars a.
Proof. reflexivity. Qed.

Lemma isAvailable_binary (p : NodePtr) (k : BinaryKind) (a b : ExprNode) :
  isAvailable visitedVars (BinaryExprNode p k a b) =
  isAvailable visitedVars a && isAvailable visitedVars b.
Proof. unfold isAvailable. cbn [leaves]. apply forallb_app. Qed.

(** What a visit does to the visitor: it appends the operands handed over
    below the expression, and pushes the expression with its availability;
    no assertion fails. *)
Lemma visit_spec (e : ExprNode) (st : State) :
  visit visitedVars e st =
  Some {| availableExpressions := availableExpressions st ++ handedOver visitedVars e;
          activeExpressions := (e, isAvailable visitedVars e) :: activeExpressions st |}.
Proof.
  revert st. induction e as [p t ivs|p k a IH|p k a IHa b IHb|p v]; intros st.
  - cbn [visit handedOver]. unfold push, isAvailable. cbn [leaves forallb availableLeaf].
    by rewrite accessAvailable_forallb, app_nil_r, andb_true_r.
  - cbn [visit handedOver]. rewrite IH. done.
  - cbn [visit handedOver]. rewrite IHa, IHb. cbn [activeExpressions availableExpressions].
    rewrite isAvailable_binary. cbn [fst snd].
    destruct (isAvailable visitedVars a), (isAvailable visitedVars b);
      cbn [andb]; unfold push, push_back;
      cbn [availableExpressions activeExpressions];
      by rewrite <- ?app_assoc, ?app_nil_r.
  - cbn [visit handedOver]. unfold push. by rewrite app_nil_r.
Qed.

Lemma handedOver_available (e : ExprNode) :
  isAvailable visitedVars e = true -> handedOver visitedVars e = [].
Proof.
  induction e as [p t ivs|p k a IH|p k a IHa b IHb|p v]; cbn [handedOver]; try done.
  rewrite isAvailable_binary. intros [Ha Hb]%andb_true_iff.
  by rewrite IHa, IHb, Ha, Hb.
Qed.

Lemma filter_available (e : ExprNode) :
  isAvailable visitedVars e = true ->
  filter (fun x => availableLeaf visitedVars x = true) (leaves e) = leaves e.
Proof.
  unfold isAvailable. intros H. induction (leaves e) as [|x l IH]; [done|].
  simpl in H. apply andb_true_iff in H as [Hx Hl].
  rewrite filter_cons_True by done. by rewrite IH.
Qed.

Lemma cover_leaves (e : ExprNode) :
  concat (leaves <$> cover visitedVars e) ≡ₚ
  filter (fun x => availableLeaf visitedVars x = true) (leaves e).
Proof.
  unfold cover.
  induction e as [p t ivs|p k a IH|p k a IHa b IHb|p v].
  - cbn [handedOver app]. destruct (isAvailable _ _) eqn:E.
    + by rewrite (filter_available _ E).
    + unfold isAvailable in E. cbn [leaves forallb] in E. rewrite andb_true_r in E.
      cbn [leaves]. by rewrite filter_cons_False, filter_nil by (by rewrite E).
  - cbn [handedOver leaves]. rewrite isAvailable_unary.
    destruct (isAvailable visitedVars a); rewrite <- IH;
      by rewrite !fmap_app, !concat_app.
  - cbn [handedOver leaves]. rewrite isAvailable_binary, filter_app, <- IHa, <- IHb.
    destruct (isAvailable visitedVars a) eqn:Ea, (isAvailable visitedVars b) eqn:Eb;
      cbn [andb]; rewrite ?(handedOver_available _ Ea), ?(handedOver_available _ Eb);
      rewrite ?fmap_app, ?concat_app; simpl; rewrite ?app_nil_r; try done.
    apply Permutation_app_comm.
  - cbn [handedOver app]. by destruct (isAvailable _ _) eqn:E.
Qed.

Lemma handedOver_sound (e x : ExprNode) :
  x ∈ handedOver visitedVars e ->
  x ∈ subterms e /\ x <> e /\ isAvailable visitedVars x = true.
Proof.
  assert (Hsize : forall y z, y ∈ subterms z -> length (subterms y) <= length (subterms z)).
  { intros y z. induction z as [p t ivs|p k a IH|p k a IHa b IHb|p v]; cbn [subterms];
      intros Hy; apply elem_of_cons in Hy as [->|Hy]; try done; cbn [length].
    - by apply elem_of_nil in Hy.
    - specialize (IH Hy). lia.
    - rewrite length_app. apply elem_of_app in Hy as [Hy|Hy];
        [specialize (IHa Hy)|specialize (IHb Hy)]; lia.
    - by apply elem_of_nil in Hy. }
  assert (Hne : forall y z, y ∈ subterms z -> length (subterms y) < length (subterms z)
                  -> y <> z) by (intros y z _ Hlt ->; lia).
  induction e as [p t ivs|p k a IH|p k a IHa b IHb|p v]; cbn [handedOver].
  - intros H. by apply elem_of_nil in H.
  - intros H. destruct (IH H) as (Hs & _ & Hav).
    assert (Hin : x ∈ subterms (UnaryExprNode p k a)).
    { cbn [subterms]. apply elem_of_cons. by right. }
    split; [done|]. split; [|done].
    apply Hne; [done|]. pose proof (Hsize _ _ Hs). cbn [subterms length]. lia.
  - intros H.
    assert (Hcase : (x ∈ subterms a \/ x ∈ subterms b) /\ isAvailable visitedVars x = true).
    { apply elem_of_app in H as [H|H]; [destruct (IHa H) as (?&?&?); auto|].
      apply elem_of_app in H as [H|H]; [destruct (IHb H) as (?&?&?); auto|].
      destruct (isAvailable visitedVars a) eqn:Ea, (isAvailable visitedVars b) eqn:Eb;
        try (by apply elem_of_nil in H);
        apply list_elem_of_singleton in H as ->; split; auto using subterms_self. }
    destruct Hcase as [Hs Hav].
    assert (Hin : x ∈ subterms (BinaryExprNode p k a b)).
    { cbn [subterms]. apply elem_of_cons. right. by apply elem_of_app. }
    split; [done|]. split; [|done].
    apply Hne; [done|]. cbn [subterms length]. rewrite length_app.
    destruct Hs as [Hs|Hs]; pose proof (Hsize _ _ Hs); lia.
  - intros H. by apply elem_of_nil in H.
Qed.

End AvailableFacts.

(** C4: [getAvailableExpressions] fails no assertion and returns a list of
    available sub-expressions of [e] whose leaves, taken together, are the
    available leaves of [e], each as many times as it occurs in [e] (so
    without repetition when the leaves of [e] are distinct nodes); a leaf is
    available iff it is an immediate or an Access whose index variables are
    all visited.  Visiting a binary node with exactly one available operand
    appends that operand to the list and pushes the node as unavailable.  For
    [a(i) * b(i) + c(j)] the result is [a(i) * b(i)] alone when [i] is
    visited, and the whole expression alone when [i] and [j] are. *)
Theorem C4_getAvailableExpressions (e : ExprNode) (vars : list IndexVar) :
  (exists l,
     getAvailableExpressions e vars = Some l
     /\ concat (leaves <$> l)
        ≡ₚ filter (fun x => availableLeaf (list_to_set vars) x = true) (leaves e)
     /\ (NoDup (leaves e) -> NoDup (concat (leaves <$> l)))
     /\ Forall (fun x => x ∈ subterms e /\ isAvailable (list_to_set vars) x = true) l)
  /\ (forall p t ivs,
        availableLeaf (list_to_set vars) (AccessNode p t ivs) = true
        <-> Forall (fun v => v ∈ vars) ivs)
  /\ (forall p v, availableLeaf (list_to_set vars) (ImmExprNode p v) = true)
  /\ (forall p k a b st,
        isAvailable (list_to_set vars) a = negb (isAvailable (list_to_set vars) b) ->
        ExtractAvailableExpressions.visit (list_to_set vars) (BinaryExprNode p k a b) st =
        Some {| ExtractAvailableExpressions.availableExpressions :=
                  ExtractAvailableExpressions.availableExpressions st
                  ++ handedOver (list_to_set vars) a
                  ++ handedOver (list_to_set vars) b
                  ++ [if isAvailable (list_to_set vars) a then a else b];
                ExtractAvailableExpressions.activeExpressions :=
                  (BinaryExprNode p k a b, false)
                  :: ExtractAvailableExpressions.activeExpressions st |})
  /\ getAvailableExpressions product_plus_c [var_i] = Some [product_ab]
  /\ getAvailableExpressions product_plus_c [var_i; var_j] = Some [product_plus_c].
Proof.
  split.
  { exists (cover (list_to_set vars) e).
    assert (Hperm := cover_leaves (list_to_set vars) e).
    split.
    - unfold getAvailableExpressions, ExtractAvailableExpressions.get.
      rewrite visit_spec. cbn [ExtractAvailableExpressions.activeExpressions snd fst].
      unfold cover, ExtractAvailableExpressions.push_back.
      destruct (isAvailable (list_to_set vars) e); simpl; by rewrite ?app_nil_r.
    - split; [done|]. split.
      + intros Hnd. rewrite Hperm. by apply NoDup_filter.
      + unfold cover. apply Forall_app. split.
        * apply Forall_forall. intros x Hx.
          by destruct (handedOver_sound _ _ _ Hx) as (?&?&?).
        * destruct (isAvailable (list_to_set vars) e) eqn:E; [|constructor].
          apply Forall_singleton. split; [apply subterms_self|done]. }
  split.
  { intros p t ivs. cbn [availableLeaf]. rewrite forallb_forall, Forall_forall.
    split; intros H v Hv.
    - apply list_elem_of_In, H, bool_decide_eq_true in Hv. by apply elem_of_list_to_set in Hv.
    - apply bool_decide_eq_true, elem_of_list_to_set, H. by apply list_elem_of_In. }
  split; [done|].
  split.
  { intros p k a b st Hone. rewrite visit_spec. cbn [handedOver].
    rewrite isAvailable_binary, Hone.
    by destruct (isAvailable (list_to_set vars) b). }
  split; reflexivity.
Qed.

Lemma C4_getAvailableExpressions_witness :
  let c_j := AccessNode 4 tensor_c [var_j] in
  let empty := {| ExtractAvailableExpressions.availableExpressions := [];
                  ExtractAvailableExpressions.activeExpressions := [] |} in
  isAvailable (list_to_set [var_i]) product_ab
    = negb (isAvailable (list_to_set [var_i]) c_j)
  /\ ExtractAvailableExpressions.visit (list_to_set [var_i])
       (BinaryExprNode 5 Add product_ab c_j) empty
     = Some {| ExtractAvailableExpressions.availableExpressions := [product_ab];
               ExtractAvailableExpressions.activeExpressions :=
                 [(BinaryExprNode 5 Add product_ab c_j, false)] |}.
Proof.
  intros c_j empty. split; [reflexivity|].
  pose proof (C4_getAvailableExpressions product_plus_c [var_i])
    as (_ & _ & _ & Hone & _).
  exact (Hone 5%positive Add product_ab c_j empty eq_refl).
Defined.


(** * Scalar lowering: proofs *)

Section LoweringFacts.

Context {TensorPath TensorPathStep : Type}.
Variable getLastStep : TensorPath -> TensorPathStep.
Variable leftFirst : ExprNode -> bool.
Variable h : Heap.
Variable iterators : Iterators TensorPath TensorPathStep.
Variable iterationGraph : IterationGraph TensorPath.
Variable temporaries : gmap TensorVar ir.Expr.

#[local] Abbreviation L := (lower getLastStep leftFirst h iterators iterationGraph temporaries).

Lemma lower_unary (p : NodePtr) (k : UnaryKind) (a : ExprNode) :
  L (UnaryExprNode p k a)
  = (match k with Neg => ir.Neg | Sqrt => ir.Sqrt end (L a).1, (L a).2).
Proof. cbn [lower]. destruct (L a) as [ea la]. by destruct k. Qed.

Lemma lower_binary (p : NodePtr) (k : BinaryKind) (a b : ExprNode) :
  L (BinaryExprNode p k a b)
  = (match k with
     | Add => ir.Add | Sub => ir.Sub | Mul => ir.Mul | Div => ir.Div
     end (L a).1 (L b).1,
     if leftFirst (BinaryExprNode p k a b) then (L a).2 ++ (L b).2
     else (L b).2 ++ (L a).2).
Proof. cbn [lower]. destruct (L a) as [ea la], (L b) as [eb lb]. by destruct k. Qed.

Lemma leaves_are_leaves (x leaf : ExprNode) :
  leaf ∈ leaves x ->
  match leaf with
  | UnaryExprNode _ _ _ | BinaryExprNode _ _ _ _ => False
  | _ => True
  end.
Proof.
  induction x as [q t ivs|q k x IH|q k x IHx y IHy|q v]; cbn [leaves].
  - intros ->%list_elem_of_singleton. exact I.
  - exact IH.
  - intros [Hx|Hy]%elem_of_app; [exact (IHx Hx)|exact (IHy Hy)].
  - intros ->%list_elem_of_singleton. exact I.
Qed.

Lemma lower_leaf (leaf : ExprNode) :
  leaf ∈ leaves leaf ->
  L leaf = (lowerSpec getLastStep h iterators iterationGraph temporaries leaf,
            lookupsSpec getLastStep h iterationGraph temporaries leaf).
Proof.
  intros Hleaf%leaves_are_leaves.
  destruct leaf as [p t ivs|p k a|p k a b|p v]; try done.
  cbn [lower lowerSpec lookupsSpec]. unfold lowerAccess, accessSpec, getOrder.
  destruct (temporaries !! t); [done|].
  by destruct (length (getShape (type (h t))) =? 0)%nat.
Qed.

(** The value: the lowering computes the expression of the specification. *)
Lemma lower_value (e : ExprNode) :
  (L e).1 = lowerSpec getLastStep h iterators iterationGraph temporaries e.
Proof.
  induction e as [p t ivs|p k a IH|p k a IHa b IHb|p v].
  - cbn [lower lowerSpec]. unfold lowerAccess, accessSpec, getOrder.
    destruct (temporaries !! t); [done|].
    by destruct (length (getShape (type (h t))) =? 0)%nat.
  - rewrite lower_unary. cbn [fst lowerSpec]. rewrite IH. by destruct k.
  - rewrite lower_binary. cbn [fst lowerSpec]. rewrite IHa, IHb. by destruct k.
  - done.
Qed.

Lemma lower_access_lookups (p : NodePtr) (t : TensorVar) (ivs : list IndexVar) :
  (L (AccessNode p t ivs)).2
  = lookupsSpec getLastStep h iterationGraph temporaries (AccessNode p t ivs).
Proof.
  cbn [lower lookupsSpec]. unfold lowerAccess, getOrder.
  destruct (temporaries !! t); [done|].
  by destruct (length (getShape (type (h t))) =? 0)%nat.
Qed.

(** The look-ups: those of the leaves, in the order the operands are
    lowered in. *)
Lemma lower_lookups_perm (e : ExprNode) :
  (L e).2 ≡ₚ leaves e ≫= lookupsSpec getLastStep h iterationGraph temporaries.
Proof.
  induction e as [p t ivs|p k a IH|p k a IHa b IHb|p v].
  - rewrite lower_access_lookups. cbn [leaves]. by rewrite bind_cons, app_nil_r.
  - rewrite lower_unary. cbn [snd leaves]. done.
  - rewrite lower_binary. cbn [snd leaves]. rewrite bind_app, <- IHa, <- IHb.
    destruct (leftFirst _); [done|apply Permutation_app_comm].
  - done.
Qed.

Lemma lower_lookups_left (e : ExprNode) :
  (forall x, leftFirst x = true) ->
  (L e).2 = leaves e ≫= lookupsSpec getLastStep h iterationGraph temporaries.
Proof.
  intros Hleft. induction e as [p t ivs|p k a IH|p k a IHa b IHb|p v].
  - rewrite lower_access_lookups. cbn [leaves]. by rewrite bind_cons, app_nil_r.
  - rewrite lower_unary. cbn [snd leaves]. done.
  - rewrite lower_binary. cbn [snd leaves]. by rewrite Hleft, bind_app, IHa, IHb.
  - done.
Qed.

Lemma lower_lookups_right (e : ExprNode) :
  (forall x, leftFirst x = false) ->
  (L e).2
  = reverse (leaves e) ≫= lookupsSpec getLastStep h iterationGraph temporaries.
Proof.
  intros Hright. induction e as [p t ivs|p k a IH|p k a IHa b IHb|p v].
  - rewrite lower_access_lookups. cbn [leaves]. by rewrite reverse_singleton, bind_cons,
      app_nil_r.
  - rewrite lower_unary. cbn [snd leaves]. done.
  - rewrite lower_binary. cbn [snd leaves].
    by rewrite Hright, reverse_app, bind_app, IHa, IHb.
  - done.
Qed.

Lemma lookupsSpec_temporary (e : ExprNode) :
  Forall (fun op : TensorVar * list IndexVar => is_Some (temporaries !! op.1)) (accesses e) ->
  leaves e ≫= lookupsSpec getLastStep h iterationGraph temporaries = [].
Proof.
  induction e as [p t ivs|p k a IH|p k a IHa b IHb|p v]; cbn [accesses leaves].
  - intros [v Hv]%Forall_singleton. cbn [fst] in Hv.
    rewrite bind_cons. cbn [lookupsSpec]. by rewrite Hv.
  - done.
  - intros [Ha Hb]%Forall_app. by rewrite bind_app, IHa, IHb.
  - done.
Qed.

End LoweringFacts.

Lemma lowerSpec_temporaries_only {TensorPath TensorPathStep : Type}
    (getLastStep : TensorPath -> TensorPathStep) (h : Heap)
    (iterators iterators' : Iterators TensorPath TensorPathStep)
    (iterationGraph iterationGraph' : IterationGraph TensorPath)
    (temporaries : gmap TensorVar ir.Expr) (e : ExprNode) :
  Forall (fun op : TensorVar * list IndexVar => is_Some (temporaries !! op.1)) (accesses e) ->
  lowerSpec getLastStep h iterators' iterationGraph' temporaries e
  = lowerSpec getLastStep h iterators iterationGraph temporaries e.
Proof.
  induction e as [p t ivs|p k a IH|p k a IHa b IHb|p v]; cbn [accesses lowerSpec].
  - intros [v Hv]%Forall_singleton. cbn [fst] in Hv. unfold accessSpec. by rewrite Hv.
  - intros Ha. rewrite (IH Ha). done.
  - intros [Ha Hb]%Forall_app. by rewrite (IHa Ha), (IHb Hb).
  - done.
Qed.

(** C8: for every index expression the lowering computes the IR expression
    of the specification: an Access to a tensor variable of the temporaries
    map, wherever it sits in the expression, lowers to the value stored
    there, and an Access to any other tensor lowers to a load from the value
    buffer of the root iterator when the tensor has order zero, and of the
    iterator of the last step of its tensor path otherwise, at the position
    variable of that iterator; a unary or binary node lowers to the IR
    operation of its kind over its lowered operands and an immediate to its
    literal.  An Access to a temporary asks nothing of the iteration graph
    or of the iterator table; any other Access asks for its tensor path,
    then for the iterator.  What the lowering of an expression asks is what
    its leaves ask: in the order of the leaves when the compiled code lowers
    every left operand first, in the reverse order when it lowers every
    right operand first, and the same look-ups in every case; so an
    expression over temporaries only asks nothing and lowers the same
    whatever the graph, the table and the order. *)
Theorem C8_lowerToScalarExpression {TensorPath TensorPathStep : Type}
    (getLastStep : TensorPath -> TensorPathStep) (leftFirst : ExprNode -> bool)
    (h : Heap)
    (iterators : Iterators TensorPath TensorPathStep)
    (iterationGraph : IterationGraph TensorPath)
    (temporaries : gmap TensorVar ir.Expr) :
  let lowered :=
    lowerToScalarExpression getLastStep leftFirst h iterators iterationGraph temporaries in
  let asks := lookupsSpec getLastStep h iterationGraph temporaries in
  (forall p t ivs v,
     temporaries !! t = Some v -> lowered (AccessNode p t ivs) = (v, []))
  /\ (forall p t ivs,
        temporaries !! t = None ->
        let op := AccessNode p t ivs in
        let path := getTensorPath iterationGraph op in
        let iterator :=
          if (getOrder h t =? 0)%nat then getRoot iterators path
          else iterator_at iterators (getLastStep path) in
        lowered op =
        (ir.Load (ir.GetProperty (storage.getTensor iterator) ir.Values)
           (storage.getPtrVar iterator),
         [LookupTensorPath op;
          if (getOrder h t =? 0)%nat then LookupRoot path
          else LookupStep (getLastStep path)]))
  /\ (forall e,
        (lowered e).1 = lowerSpec getLastStep h iterators iterationGraph temporaries e)
  /\ (forall p k a,
        (lowered (UnaryExprNode p k a)).1
        = match k with Neg => ir.Neg | Sqrt => ir.Sqrt end (lowered a).1)
  /\ (forall p k a b,
        (lowered (BinaryExprNode p k a b)).1
        = match k with
          | Add => ir.Add | Sub => ir.Sub | Mul => ir.Mul | Div => ir.Div
          end (lowered a).1 (lowered b).1)
  /\ (forall p v, lowered (ImmExprNode p v) = (ir.Literal v, []))
  /\ (forall e, (lowered e).2 ≡ₚ leaves e ≫= asks)
  /\ (forall leaf, leaf ∈ leaves leaf -> (lowered leaf).2 = asks leaf)
  /\ ((forall x, leftFirst x = true) -> forall e, (lowered e).2 = leaves e ≫= asks)
  /\ ((forall x, leftFirst x = false) ->
      forall e, (lowered e).2 = reverse (leaves e) ≫= asks)
  /\ (forall e leftFirst' iterators' iterationGraph',
        Forall (fun op : TensorVar * list IndexVar => is_Some (temporaries !! op.1))
          (accesses e) ->
        (lowered e).2 = []
        /\ lowerToScalarExpression getLastStep leftFirst' h iterators' iterationGraph'
             temporaries e
           = lowered e).
Proof.
  intros lowered asks. subst lowered asks. unfold lowerToScalarExpression.
  split.
  { intros p t ivs v Hv. cbn [lower]. unfold lowerAccess. by rewrite Hv. }
  split.
  { intros p t ivs Hnone. cbn [lower]. unfold lowerAccess, getOrder. rewrite Hnone.
    by destruct (length (getShape (type (h t))) =? 0)%nat. }
  split; [apply lower_value|].
  split; [intros p k a; by rewrite lower_unary|].
  split; [intros p k a b; by rewrite lower_binary|].
  split; [done|].
  split; [apply lower_lookups_perm|].
  split; [intros leaf Hleaf; by rewrite lower_leaf|].
  split; [intros Hleft e; by apply lower_lookups_left|].
  split; [intros Hright e; by apply lower_lookups_right|].
  intros e leftFirst' iterators' iterationGraph' Htemp.
  assert (Hnone : forall lf its g,
            (lower getLastStep lf h its g temporaries e).2 = []).
  { intros lf its g. apply Permutation_nil_r. rewrite lower_lookups_perm.
    by rewrite lookupsSpec_temporary. }
  split; [apply Hnone|].
  apply injective_projections; [|by rewrite !Hnone].
  rewrite !lower_value. by apply lowerSpec_temporaries_only.
Qed.

Lemma C8_lowerToScalarExpression_witness :
  let temporaries : gmap TensorVar ir.Expr := {[ tensor_a := ir.Var 9 ]} in
  let lowered :=
    lowerToScalarExpression (fun path : nat => path) (fun _ => true) vectors two_iterators
      numbered_graph temporaries in
  temporaries !! tensor_a = Some (ir.Var 9)
  /\ lowered (AccessNode 1 tensor_a [var_i]) = (ir.Var 9, [])
  /\ temporaries !! tensor_b = None
  /\ lowered (AccessNode 2 tensor_b [var_i])
     = (ir.Load (ir.GetProperty (ir.Var 6) ir.Values) (ir.Var 4),
        [LookupTensorPath (AccessNode 2 tensor_b [var_i]); LookupStep 2])
  /\ (lowered sum_ab_1).1
     = ir.Add (ir.Var 9) (ir.Load (ir.GetProperty (ir.Var 6) ir.Values) (ir.Var 4)).
Proof.
  intros temporaries lowered.
  pose proof (C8_lowerToScalarExpression (fun path : nat => path) (fun _ => true) vectors
                two_iterators numbered_graph temporaries) as (Htemp & Hload & Hval & _).
  split; [reflexivity|].
  split; [exact (Htemp 1%positive tensor_a [var_i] (ir.Var 9) eq_refl)|].
  split; [reflexivity|].
  split; [exact (Hload 2%positive tensor_b [var_i] eq_refl)|].
  exact (Hval sum_ab_1).
Defined.

(** * Building expressions: proofs *)

Section BuildFacts.

Lemma consistent_spec (pool : list ExprNode) :
  consistent pool = true <->
  forall x y, x ∈ pool ≫= subterms -> y ∈ pool ≫= subterms ->
    node_ptr x = node_ptr y -> x = y.
Proof.
  unfold consistent. rewrite forallb_forall. split.
  - intros H x y Hx Hy. apply list_elem_of_In in Hx, Hy.
    specialize (H x Hx). rewrite forallb_forall in H.
    specialize (H y Hy). by apply bool_decide_eq_true in H.
  - intros H x Hx. apply forallb_forall. intros y Hy.
    apply bool_decide_eq_true. apply H; by apply list_elem_of_In.
Qed.

Lemma wellLabelled_iff (e : ExprNode) :
  wellLabelled e = true <->
  forall x y, x ∈ subterms e -> y ∈ subterms e -> node_ptr x = node_ptr y -> x = y.
Proof.
  split; [intros H x y; by apply wellLabelled_spec|].
  intros H. unfold wellLabelled. apply forallb_forall. intros x Hx.
  apply forallb_forall. intros y Hy. apply bool_decide_eq_true.
  apply H; by apply list_elem_of_In.
Qed.

Lemma consistent_wellLabelled (pool : list ExprNode) (e : ExprNode) :
  consistent pool = true -> e ∈ pool -> wellLabelled e = true.
Proof.
  rewrite consistent_spec, wellLabelled_iff. intros H He x y Hx Hy.
  apply H; apply list_elem_of_bind; eauto.
Qed.

Lemma node_ptrs_subterms (e : ExprNode) : node_ptrs e = node_ptr <$> subterms e.
Proof.
  induction e as [p t ivs|p k a IH|p k a IHa b IHb|p v]; cbn [node_ptrs subterms].
  - done.
  - rewrite fmap_cons. by rewrite IH.
  - rewrite fmap_cons, fmap_app. by rewrite IHa, IHb.
  - done.
Qed.

Lemma allocatedBefore_iff (n : NodePtr) (e : ExprNode) :
  allocatedBefore n e = true <-> forall x, x ∈ subterms e -> (node_ptr x < n)%positive.
Proof.
  split; [intros H x; by apply allocatedBefore_spec|].
  intros H. unfold allocatedBefore. apply forallb_forall. intros p Hp.
  apply bool_decide_eq_true. apply list_elem_of_In in Hp.
  rewrite node_ptrs_subterms in Hp. apply list_elem_of_fmap in Hp as (x & -> & Hx).
  by apply H.
Qed.

(** A new node over members of a pool joins the pool. *)
Lemma new_node_joins (pool : list ExprNode) (n : NodePtr) (e : ExprNode)
    (operands : list ExprNode) :
  consistent pool = true ->
  forallb (allocatedBefore n) pool = true ->
  node_ptr e = n ->
  subterms e = e :: (operands ≫= subterms) ->
  operands ⊆ pool ->
  consistent (e :: pool) = true
  /\ forallb (allocatedBefore (Pos.succ n)) (e :: pool) = true.
Proof.
  intros Hc Hal Hptr Hsub Hops.
  assert (Hold : forall x, x ∈ pool ≫= subterms -> (node_ptr x < n)%positive).
  { intros x (e' & Hx & He')%list_elem_of_bind.
    rewrite forallb_forall in Hal. apply list_elem_of_In, Hal in He'.
    by apply (allocatedBefore_spec n e'). }
  assert (Hin : forall x, x ∈ subterms e -> x = e \/ x ∈ pool ≫= subterms).
  { intros x. rewrite Hsub. intros [->|Hx]%elem_of_cons; [by left|]. right.
    apply list_elem_of_bind in Hx as (o & Hx & Ho).
    apply list_elem_of_bind. exists o. split; [done|]. by apply Hops. }
  split.
  - apply consistent_spec. intros x y Hx Hy Heq.
    assert (Hmem : forall z, z ∈ (e :: pool) ≫= subterms ->
                     z = e \/ z ∈ pool ≫= subterms).
    { intros z. rewrite bind_cons. intros [Hz|Hz]%elem_of_app; [by apply Hin|by right]. }
    destruct (Hmem x Hx) as [->|Hx'], (Hmem y Hy) as [->|Hy'].
    + done.
    + apply Hold in Hy'. lia.
    + apply Hold in Hx'. lia.
    + by apply (proj1 (consistent_spec pool) Hc).
  - cbn [forallb]. apply andb_true_iff. split.
    + apply allocatedBefore_iff. intros x Hx.
      apply Hin in Hx as [->|Hx]; [lia|]. apply Hold in Hx. lia.
    + apply forallb_forall. intros e' He'. apply allocatedBefore_iff. intros x Hx.
      assert (node_ptr x < n)%positive; [|lia].
      apply Hold. apply list_elem_of_bind. exists e'. split; [done|].
      by apply list_elem_of_In.
Qed.

End BuildFacts.

(** X1: an Access returned by [TensorVar::operator()] has as many index
    variables as the order of its tensor; a call with any other number of
    indices fails and allocates nothing.  Two successive calls with the same
    arguments return handles on two different nodes which [equals] reports
    equal. *)
Theorem X1_TensorVar_call (h : Heap) (t : TensorVar) (ivs : list IndexVar)
    (n n' n'' : NodePtr) (x y : Access) :
  TensorVar_call h t ivs n = (inr x, n') ->
  TensorVar_call h t ivs n' = (inr y, n'') ->
  length ivs = getOrder h t
  /\ wellFormed h (Access_expr x) = true
  /\ access_ptr x <> access_ptr y
  /\ equals (Some (Access_expr x)) (Some (Access_expr y)) = Some true
  /\ (forall ivs' m, length ivs' <> getOrder h t ->
        TensorVar_call h t ivs' m = (inl (wrong_order (getOrder h t) ivs'), m)).
Proof.
  unfold TensorVar_call. destruct (Nat.eqb_spec (length ivs) (getOrder h t)) as [Hlen|]; [|done].
  simpl. intros [= <- <-] [= <- <-]. split; [done|]. split.
  { simpl. by apply bool_decide_eq_true. }
  split; [simpl; lia|]. split.
  { unfold Access_expr. simpl access_ptr. simpl getTensorVar. simpl getIndexVars.
    apply (check_refl (AccessNode n t ivs)). done. }
  intros ivs' m Hne. by destruct (Nat.eqb_spec (length ivs') (getOrder h t)).
Qed.

Lemma X1_TensorVar_call_witness :
  TensorVar_call vectors tensor_a [var_i] 1%positive
  = (inr (AccessAt 1 tensor_a [var_i]), 2%positive)
  /\ TensorVar_call vectors tensor_a [var_i] 2%positive
     = (inr (AccessAt 2 tensor_a [var_i]), 3%positive)
  /\ equals (Some (Access_expr (AccessAt 1 tensor_a [var_i])))
       (Some (Access_expr (AccessAt 2 tensor_a [var_i]))) = Some true.
Proof.
  split; [reflexivity|]. split; [reflexivity|].
  pose proof (X1_TensorVar_call vectors tensor_a [var_i] 1 2 3
                (AccessAt 1 tensor_a [var_i]) (AccessAt 2 tensor_a [var_i])
                eq_refl eq_refl) as (_ & _ & _ & Heq & _).
  exact Heq.
Defined.

(** X2: the operators build one node over their operands and keep the
    invariants of the node store.  [operator+], [operator-], [operator*] and
    [operator/] on [lhs] and [rhs] return a new addition, subtraction,
    multiplication and division node whose operands are [lhs] and [rhs]
    themselves, in this order; the unary [operator-] on [lhs] returns a new
    negation node over [lhs] itself; a converting constructor returns a new
    immediate node that holds the value.  The new node sits at the
    allocator's next address, which moves by one.  In a pool of expressions
    whose addresses identify their nodes and were all allocated before that
    address, the new node, added to the pool, leaves the pool in that state
    at the allocator's new address; in particular its addresses identify its
    nodes. *)
Theorem X2_operators_keep_store_invariants (pool : list ExprNode) (n : NodePtr)
    (lhs rhs : ExprNode) (val : ImmValue) :
  consistent pool = true ->
  forallb (allocatedBefore n) pool = true ->
  lhs ∈ pool ->
  rhs ∈ pool ->
  Forall2 (fun (build : Alloc ExprNode) (node : NodePtr -> ExprNode) =>
             let r := build n in
             r.1 = node n
             /\ node_ptr r.1 = n
             /\ r.2 = Pos.succ n
             /\ consistent (r.1 :: pool) = true
             /\ forallb (allocatedBefore r.2) (r.1 :: pool) = true
             /\ wellLabelled r.1 = true)
    [operator_add lhs rhs; operator_sub lhs rhs; operator_mul lhs rhs;
     operator_div lhs rhs; operator_neg lhs; IndexExpr_imm val]
    [fun p => BinaryExprNode p Add lhs rhs; fun p => BinaryExprNode p Sub lhs rhs;
     fun p => BinaryExprNode p Mul lhs rhs; fun p => BinaryExprNode p Div lhs rhs;
     fun p => UnaryExprNode p Neg lhs; fun p => ImmExprNode p val].
Proof.
  intros Hc Hal Hl Hr.
  assert (Hjoin : forall e operands,
            node_ptr e = n -> subterms e = e :: (operands ≫= subterms) ->
            operands ⊆ pool ->
            e = e /\ node_ptr e = n /\ Pos.succ n = Pos.succ n
            /\ consistent (e :: pool) = true
            /\ forallb (allocatedBefore (Pos.succ n)) (e :: pool) = true
            /\ wellLabelled e = true).
  { intros e operands Hp Hs Ho.
    destruct (new_node_joins pool n e operands Hc Hal Hp Hs Ho) as [H1 H2].
    repeat split; try done.
    eapply consistent_wellLabelled; [exact H1|apply list_elem_of_here]. }
  assert (Hboth : [lhs; rhs] ⊆ pool).
  { intros o [->|[->|[]%elem_of_nil]%elem_of_cons]%elem_of_cons; done. }
  assert (Hone : [lhs] ⊆ pool).
  { intros o [->|[]%elem_of_nil]%elem_of_cons; done. }
  assert (Hnone : [] ⊆ pool) by (intros o []%elem_of_nil).
  repeat (apply Forall2_cons; split); [..|by apply Forall2_nil]; cbv zeta beta;
    unfold operator_add, operator_sub, operator_mul, operator_div, operator_neg,
      IndexExpr_imm; cbn [fst snd].
  - apply (Hjoin (BinaryExprNode n Add lhs rhs) [lhs; rhs]); try done.
    cbn [subterms]. by rewrite !bind_cons, app_nil_r.
  - apply (Hjoin (BinaryExprNode n Sub lhs rhs) [lhs; rhs]); try done.
    cbn [subterms]. by rewrite !bind_cons, app_nil_r.
  - apply (Hjoin (BinaryExprNode n Mul lhs rhs) [lhs; rhs]); try done.
    cbn [subterms]. by rewrite !bind_cons, app_nil_r.
  - apply (Hjoin (BinaryExprNode n Div lhs rhs) [lhs; rhs]); try done.
    cbn [subterms]. by rewrite !bind_cons, app_nil_r.
  - apply (Hjoin (UnaryExprNode n Neg lhs) [lhs]); try done.
    cbn [subterms]. by rewrite !bind_cons, app_nil_r.
  - apply (Hjoin (ImmExprNode n val) []); done.
Qed.

Lemma X2_operators_keep_store_invariants_witness :
  let a_i := AccessNode 1 tensor_a [var_i] in
  let b_i := AccessNode 2 tensor_b [var_i] in
  (operator_mul a_i b_i 3%positive).1 = BinaryExprNode 3 Mul a_i b_i
  /\ wellLabelled (operator_mul a_i b_i 3%positive).1 = true
  /\ forallb (allocatedBefore 4) [(operator_mul a_i b_i 3%positive).1; a_i; b_i] = true.
Proof.
  intros a_i b_i.
  pose proof (X2_operators_keep_store_invariants [a_i; b_i] 3 a_i b_i (IntImm 0)
                eq_refl eq_refl) as H.
  assert (Ha : a_i ∈ [a_i; b_i]) by apply list_elem_of_here.
  assert (Hb : b_i ∈ [a_i; b_i]) by (apply list_elem_of_further, list_elem_of_here).
  specialize (H Ha Hb).
  apply Forall2_cons_1 in H as [_ H]. apply Forall2_cons_1 in H as [_ H].
  apply Forall2_cons_1 in H as [(Hnode & _ & _ & _ & Hal & Hwl) _].
  split; [exact Hnode|]. split; [exact Hwl | exact Hal].
Defined.

(** * Structural equality: further proofs *)

Lemma floatFree_nanFree (e : ExprNode) : floatFree e = true -> nanFree e = true.
Proof.
  induction e as [p t ivs|p k a IH|p k a IHa b IHb|p v]; simpl; try done.
  - intros [Ha Hb]%andb_true_iff. by rewrite IHa, IHb.
  - by destruct v.
Qed.

Lemma check_true_forget (h : Heap) (a b : ExprNode) :
  wellFormed h a = true -> wellFormed h b = true -> floatFree a = true ->
  Equals.check a b = Some true -> forget a = forget b.
Proof.
  revert b. induction a as [p t ivs|p k a IH|p k a1 IH1 a2 IH2|p v];
    intros b; destruct b as [q t' ivs'|q k' b|q k' b1 b2|q v']; try done;
    simpl wellFormed; simpl floatFree; intros Ha Hb Hf.
  - apply bool_decide_eq_true in Ha, Hb.
    rewrite check_access. case_bool_decide as Ht; [done|]. subst t'.
    rewrite prefixLoop_same_length by congruence.
    intros [= Heq%bool_decide_eq_true]. by subst.
  - rewrite check_unary. case_bool_decide as Hk; [|done]. subst k'.
    destruct (Equals.check a b) as [[]|] eqn:E; try done. intros _.
    simpl. by rewrite (IH b Ha Hb Hf E).
  - apply andb_true_iff in Ha as [Ha1 Ha2]. apply andb_true_iff in Hb as [Hb1 Hb2].
    apply andb_true_iff in Hf as [Hf1 Hf2].
    rewrite check_binary. case_bool_decide as Hk; [|done]. subst k'.
    destruct (Equals.check a1 b1) as [[]|] eqn:E1; try done. intros E2.
    simpl. by rewrite (IH1 b1 Ha1 Hb1 Hf1 E1), (IH2 b2 Ha2 Hb2 Hf2 E2).
  - simpl. destruct v as [x| | |x], v' as [y| | |y]; simpl; try done.
    + destruct (Z.eqb_spec x y); [by subst|done].
    + destruct (N.eqb_spec x y); [by subst|done].
Qed.

(** X3: [equals] does not look at node identity: replacing either operand
    by an expression of the same structure at other addresses does not
    change its answer. *)
Theorem X3_equals_ignores_addresses (a a' b b' : ExprNode) :
  forget a = forget a' ->
  forget b = forget b' ->
  equals (Some a) (Some b) = equals (Some a') (Some b').
Proof.
  intros Ha Hb. simpl.
  rewrite <- (check_forget_l a), <- (check_forget_r _ b), Ha, Hb.
  by rewrite check_forget_l, check_forget_r.
Qed.

Lemma X3_equals_ignores_addresses_witness :
  equals (Some sum_ab_1) (Some neg_sum) = equals (Some sum_ab_2) (Some neg_sum).
Proof. apply X3_equals_ignores_addresses; reflexivity. Defined.

(** X4: on expressions without floating-point or complex literal whose
    accesses carry as many index variables as the order of their tensor,
    [equals] answers true exactly when the two expressions have the same
    structure: the same operators, the same tensor variables and index
    variables at the same places, and the same integer literals. *)
Theorem X4_equals_is_structural (h : Heap) (a b : ExprNode) :
  wellFormed h a = true ->
  wellFormed h b = true ->
  floatFree a = true ->
  equals (Some a) (Some b) = Some true <-> forget a = forget b.
Proof.
  intros Ha Hb Hf. split.
  - by apply (check_true_forget h).
  - intros Heq. apply check_same_shape; [done|]. by apply floatFree_nanFree.
Qed.

Lemma X4_equals_is_structural_witness :
  equals (Some sum_ab_1) (Some sum_ab_2) = Some true <-> forget sum_ab_1 = forget sum_ab_2.
Proof. apply (X4_equals_is_structural vectors); reflexivity. Defined.

(** * Index variables and their ranges: further proofs *)

Set Warnings "-clear-no-such-hyp".

Lemma map_insert_dom (m : gmap IndexVar Dimension) (k : IndexVar) (d : Dimension) :
  dom (map_insert m k d) = dom m ∪ {[k]}.
Proof.
  unfold map_insert. destruct (m !! k) as [x|] eqn:Hk.
  - apply (elem_of_dom_2 m) in Hk. set_solver.
  - rewrite dom_insert_L. set_solver.
Qed.

Lemma insertRanges_dom (vars : list IndexVar) (shape : list Dimension) (i : nat)
    (m m' : gmap IndexVar Dimension) :
  insertRanges vars shape i m = Some m' -> dom m' = dom m ∪ list_to_set vars.
Proof.
  revert i m. induction vars as [|v vars IH]; intros i m; cbn [insertRanges].
  - intros [= <-]. set_solver.
  - destruct (shape !! i) as [d|]; [|done]. intros H%IH.
    rewrite H, map_insert_dom. set_solver.
Qed.

Lemma insertAccessRanges_dom (h : Heap) (ops : list (TensorVar * list IndexVar))
    (m m' : gmap IndexVar Dimension) :
  insertAccessRanges h ops m = Some m' ->
  dom m' = foldl (fun (s : gset IndexVar) (op : TensorVar * list IndexVar) =>
                    s ∪ list_to_set op.2) (dom m) ops.
Proof.
  revert m. induction ops as [|[t ivs] ops IH]; intros m; cbn [insertAccessRanges foldl].
  - by intros [= <-].
  - destruct (insertRanges ivs (getShape (type (h t))) 0 m) as [m1|] eqn:E; [|done].
    intros H%IH. rewrite H. by rewrite (insertRanges_dom _ _ _ _ _ E).
Qed.

(** X5: whenever [getIndexVarRanges] returns a map, the index variables it
    gives a range to are exactly the index variables that [getIndexVars]
    finds for the tensor: none is missed and none is added. *)
Theorem X5_ranges_cover_index_vars (h : Heap) (tensor : TensorVar)
    (m : gmap IndexVar Dimension) :
  getIndexVarRanges h tensor = Some m ->
  dom m = getTensorIndexVars h tensor.
Proof.
  unfold getIndexVarRanges, getTensorIndexVars.
  destruct (insertRanges (freeVars (h tensor)) (getShape (type (h tensor))) 0 ∅)
    as [m0|] eqn:E0; [|done].
  intros H%insertAccessRanges_dom. rewrite H.
  rewrite (insertRanges_dom _ _ _ _ _ E0), dom_empty_L.
  f_equal. set_solver.
Qed.

Lemma X5_ranges_cover_index_vars_witness :
  exists m, getIndexVarRanges disagreeing tensor_t = Some m
    /\ dom m = getTensorIndexVars disagreeing tensor_t.
Proof.
  destruct (getIndexVarRanges disagreeing tensor_t) as [m|] eqn:E.
  - exists m. split; [reflexivity|]. by apply X5_ranges_cover_index_vars.
  - vm_compute in E. discriminate E.
Defined.

(** * Binding: further proofs *)

Section BindingInvariants.

Variable error : ErrorChecks.

Lemma keeps_refl (t : TensorVar) (h : Heap) : keeps t h h.
Proof. by split. Qed.

Lemma setIndexExpression_keeps (t : TensorVar) (fv : list IndexVar) (e : IndexExpr)
    (acc : bool) (h : Heap) :
  keeps t h (setIndexExpression error t fv e acc h).2.
Proof.
  destruct (setIndexExpression error t fv e acc h) as [[err|[]] h'] eqn:E.
  - apply setIndexExpression_failure in E as ->. apply keeps_refl.
  - revert E. unfold setIndexExpression, cmd_bind, read, taco_uassert. simpl.
    destruct (dimensionsTypecheck error h fv e _); simpl; [|done].
    destruct (containsTranspose error h _ fv e); simpl; [done|].
    destruct (containsDistribution error h fv e); simpl; [done|].
    intros [= <-]. unfold heap_update. split.
    + intros t'. destruct (decide (t' = t)) as [->|Hne];
        [by rewrite ?decide_True|by rewrite ?decide_False].
    + intros t' Hne. by rewrite !decide_False.
Qed.

Lemma setIndexExpression_inr (t : TensorVar) (fv : list IndexVar) (e : IndexExpr)
    (acc : bool) (h h' : Heap) :
  setIndexExpression error t fv e acc h = (inr tt, h') ->
  freeVars (h' t) = fv /\ indexExpr (h' t) = e /\ accumulate (h' t) = acc.
Proof.
  unfold setIndexExpression, cmd_bind, read, taco_uassert. simpl.
  destruct (dimensionsTypecheck error h fv e _); simpl; [|done].
  destruct (containsTranspose error h _ fv e); simpl; [done|].
  destruct (containsDistribution error h fv e); simpl; [done|].
  intros [= <-]. unfold heap_update. by rewrite !decide_True.
Qed.

Lemma keeps_wellFormed (t : TensorVar) (h h' : Heap) :
  keeps t h h' ->
  (forall t', getOrder h' t' = getOrder h t') /\ (forall e, wellFormed h' e = wellFormed h e).
Proof.
  intros [Hdecl _].
  assert (Hord : forall t', getOrder h' t' = getOrder h t').
  { intros t'. unfold getOrder. by destruct (Hdecl t') as (_ & -> & _). }
  split; [done|].
  induction e as [p t' ivs|p k a IHa|p k a IHa b IHb|p v]; cbn [wellFormed].
  - by rewrite Hord.
  - done.
  - by rewrite IHa, IHb.
  - done.
Qed.

Lemma Access_bind_cases (this : Access) (expr : IndexExpr) (acc : bool) (h : Heap) :
  (if acc then Access_accumulate error this expr h else Access_assign error this expr h)
  = if defined (indexExpr (h (getTensorVar this)))
    then (inl (cannot_reassign (getTensorVar this)), h)
    else setIndexExpression error (getTensorVar this) (getIndexVars this) expr acc h.
Proof.
  unfold Access_assign, Access_accumulate.
  destruct acc; rewrite !cmd_bind_read, !cmd_bind_uassert;
    by destruct (defined (indexExpr (h (getTensorVar this)))).
Qed.

End BindingInvariants.

(** X6: whatever its outcome, a binding through [setIndexExpression],
    [operator=] or [operator+=] leaves the name, the type and the format of
    every tensor variable as they were, and the whole content of every
    tensor variable other than its target; hence every order, and the
    arity invariant of every expression, are as before the call. *)
Theorem X6_binding_keeps_declarations (error : ErrorChecks) (h : Heap) (this : Access)
    (fv : list IndexVar) (expr : IndexExpr) (acc : bool) :
  Forall (fun op : Cmd unit =>
            let h' := (op h).2 in
            (forall t, name (h' t) = name (h t) /\ type (h' t) = type (h t)
                       /\ format (h' t) = format (h t))
            /\ (forall t, t <> getTensorVar this -> h' t = h t)
            /\ (forall t, getOrder h' t = getOrder h t)
            /\ (forall e, wellFormed h' e = wellFormed h e))
    [setIndexExpression error (getTensorVar this) fv expr acc;
     Access_assign error this expr; Access_accumulate error this expr].
Proof.
  assert (Hall : forall h', keeps (getTensorVar this) h h' ->
            (forall t, name (h' t) = name (h t) /\ type (h' t) = type (h t)
                       /\ format (h' t) = format (h t))
            /\ (forall t, t <> getTensorVar this -> h' t = h t)
            /\ (forall t, getOrder h' t = getOrder h t)
            /\ (forall e, wellFormed h' e = wellFormed h e)).
  { intros h' Hk. destruct (keeps_wellFormed _ _ _ Hk) as [Ho Hw].
    destruct Hk as [Hd Hother]. done. }
  repeat apply Forall_cons_2; [..|apply Forall_nil_2]; cbn zeta; apply Hall.
  - apply setIndexExpression_keeps.
  - pose proof (Access_bind_cases error this expr false h) as E. cbn iota in E.
    rewrite E. destruct (defined _); [apply keeps_refl|apply setIndexExpression_keeps].
  - pose proof (Access_bind_cases error this expr true h) as E. cbn iota in E.
    rewrite E. destruct (defined _); [apply keeps_refl|apply setIndexExpression_keeps].
Qed.

(** X7: single assignment.  When [operator=] ([acc] false) or [operator+=]
    ([acc] true) succeeds, the tensor had no definition before, and has the
    access's index variables, the expression and the flag afterwards.  A
    second [operator=] or [operator+=] on any access to that tensor is then
    refused with the heap unchanged when the expression bound was defined;
    when the undefined expression was bound the tensor still counts as
    undefined, and the second binding goes on to [setIndexExpression]. *)
Theorem X7_single_assignment (error : ErrorChecks) (h h' : Heap) (this that : Access)
    (expr x : IndexExpr) (acc : bool) :
  (if acc then Access_accumulate error this expr h else Access_assign error this expr h)
  = (inr tt, h') ->
  getTensorVar that = getTensorVar this ->
  let t := getTensorVar this in
  indexExpr (h t) = None
  /\ freeVars (h' t) = getIndexVars this
  /\ indexExpr (h' t) = expr
  /\ accumulate (h' t) = acc
  /\ Access_assign error that x h'
     = (if defined expr then (inl (cannot_reassign t), h')
        else setIndexExpression error t (getIndexVars that) x false h')
  /\ Access_accumulate error that x h'
     = (if defined expr then (inl (cannot_reassign t), h')
        else setIndexExpression error t (getIndexVars that) x true h').
Proof.
  intros Hok Hsame t. subst t. rewrite Access_bind_cases in Hok.
  destruct (indexExpr (h (getTensorVar this))) as [d|] eqn:Hd; [done|].
  cbn [defined] in Hok. apply setIndexExpression_inr in Hok as (Hfv & He & Hacc).
  split; [done|]. split; [done|]. split; [done|]. split; [done|].
  pose proof (Access_bind_cases error that x false h') as E1.
  pose proof (Access_bind_cases error that x true h') as E2.
  cbn iota in E1, E2. rewrite E1, E2, Hsame, He. done.
Qed.

Lemma X7_single_assignment_witness :
  let this := AccessAt 7 tensor_a [var_i] in
  let that := AccessAt 8 tensor_a [var_j] in
  let e := Some (AccessNode 2 tensor_b [var_i]) in
  let h' := (Access_assign arity_checks this e vectors).2 in
  indexExpr (h' tensor_a) = e
  /\ Access_assign arity_checks that None h' = (inl (cannot_reassign tensor_a), h').
Proof.
  intros this that e h'.
  assert (Hok : (if false then Access_accumulate arity_checks this e vectors
                 else Access_assign arity_checks this e vectors) = (inr tt, h'))
    by reflexivity.
  destruct (X7_single_assignment arity_checks vectors h' this that e None false Hok eq_refl)
    as (_ & _ & He & _ & Hre & _).
  split; [exact He|exact Hre].
Defined.

(** * Simplification: further proofs *)

Lemma storeOk_iff (pool : list ExprNode) (n : NodePtr) :
  storeOk pool n <-> consistent pool = true /\ forallb (allocatedBefore n) pool = true.
Proof.
  unfold storeOk. rewrite consistent_spec. apply and_iff_compat_l.
  rewrite forallb_forall. split.
  - intros H e He. apply allocatedBefore_iff. intros x Hx. apply H.
    apply list_elem_of_bind. exists e. split; [done|]. by apply list_elem_of_In.
  - intros H x (e & Hx & He)%list_elem_of_bind.
    apply list_elem_of_In, H in He. by apply (allocatedBefore_spec n e).
Qed.

Lemma storeOk_sub (pool pool' : list ExprNode) (n n' : NodePtr) :
  (forall x, x ∈ pool ≫= subterms -> x ∈ pool' ≫= subterms) ->
  (n <= n')%positive -> storeOk pool' n -> storeOk pool n'.
Proof.
  intros Hincl Hn [Hc Hal]. split.
  - intros x y Hx Hy. apply Hc; by apply Hincl.
  - intros x Hx. apply Hincl, Hal in Hx. lia.
Qed.

Lemma bind_subterms_closed (pool : list ExprNode) (e x : ExprNode) :
  e ∈ pool ≫= subterms -> x ∈ subterms e -> x ∈ pool ≫= subterms.
Proof.
  intros (e' & He & He')%list_elem_of_bind Hx. apply list_elem_of_bind.
  exists e'. split; [by eapply subterms_trans|done].
Qed.

Lemma bind_subterms_cons (pool : list ExprNode) (e x : ExprNode) :
  x ∈ (e :: pool) ≫= subterms <-> x ∈ subterms e \/ x ∈ pool ≫= subterms.
Proof. rewrite bind_cons. apply elem_of_app. Qed.

Lemma bind_subterms_mono (pool pool' : list ExprNode) :
  pool ⊆ pool' -> forall x, x ∈ pool ≫= subterms -> x ∈ pool' ≫= subterms.
Proof.
  intros Hincl x (e & Hx & He)%list_elem_of_bind. apply list_elem_of_bind.
  exists e. split; [done|]. by apply Hincl.
Qed.

(** An old node handed back joins the pool. *)
Lemma storeOk_old (pool pool' : list ExprNode) (n n' : NodePtr) (e : ExprNode) :
  storeOk pool' n -> e ∈ pool' ≫= subterms ->
  (forall x, x ∈ pool ≫= subterms -> x ∈ pool' ≫= subterms) ->
  (n <= n')%positive -> storeOk (e :: pool) n'.
Proof.
  intros Hok He Hincl Hn. apply (storeOk_sub _ pool' n); [|done..].
  intros x [Hx|Hx]%bind_subterms_cons; [by eapply bind_subterms_closed|by apply Hincl].
Qed.

(** A new node over members of the pool joins the pool. *)
Lemma storeOk_new (pool pool' : list ExprNode) (n : NodePtr) (e : ExprNode)
    (operands : list ExprNode) :
  storeOk pool' n -> node_ptr e = n ->
  subterms e = e :: (operands ≫= subterms) ->
  operands ⊆ pool' ->
  (forall x, x ∈ pool ≫= subterms -> x ∈ pool' ≫= subterms) ->
  storeOk (e :: pool) (Pos.succ n).
Proof.
  intros [Hc Hal]%storeOk_iff Hptr Hsub Hops Hincl.
  destruct (new_node_joins pool' n e operands Hc Hal Hptr Hsub Hops) as [Hc' Hal'].
  apply (storeOk_sub _ (e :: pool') (Pos.succ n)); [|lia|by apply storeOk_iff].
  intros x [Hx|Hx]%bind_subterms_cons; apply bind_subterms_cons; [by left|right].
  by apply Hincl.
Qed.

Section SimplifyStore.

Import Simplify.

Variable exhausted : list Access.

(** The rewriter keeps the store invariant, its result joining the pool. *)
Lemma rewrite_storeOk (e : ExprNode) (pool : list ExprNode) (n : NodePtr) :
  storeOk pool n -> e ∈ pool ≫= subterms ->
  storeOk (option_list (rewrite exhausted e n).1 ++ pool) (rewrite exhausted e n).2.
Proof.
  revert pool n.
  induction e as [p t ivs|p k a IH|p k a IHa b IHb|p v]; intros pool n Hok He.
  - cbn [rewrite]. destruct (contains _ _); simpl; [done|].
    by apply (storeOk_old pool pool n).
  - assert (Ha : a ∈ pool ≫= subterms).
    { apply (bind_subterms_closed pool _ _ He). cbn [subterms].
      apply elem_of_cons. right. apply subterms_self. }
    specialize (IH pool n Hok Ha). rewrite rewrite_unary.
    destruct (rewrite exhausted a n) as [[a'|] n1]; cbn [fst snd option_list option_rect app] in *;
      [|done].
    case_bool_decide; cbn [fst snd option_list option_rect app].
    + apply (storeOk_old pool (a' :: pool) n1);
        [done| |apply bind_subterms_mono; set_solver|lia].
      apply bind_subterms_cons. by right.
    + apply (storeOk_new pool (a' :: pool) n1 _ [a']);
        [done|done| |set_solver|apply bind_subterms_mono; set_solver].
      simpl. by rewrite app_nil_r.
  - assert (Ha : a ∈ pool ≫= subterms).
    { apply (bind_subterms_closed pool _ _ He). cbn [subterms].
      apply elem_of_cons. right. apply elem_of_app. left. apply subterms_self. }
    assert (Hb : forall pool', (forall x, x ∈ pool ≫= subterms -> x ∈ pool' ≫= subterms) ->
                   b ∈ pool' ≫= subterms).
    { intros pool' Hincl. apply Hincl.
      apply (bind_subterms_closed pool _ _ He). cbn [subterms].
      apply elem_of_cons. right. apply elem_of_app. right. apply subterms_self. }
    specialize (IHa pool n Hok Ha).
    specialize (IHb (option_list (rewrite exhausted a n).1 ++ pool)
                  (rewrite exhausted a n).2 IHa).
    assert (Hk : (k = Add \/ k = Sub) \/ (k = Mul \/ k = Div)) by (destruct k; auto).
    destruct Hk as [Hk|Hk];
      [rewrite (rewrite_disjunction exhausted p k a b n Hk)
      |rewrite (rewrite_conjunction exhausted p k a b n Hk)]; cbv zeta;
      destruct (rewrite exhausted a n) as [[a'|] n1];
      cbn [fst snd option_list option_rect app] in *;
      (lapply IHb; [clear IHb; intros IHb|apply Hb, bind_subterms_mono; set_solver]);
      destruct (rewrite exhausted b n1) as [[b'|] n2];
      cbn [fst snd option_list option_rect app] in *;
      try (destruct (bool_decide (node_ptr a' = node_ptr a)
                     && bool_decide (node_ptr b' = node_ptr b)));
      cbn [fst snd option_list option_rect app];
      first
        [ exact IHb
        | apply (storeOk_sub pool (a' :: pool) n2 n2);
            [apply bind_subterms_mono; set_solver|lia|exact IHb]
        | apply (storeOk_sub pool (b' :: pool) n2 n2);
            [apply bind_subterms_mono; set_solver|lia|exact IHb]
        | apply (storeOk_old pool (b' :: a' :: pool) n2);
            [done|apply bind_subterms_cons; right; apply bind_subterms_cons; by right
            |apply bind_subterms_mono; set_solver|lia]
        | apply (storeOk_new pool (b' :: a' :: pool) n2 _ [a'; b']);
            [done|done
            |simpl; by rewrite app_nil_r
            |set_solver|apply bind_subterms_mono; set_solver] ].
  - cbn [rewrite]. simpl. by apply (storeOk_old pool pool n).
Qed.

(** Every node of a rewritten expression is a node of the expression or a
    node allocated by the rewriting. *)
Lemma rewrite_origin_all (e r : ExprNode) (n : NodePtr) :
  (rewrite exhausted e n).1 = Some r ->
  forall x, x ∈ subterms r -> x ∈ subterms e \/ (n <= node_ptr x)%positive.
Proof.
  revert r n. induction e as [p t ivs|p k a IH|p k a IHa b IHb|p v]; intros r n.
  - cbn [rewrite]. destruct (contains _ _); simpl; [done|].
    intros [= <-] x Hx. by left.
  - rewrite rewrite_unary. pose proof (rewrite_mono exhausted a n) as Hm.
    pose proof (fun r => IH r n) as Ha'. clear IH.
    destruct (rewrite exhausted a n) as [[a'|] n1]; simpl in *; [|done].
    case_bool_decide; simpl; intros [= <-] x Hx; [by left|].
    cbn [subterms] in Hx. apply elem_of_cons in Hx as [->|Hx]; [right; simpl; lia|].
    destruct (Ha' _ eq_refl x Hx) as [Hx'|Hx']; [left|by right].
    cbn [subterms]. apply elem_of_cons. by right.
  - pose proof (rewrite_mono exhausted a n) as Hma.
    pose proof (rewrite_mono exhausted b (rewrite exhausted a n).2) as Hmb.
    pose proof (fun r => IHa r n) as Ha'.
    pose proof (fun r => IHb r (rewrite exhausted a n).2) as Hb'. clear IHa IHb.
    assert (Hsub : forall x, x ∈ subterms a \/ x ∈ subterms b ->
                     x ∈ subterms (BinaryExprNode p k a b)).
    { intros x Hx. cbn [subterms]. apply elem_of_cons. right. by apply elem_of_app. }
    assert (Hfrom_a : forall a' n1, (n <= n1)%positive ->
              (forall x, x ∈ subterms a' -> x ∈ subterms a \/ (n <= node_ptr x)%positive) ->
              forall x, x ∈ subterms a' ->
                x ∈ subterms (BinaryExprNode p k a b) \/ (n <= node_ptr x)%positive).
    { intros a' n1 _ H x Hx. destruct (H x Hx); [left; auto|by right]. }
    assert (Hfrom_b : forall b' n1, (n <= n1)%positive ->
              (forall x, x ∈ subterms b' -> x ∈ subterms b \/ (n1 <= node_ptr x)%positive) ->
              forall x, x ∈ subterms b' ->
                x ∈ subterms (BinaryExprNode p k a b) \/ (n <= node_ptr x)%positive).
    { intros b' n1 Hn H x Hx. destruct (H x Hx); [left; auto|right; lia]. }
    assert (Hk : (k = Add \/ k = Sub) \/ (k = Mul \/ k = Div)) by (destruct k; auto).
    destruct Hk as [Hk|Hk];
      [rewrite (rewrite_disjunction exhausted p k a b n Hk)
      |rewrite (rewrite_conjunction exhausted p k a b n Hk)]; cbv zeta;
      destruct (rewrite exhausted a n) as [[a'|] n1]; cbn [fst snd] in *;
      destruct (rewrite exhausted b n1) as [[b'|] n2]; cbn [fst snd] in *;
      try (destruct (bool_decide (node_ptr a' = node_ptr a)
                     && bool_decide (node_ptr b' = node_ptr b))); cbn [fst snd];
      intros [= <-] x Hx;
      try (by left);
      try (by apply (Hfrom_a _ n1 Hma (Ha' _ eq_refl)));
      try (by apply (Hfrom_b _ n1 Hma (Hb' _ eq_refl)));
      (cbn [subterms] in Hx; apply elem_of_cons in Hx as [->|Hx]; [right; simpl; lia|];
       apply elem_of_app in Hx as [Hx|Hx];
       [by apply (Hfrom_a _ n1 Hma (Ha' _ eq_refl))
       |by apply (Hfrom_b _ n1 Hma (Hb' _ eq_refl))]).
  - simpl. intros [= <-] x Hx. by left.
Qed.

End SimplifyStore.

Lemma accesses_forget (e : ExprNode) : accesses (forget e) = accesses e.
Proof.
  induction e as [p t ivs|p k a IH|p k a IHa b IHb|p v]; cbn [forget accesses];
    congruence.
Qed.

Lemma isExhausted_app (X Y : list Access) (op : TensorVar * list IndexVar) :
  isExhausted (X ++ Y) op = isExhausted X op || isExhausted Y op.
Proof. unfold isExhausted. apply existsb_app. Qed.

Lemma survivors_binary (X : list Access) (p : NodePtr) (k : BinaryKind) (a b : ExprNode) :
  survivors X (BinaryExprNode p k a b) = survivors X a ++ survivors X b.
Proof. unfold survivors. cbn [accesses]. apply filter_app. Qed.

(** What the specification's simplification keeps are accesses of the
    expression that are not exhausted, in their order. *)
Lemma simplifySpec_survivors (X : list Access) (e s : ExprNode) :
  simplifySpec X e = Some s -> accesses s `sublist_of` survivors X e.
Proof.
  revert s. induction e as [p t ivs|p k a IH|p k a IHa b IHb|p v]; intros s.
  - cbn [simplifySpec]. unfold survivors. cbn [accesses].
    destruct (isExhausted X (t, ivs)) eqn:E; [done|]. intros [= <-].
    rewrite filter_cons_True by done. done.
  - cbn [simplifySpec]. destruct (simplifySpec X a) as [a'|]; [|done].
    intros [= <-]. exact (IH a' eq_refl).
  - rewrite survivors_binary. cbn [simplifySpec].
    destruct k;
      destruct (simplifySpec X a) as [a'|]; destruct (simplifySpec X b) as [b'|];
      try done; intros [= <-]; cbn [accesses];
      first [ apply sublist_app; [exact (IHa a' eq_refl)|exact (IHb b' eq_refl)]
            | apply sublist_inserts_l; exact (IHb b' eq_refl)
            | apply sublist_inserts_r; exact (IHa a' eq_refl) ].
  - cbn [simplifySpec]. intros [= <-]. apply sublist_nil_l.
Qed.

(** The specification's simplification does not look at addresses. *)
Lemma simplifySpec_forget (X : list Access) (a b : ExprNode) :
  forget a = forget b ->
  forget <$> simplifySpec X a = forget <$> simplifySpec X b.
Proof.
  revert b. induction a as [p t ivs|p k a IH|p k a1 IH1 a2 IH2|p v];
    intros [q t' ivs'|q k' b|q k' b1 b2|q v'] H; simplify_eq/=; try done.
  - by destruct (isExhausted X (t', ivs')).
  - specialize (IH _ H0).
    destruct (simplifySpec X a), (simplifySpec X b); simplify_eq/=; congruence.
  - specialize (IH1 _ H0). specialize (IH2 _ H1).
    destruct k';
      destruct (simplifySpec X a1), (simplifySpec X b1),
               (simplifySpec X a2), (simplifySpec X b2);
      simplify_eq/=; congruence.
Qed.

(** Exhausting in two rounds is exhausting at once. *)
Lemma simplifySpec_app (X Y : list Access) (e : ExprNode) :
  simplifySpec X e ≫= simplifySpec Y = simplifySpec (X ++ Y) e.
Proof.
  induction e as [p t ivs|p k a IH|p k a IHa b IHb|p v].
  - cbn [simplifySpec]. rewrite isExhausted_app.
    destruct (isExhausted X (t, ivs)); [done|]. cbn. done.
  - cbn [simplifySpec]. rewrite <- IH.
    destruct (simplifySpec X a) as [a'|]; [|done]. cbn. done.
  - cbn [simplifySpec]. rewrite <- IHa, <- IHb.
    destruct k;
      destruct (simplifySpec X a) as [a'|]; destruct (simplifySpec X b) as [b'|];
      cbn; try done; repeat case_match; by simplify_eq.
  - done.
Qed.

(** An expression none of whose accesses is exhausted is handed back, the
    same node, and nothing is allocated. *)
Lemma rewrite_stable (X : list Access) (e : ExprNode) (n : NodePtr) :
  survivors X e = accesses e -> Simplify.rewrite X e n = (Some e, n).
Proof.
  revert n. induction e as [p t ivs|p k a IH|p k a IHa b IHb|p v]; intros n Hs.
  - cbn [Simplify.rewrite]. rewrite contains_access. revert Hs. unfold survivors.
    cbn [accesses]. destruct (isExhausted X (t, ivs)) eqn:E; [|done].
    rewrite filter_cons_False by (rewrite E; done). done.
  - rewrite rewrite_unary, IH by done. by rewrite bool_decide_eq_true_2.
  - rewrite survivors_binary in Hs. cbn [accesses] in Hs.
    assert (Hlen : forall x, length (survivors X x) <= length (accesses x)).
    { intros x. apply length_filter. }
    assert (Ha : survivors X a = accesses a).
    { apply (f_equal (take (length (survivors X a)))) in Hs as Ht.
      rewrite take_app_length in Ht.
      apply (f_equal length) in Hs. rewrite !length_app in Hs.
      pose proof (Hlen a). pose proof (Hlen b).
      assert (length (survivors X a) = length (accesses a)) as El by lia.
      rewrite El, take_app_length in Ht. done. }
    rewrite Ha in Hs. apply app_inv_head in Hs.
    assert (Hk : (k = Add \/ k = Sub) \/ (k = Mul \/ k = Div)) by (destruct k; auto).
    destruct Hk as [Hk|Hk];
      [rewrite (rewrite_disjunction X p k a b n Hk)
      |rewrite (rewrite_conjunction X p k a b n Hk)]; cbv zeta;
      rewrite IHa by done; cbn [fst snd]; rewrite IHb by done; cbn [fst snd];
      by rewrite !bool_decide_eq_true_2.
  - done.
Qed.

Lemma filter_all {A} (P : A -> Prop) `{!forall x, Decision (P x)} (l : list A) :
  (forall x, x ∈ l -> P x) -> filter P l = l.
Proof.
  induction l as [|x l IH]; intros Hall; [done|].
  rewrite filter_cons_True by apply Hall, list_elem_of_here.
  rewrite IH; [done|]. intros y Hy. by apply Hall, list_elem_of_further.
Qed.

(** X8: [simplify] keeps the invariants of the node store.  Run on an
    expression of a pool whose addresses identify its nodes and were all
    allocated before [n], it only moves the allocator forward, and its
    result joins the pool: addresses still identify nodes and all lie below
    the new allocator.  Every node of the result is a node of the argument
    or a node allocated by this call. *)
Theorem X8_simplify_keeps_store_invariants (exhausted : list Access)
    (pool : list ExprNode) (e : ExprNode) (n : NodePtr) :
  consistent pool = true ->
  forallb (allocatedBefore n) pool = true ->
  e ∈ pool ->
  let r := simplify (Some e) exhausted n in
  (n <= r.2)%positive
  /\ consistent (option_list r.1 ++ pool) = true
  /\ forallb (allocatedBefore r.2) (option_list r.1 ++ pool) = true
  /\ forall r', r.1 = Some r' ->
       wellLabelled r' = true
       /\ forall x, x ∈ subterms r' ->
            x ∈ subterms e \/ (n <= node_ptr x < r.2)%positive.
Proof.
  intros Hc Hal He r. subst r. unfold simplify.
  assert (Hok : storeOk pool n) by (by apply storeOk_iff).
  assert (He' : e ∈ pool ≫= subterms).
  { apply list_elem_of_bind. exists e. split; [apply subterms_self|done]. }
  pose proof (rewrite_storeOk exhausted e pool n Hok He') as Hres.
  pose proof (fun r => rewrite_origin_all exhausted e r n) as Horigin.
  pose proof (rewrite_mono exhausted e n) as Hmono.
  destruct (Simplify.rewrite exhausted e n) as [r n']. cbn [fst snd] in *.
  apply storeOk_iff in Hres as Hres'. destruct Hres' as [Hc' Hal'].
  split; [done|]. split; [done|]. split; [done|].
  intros r' ->. cbn [option_list option_rect app] in *. split.
  - apply (consistent_wellLabelled (r' :: pool)); [done|apply list_elem_of_here].
  - intros x Hx. destruct (Horigin r' eq_refl x Hx) as [Hold|Hnew]; [by left|right].
    split; [done|]. destruct Hres as [_ Hbelow]. apply Hbelow.
    apply bind_subterms_cons. by left.
Qed.

Lemma X8_simplify_keeps_store_invariants_witness :
  let r := simplify (Some sum_times_c) [AccessAt 7 tensor_a [var_i]] 10%positive in
  r.1 = Some (BinaryExprNode 10 Mul (AccessNode 2 tensor_b [var_j])
                (AccessNode 4 tensor_c [var_i]))
  /\ consistent (option_list r.1 ++ [sum_times_c]) = true
  /\ forallb (allocatedBefore r.2) (option_list r.1 ++ [sum_times_c]) = true.
Proof.
  intros r. split; [reflexivity|].
  assert (He : sum_times_c ∈ [sum_times_c]) by apply list_elem_of_here.
  destruct (X8_simplify_keeps_store_invariants [AccessAt 7 tensor_a [var_i]]
              [sum_times_c] sum_times_c 10 eq_refl eq_refl He) as (_ & Hc & Hal & _).
  split; [exact Hc|exact Hal].
Defined.

(** X9: what [simplify] hands back holds no exhausted access: its accesses
    are accesses of the argument that are not exhausted, in their order.
    Simplifying the result again with the same exhausted set returns it, the
    same node, and allocates nothing; and so does the first call when no
    access of the argument is exhausted. *)
Theorem X9_simplify_result_is_stable (exhausted : list Access) (e r : ExprNode)
    (n n' : NodePtr) :
  wellLabelled e = true ->
  allocatedBefore n e = true ->
  simplify (Some e) exhausted n = (Some r, n') ->
  accesses r `sublist_of` survivors exhausted e
  /\ (forall m, simplify (Some r) exhausted m = (Some r, m))
  /\ (survivors exhausted e = accesses e -> r = e /\ n' = n).
Proof.
  intros Hwl Hal Hr. unfold simplify in *.
  pose proof (rewrite_refines exhausted e n Hwl Hal) as Href. rewrite Hr in Href.
  cbn [fst] in Href.
  destruct (simplifySpec exhausted e) as [s|] eqn:Hs; [|done].
  injection Href as Href.
  assert (Hacc : accesses r = accesses s).
  { by rewrite <- (accesses_forget r), Href, accesses_forget. }
  assert (Hsub : accesses r `sublist_of` survivors exhausted e).
  { rewrite Hacc. by apply simplifySpec_survivors. }
  split; [done|]. split.
  - intros m. apply rewrite_stable. unfold survivors. apply filter_all.
    intros op Hop. apply (elem_of_sublist _ _ _ Hop) in Hsub as Hop'.
    unfold survivors in Hop'. by apply list_elem_of_filter in Hop' as [Hop' _].
  - intros Hall. rewrite (rewrite_stable exhausted e n Hall) in Hr.
    by injection Hr as <- <-.
Qed.

Lemma X9_simplify_result_is_stable_witness :
  let X := [AccessAt 7 tensor_a [var_i]] in
  let r := BinaryExprNode 10 Mul (AccessNode 2 tensor_b [var_j])
             (AccessNode 4 tensor_c [var_i]) in
  accesses r `sublist_of` survivors X sum_times_c
  /\ simplify (Some r) X 11%positive = (Some r, 11%positive).
Proof.
  intros X r.
  destruct (X9_simplify_result_is_stable X sum_times_c r 10 11 eq_refl eq_refl eq_refl)
    as (Hsub & Hstable & _).
  split; [exact Hsub|exact (Hstable 11%positive)].
Defined.

(** X10: exhausting in two rounds is exhausting at once.  On an expression
    whose addresses identify its nodes, with a fresh allocator, simplifying
    with [X] and then the result with [Y] gives, up to node addresses, what
    simplifying once with the accesses of both gives; in particular an
    expression that [X] empties is emptied by every larger set.  Only
    membership in the exhausted set matters: two sets with the same members
    give the same result, node for node. *)
Theorem X10_simplify_composes (X Y : list Access) (e : ExprNode) (n : NodePtr) :
  wellLabelled e = true ->
  allocatedBefore n e = true ->
  let r1 := simplify (Some e) X n in
  forget <$> (simplify r1.1 Y r1.2).1 = forget <$> (simplify (Some e) (X ++ Y) n).1
  /\ (r1.1 = None -> (simplify (Some e) (X ++ Y) n).1 = None)
  /\ (forall X', (forall op, isExhausted X' op = isExhausted X op) ->
        simplify (Some e) X' n = r1).
Proof.
  intros Hwl Hal r1. subst r1.
  assert (Hfirst : forget <$> (simplify (simplify (Some e) X n).1 Y
                                 (simplify (Some e) X n).2).1
                   = forget <$> (simplify (Some e) (X ++ Y) n).1).
  { unfold simplify at 2 3 4.
    rewrite (rewrite_refines (X ++ Y) e n Hwl Hal), <- simplifySpec_app.
    pose proof (rewrite_refines X e n Hwl Hal) as Href.
    assert (He : e ∈ [e]) by apply list_elem_of_here.
    assert (Hc : consistent [e] = true).
    { apply consistent_spec. intros x y Hx Hy. simpl in Hx, Hy.
      rewrite app_nil_r in Hx, Hy. by apply (wellLabelled_spec e). }
    assert (Hal1 : forallb (allocatedBefore n) [e] = true) by (simpl; by rewrite Hal).
    pose proof (rewrite_storeOk X e [e] n (proj2 (storeOk_iff _ _) (conj Hc Hal1))) as Hok.
    lapply Hok; [clear Hok; intros Hok|simpl; rewrite app_nil_r; apply subterms_self].
    destruct (Simplify.rewrite X e n) as [[r|] n1]; cbn [fst snd] in *.
    - destruct (simplifySpec X e) as [s|]; [|done]. injection Href as Href.
      cbn [option_list option_rect app] in Hok. apply storeOk_iff in Hok as [Hc' Hal'].
      cbn [simplify mbind option_bind].
      rewrite <- (simplifySpec_forget Y r s Href).
      apply rewrite_refines.
      + apply (consistent_wellLabelled (r :: [e])); [done|apply list_elem_of_here].
      + simpl in Hal'. by apply andb_true_iff in Hal' as [? _].
    - destruct (simplifySpec X e); [by simplify_eq/=|done]. }
  split; [done|]. split.
  - intros Hnone. rewrite Hnone in Hfirst. cbn in Hfirst. revert Hfirst.
    unfold simplify. by destruct ((Simplify.rewrite (X ++ Y) e n).1).
  - intros X' Hsame. unfold simplify. clear Hfirst Hwl Hal. revert n.
    induction e as [p t ivs|p k a IH|p k a IHa b IHb|p v]; intros n.
    + cbn [Simplify.rewrite]. by rewrite !contains_access, Hsame.
    + by rewrite !rewrite_unary, IH.
    + assert (Hk : (k = Add \/ k = Sub) \/ (k = Mul \/ k = Div)) by (destruct k; auto).
      destruct Hk as [Hk|Hk];
        [rewrite !(rewrite_disjunction _ p k a b n Hk)
        |rewrite !(rewrite_conjunction _ p k a b n Hk)]; cbv zeta;
        by rewrite IHa, IHb.
    + done.
Qed.

Lemma X10_simplify_composes_witness :
  let X := [AccessAt 7 tensor_a [var_i]] in
  let Y := [AccessAt 8 tensor_b [var_j]] in
  let r1 := simplify (Some sum_times_c) X 10%positive in
  forget <$> (simplify r1.1 Y r1.2).1
  = forget <$> (simplify (Some sum_times_c) (X ++ Y) 10%positive).1.
Proof.
  intros X Y r1.
  exact (proj1 (X10_simplify_composes X Y sum_times_c 10 eq_refl eq_refl)).
Defined.

(** * Sub-expression extraction: further proofs *)

Section SubExprStore.

Import SubExprVisitor.

Variable vars : gset IndexVar.

(** The extraction keeps the store invariant, its result joining the pool. *)
Lemma getSubExpression_storeOk (e : ExprNode) (pool : list ExprNode) (n : NodePtr) :
  storeOk pool n -> e ∈ pool ≫= subterms ->
  storeOk (option_list (getSubExpression vars e n).1 ++ pool)
    (getSubExpression vars e n).2.
Proof.
  revert pool n.
  induction e as [p t ivs|p k a IH|p k a IHa b IHb|p v]; intros pool n Hok He.
  - cbn [getSubExpression]. unfold ret. cbn [fst snd].
    destruct (accessKept vars ivs); cbn [option_list option_rect app]; [|done].
    by apply (storeOk_old pool pool n).
  - assert (Ha : a ∈ pool ≫= subterms).
    { apply (bind_subterms_closed pool _ _ He). cbn [subterms].
      apply elem_of_cons. right. apply subterms_self. }
    specialize (IH pool n Hok Ha). rewrite getSubExpression_unary. cbv zeta.
    pose proof (getSubExpression_mono vars a n) as Hm.
    destruct (getSubExpression vars a n) as [[a'|] n1];
      cbn [fst snd defined option_list option_rect app] in *; [|done].
    by apply (storeOk_old pool pool n).
  - assert (Ha : a ∈ pool ≫= subterms).
    { apply (bind_subterms_closed pool _ _ He). cbn [subterms].
      apply elem_of_cons. right. apply elem_of_app. left. apply subterms_self. }
    assert (Hb : forall pool', pool ⊆ pool' -> b ∈ pool' ≫= subterms).
    { intros pool' Hincl. apply (bind_subterms_mono pool pool' Hincl).
      apply (bind_subterms_closed pool _ _ He). cbn [subterms].
      apply elem_of_cons. right. apply elem_of_app. right. apply subterms_self. }
    specialize (IHa pool n Hok Ha).
    specialize (IHb (option_list (getSubExpression vars a n).1 ++ pool)
                  (getSubExpression vars a n).2 IHa).
    rewrite getSubExpression_binary. cbv zeta.
    destruct (getSubExpression vars a n) as [[a'|] n1];
      cbn [fst snd option_list option_rect app] in *;
      (lapply IHb; [clear IHb; intros IHb|apply Hb; set_solver]);
      destruct (getSubExpression vars b n1) as [[b'|] n2];
      cbn [fst snd option_list option_rect app] in *;
      first
        [ exact IHb
        | apply (storeOk_sub pool (b' :: pool) n2 n2);
            [apply bind_subterms_mono; set_solver|lia|exact IHb]
        | apply (storeOk_new pool (b' :: a' :: pool) n2 _ [a'; b']);
            [done|done
            |simpl; by rewrite app_nil_r
            |set_solver|apply bind_subterms_mono; set_solver] ].
  - done.
Qed.

(** Every node of an extraction is a node of the expression or a node
    allocated by the extraction. *)
Lemma getSubExpression_origin_all (e r : ExprNode) (n : NodePtr) :
  (getSubExpression vars e n).1 = Some r ->
  forall x, x ∈ subterms r -> x ∈ subterms e \/ (n <= node_ptr x)%positive.
Proof.
  revert r n. induction e as [p t ivs|p k a IH|p k a IHa b IHb|p v]; intros r n.
  - cbn [getSubExpression]. unfold ret. cbn [fst].
    destruct (accessKept vars ivs); [|done]. intros [= <-] x Hx. by left.
  - rewrite getSubExpression_unary. cbv zeta. cbn [fst].
    destruct (defined _); [|done]. intros [= <-] x Hx. by left.
  - pose proof (getSubExpression_mono vars a n) as Hma.
    pose proof (getSubExpression_mono vars b (getSubExpression vars a n).2) as Hmb.
    pose proof (fun r => IHa r n) as Ha'.
    pose proof (fun r => IHb r (getSubExpression vars a n).2) as Hb'. clear IHa IHb.
    assert (Hsub : forall x, x ∈ subterms a \/ x ∈ subterms b ->
                     x ∈ subterms (BinaryExprNode p k a b)).
    { intros x Hx. cbn [subterms]. apply elem_of_cons. right. by apply elem_of_app. }
    rewrite getSubExpression_binary. cbv zeta.
    destruct (getSubExpression vars a n) as [[a'|] n1]; cbn [fst snd] in *;
      destruct (getSubExpression vars b n1) as [[b'|] n2]; cbn [fst snd] in *;
      intros [= <-] x Hx.
    + cbn [subterms] in Hx. apply elem_of_cons in Hx as [->|Hx]; [right; simpl; lia|].
      apply elem_of_app in Hx as [Hx|Hx].
      * destruct (Ha' _ eq_refl x Hx); [left; auto|by right].
      * destruct (Hb' _ eq_refl x Hx); [left; auto|right; lia].
    + destruct (Ha' _ eq_refl x Hx); [left; auto|by right].
    + destruct (Hb' _ eq_refl x Hx); [left; auto|right; lia].
  - done.
Qed.

(** The accesses of an extraction are accesses of the expression, in their
    order. *)
Lemma getSubExpression_accesses (e r : ExprNode) (n : NodePtr) :
  (getSubExpression vars e n).1 = Some r -> accesses r `sublist_of` accesses e.
Proof.
  revert r n. induction e as [p t ivs|p k a IH|p k a IHa b IHb|p v]; intros r n.
  - cbn [getSubExpression]. unfold ret. cbn [fst].
    destruct (accessKept vars ivs); [|done]. by intros [= <-].
  - rewrite getSubExpression_unary. cbv zeta. cbn [fst].
    destruct (defined _); [|done]. by intros [= <-].
  - pose proof (fun r => IHa r n) as Ha'.
    pose proof (fun r => IHb r (getSubExpression vars a n).2) as Hb'. clear IHa IHb.
    rewrite getSubExpression_binary. cbv zeta.
    destruct (getSubExpression vars a n) as [[a'|] n1]; cbn [fst snd] in *;
      destruct (getSubExpression vars b n1) as [[b'|] n2]; cbn [fst snd] in *;
      intros [= <-]; cbn [accesses].
    + apply sublist_app; [exact (Ha' a' eq_refl)|exact (Hb' b' eq_refl)].
    + apply sublist_inserts_r. exact (Ha' a' eq_refl).
    + apply sublist_inserts_l. exact (Hb' b' eq_refl).
  - done.
Qed.

(** An undefined extraction allocates nothing. *)
Lemma getSubExpression_undefined (e : ExprNode) (n : NodePtr) :
  (getSubExpression vars e n).1 = None -> (getSubExpression vars e n).2 = n.
Proof.
  revert n. induction e as [p t ivs|p k a IH|p k a IHa b IHb|p v]; intros n.
  - done.
  - rewrite getSubExpression_unary. cbv zeta. cbn [fst snd]. specialize (IH n).
    destruct (getSubExpression vars a n) as [[a'|] n1]; cbn [fst snd defined] in *;
      [done|auto].
  - rewrite getSubExpression_binary. cbv zeta.
    specialize (IHa n). specialize (IHb (getSubExpression vars a n).2).
    destruct (getSubExpression vars a n) as [[a'|] n1]; cbn [fst snd] in *;
      destruct (getSubExpression vars b n1) as [[b'|] n2]; cbn [fst snd] in *;
      try done.
    intros _. rewrite IHb by done. by apply IHa.
  - done.
Qed.

End SubExprStore.

Lemma allKept_binary (vars : gset IndexVar) (p : NodePtr) (k : BinaryKind)
    (a b : ExprNode) :
  allKept vars (BinaryExprNode p k a b) = allKept vars a && allKept vars b.
Proof. unfold allKept. cbn [leaves]. apply forallb_app. Qed.

Lemma mentions_mono (vars vars' : gset IndexVar) (e : ExprNode) :
  vars ⊆ vars' -> mentions vars e = true -> mentions vars' e = true.
Proof.
  intros Hincl. unfold mentions. rewrite !existsb_exists.
  intros (op & Hop & Hk). exists op. split; [done|].
  apply accessKept_iff in Hk as (v & Hv & Hin). apply accessKept_iff.
  exists v. split; [done|]. by apply Hincl.
Qed.

Lemma mentions_empty (e : ExprNode) : mentions ∅ e = false.
Proof.
  destruct (mentions ∅ e) eqn:E; [|done]. unfold mentions in E.
  apply existsb_exists in E as (op & _ & Hk).
  apply accessKept_iff in Hk as (v & _ & Hin). set_solver.
Qed.

(** X11: [getSubExpr] keeps the invariants of the node store.  Run on an
    expression of a pool whose addresses identify its nodes and were all
    allocated before [n], it only moves the allocator forward and its result
    joins the pool with the invariants kept.  Every node of the result is a
    node of the argument or a node allocated by this call, and the accesses
    of the result are accesses of the argument, in their order. *)
Theorem X11_getSubExpr_keeps_store_invariants (vars : list IndexVar)
    (pool : list ExprNode) (e : ExprNode) (n : NodePtr) :
  consistent pool = true ->
  forallb (allocatedBefore n) pool = true ->
  e ∈ pool ->
  let r := getSubExpr e vars n in
  (n <= r.2)%positive
  /\ consistent (option_list r.1 ++ pool) = true
  /\ forallb (allocatedBefore r.2) (option_list r.1 ++ pool) = true
  /\ forall r', r.1 = Some r' ->
       wellLabelled r' = true
       /\ accesses r' `sublist_of` accesses e
       /\ forall x, x ∈ subterms r' ->
            x ∈ subterms e \/ (n <= node_ptr x < r.2)%positive.
Proof.
  intros Hc Hal He r. subst r. unfold getSubExpr.
  assert (Hok : storeOk pool n) by (by apply storeOk_iff).
  assert (He' : e ∈ pool ≫= subterms).
  { apply list_elem_of_bind. exists e. split; [apply subterms_self|done]. }
  pose proof (getSubExpression_storeOk (list_to_set vars) e pool n Hok He') as Hres.
  pose proof (fun r => getSubExpression_origin_all (list_to_set vars) e r n) as Horigin.
  pose proof (fun r => getSubExpression_accesses (list_to_set vars) e r n) as Hacc.
  pose proof (getSubExpression_mono (list_to_set vars) e n) as Hmono.
  destruct (SubExprVisitor.getSubExpression (list_to_set vars) e n) as [r n'].
  cbn [fst snd] in *.
  apply storeOk_iff in Hres as Hres'. destruct Hres' as [Hc' Hal'].
  split; [done|]. split; [done|]. split; [done|].
  intros r' ->. cbn [option_list option_rect app] in *. split; [|split].
  - apply (consistent_wellLabelled (r' :: pool)); [done|apply list_elem_of_here].
  - by apply Hacc.
  - intros x Hx. destruct (Horigin r' eq_refl x Hx) as [Hold|Hnew]; [by left|right].
    split; [done|]. destruct Hres as [_ Hbelow]. apply Hbelow.
    apply bind_subterms_cons. by left.
Qed.

Lemma X11_getSubExpr_keeps_store_invariants_witness :
  let r := getSubExpr sum_times_c [var_i] 10%positive in
  consistent (option_list r.1 ++ [sum_times_c]) = true
  /\ forallb (allocatedBefore r.2) (option_list r.1 ++ [sum_times_c]) = true.
Proof.
  intros r.
  assert (He : sum_times_c ∈ [sum_times_c]) by apply list_elem_of_here.
  destruct (X11_getSubExpr_keeps_store_invariants [var_i] [sum_times_c] sum_times_c 10
              eq_refl eq_refl He) as (_ & Hc & Hal & _).
  split; [exact Hc|exact Hal].
Defined.

(** X12: [getSubExpr] is idempotent up to node addresses: extracting again,
    with the same variables, from an expression it returned gives an
    expression of the same structure; and [getSubExprOld] returns such an
    expression as it is, the same node. *)
Theorem X12_getSubExpr_idempotent (e r : ExprNode) (vars : list IndexVar)
    (n m : NodePtr) :
  (getSubExpr e vars n).1 = Some r ->
  forget <$> (getSubExpr r vars m).1 = Some (forget r)
  /\ getSubExprOld r vars = Some r.
Proof.
  unfold getSubExpr, getSubExprOld. generalize (list_to_set vars : gset IndexVar).
  clear vars. intros vars.
  revert r n m. induction e as [p t ivs|p k a IH|p k a IHa b IHb|p v]; intros r n m.
  - cbn [SubExprVisitor.getSubExpression]. unfold ret. cbn [fst].
    destruct (accessKept vars ivs) eqn:E; [|done]. intros [= <-].
    cbn [SubExprVisitor.getSubExpression SubExprVisitorOld.getSubExpression]. unfold ret.
    by rewrite E.
  - rewrite getSubExpression_unary. cbv zeta. cbn [fst].
    rewrite getSubExpression_defined.
    destruct (mentions vars a) eqn:E; [|done]. intros [= <-].
    rewrite getSubExpression_unary. cbv zeta. cbn [fst].
    cbn [SubExprVisitorOld.getSubExpression].
    by rewrite getSubExpression_defined, getSubExpressionOld_defined, E.
  - pose proof (fun r => IHa r n) as Ha'.
    pose proof (fun r => IHb r (SubExprVisitor.getSubExpression vars a n).2) as Hb'. clear IHa IHb.
    rewrite getSubExpression_binary. cbv zeta.
    destruct (SubExprVisitor.getSubExpression vars a n) as [[a'|] n1]; cbn [fst snd] in *;
      destruct (SubExprVisitor.getSubExpression vars b n1) as [[b'|] n2]; cbn [fst snd] in *;
      intros [= <-]; [|by apply Ha'|by apply Hb'].
    destruct (Ha' a' m eq_refl) as [Ha1 Ha2].
    destruct (Hb' b' (SubExprVisitor.getSubExpression vars a' m).2 eq_refl) as [Hb1 Hb2].
    split.
    + rewrite getSubExpression_binary. cbv zeta.
      destruct (SubExprVisitor.getSubExpression vars a' m) as [[a''|] m1]; cbn [fst snd] in *;
        [|done].
      destruct (SubExprVisitor.getSubExpression vars b' m1) as [[b''|] m2]; cbn [fst snd] in *;
        [|done].
      simpl in *. congruence.
    + cbn [SubExprVisitorOld.getSubExpression]. by rewrite Ha2, Hb2.
  - done.
Qed.

Lemma X12_getSubExpr_idempotent_witness :
  let r := BinaryExprNode 10 Mul (AccessNode 1 tensor_a [var_i])
             (AccessNode 4 tensor_c [var_i]) in
  forget <$> (getSubExpr r [var_i] 20%positive).1 = Some (forget r)
  /\ getSubExprOld r [var_i] = Some r.
Proof.
  intros r.
  exact (X12_getSubExpr_idempotent sum_times_c r [var_i] 10 20 eq_refl).
Defined.

(** X13: when every leaf of the expression is an Access with an index
    variable in the set, nothing is pruned: [getSubExprOld] returns the
    expression itself, and [getSubExpr] a copy of the same structure. *)
Theorem X13_getSubExpr_keeps_everything (e : ExprNode) (vars : list IndexVar)
    (n : NodePtr) :
  allKept (list_to_set vars) e = true ->
  getSubExprOld e vars = Some e
  /\ forget <$> (getSubExpr e vars n).1 = Some (forget e).
Proof.
  unfold getSubExpr, getSubExprOld. generalize (list_to_set vars : gset IndexVar).
  clear vars. intros vars.
  revert n. induction e as [p t ivs|p k a IH|p k a IHa b IHb|p v]; intros n.
  - unfold allKept. cbn [leaves forallb]. rewrite andb_true_r. intros E.
    cbn [SubExprVisitorOld.getSubExpression SubExprVisitor.getSubExpression].
    unfold ret. by rewrite E.
  - intros Hk. destruct (IH n Hk) as [Hold Hnew].
    rewrite getSubExpression_unary. cbv zeta. cbn [fst].
    cbn [SubExprVisitorOld.getSubExpression]. rewrite Hold.
    destruct (SubExprVisitor.getSubExpression vars a n).1 as [a'|]; [|done].
    simpl in *. by simplify_eq.
  - rewrite allKept_binary. intros [Hka Hkb]%andb_true_iff.
    destruct (IHa n Hka) as [Holda Hnewa].
    destruct (IHb (SubExprVisitor.getSubExpression vars a n).2 Hkb) as [Holdb Hnewb].
    rewrite getSubExpression_binary. cbv zeta.
    cbn [SubExprVisitorOld.getSubExpression]. rewrite Holda, Holdb.
    destruct (SubExprVisitor.getSubExpression vars a n) as [[a'|] n1];
      cbn [fst snd] in *; [|done].
    destruct (SubExprVisitor.getSubExpression vars b n1) as [[b'|] n2];
      cbn [fst snd] in *; [|done].
    simpl in *. split; [done|]. congruence.
  - done.
Qed.

Lemma X13_getSubExpr_keeps_everything_witness :
  getSubExprOld sum_times_c [var_i; var_j] = Some sum_times_c
  /\ forget <$> (getSubExpr sum_times_c [var_i; var_j] 10%positive).1
     = Some (forget sum_times_c).
Proof.
  exact (X13_getSubExpr_keeps_everything sum_times_c [var_i; var_j] 10 eq_refl).
Defined.

(** X14: both routines are monotone in the set of variables: defined for a
    set, they are defined for every larger one.  When [getSubExpr] is
    undefined for the larger set, the call for the smaller one returns the
    undefined expression and allocates nothing; so does every call with the
    empty set. *)
Theorem X14_getSubExpr_monotone (e : ExprNode) (vars vars' : list IndexVar)
    (n : NodePtr) :
  vars ⊆ vars' ->
  (defined (getSubExpr e vars n).1 = true -> defined (getSubExpr e vars' n).1 = true)
  /\ (defined (getSubExprOld e vars) = true -> defined (getSubExprOld e vars') = true)
  /\ ((getSubExpr e vars' n).1 = None -> getSubExpr e vars n = (None, n))
  /\ getSubExpr e [] n = (None, n)
  /\ getSubExprOld e [] = None.
Proof.
  intros Hincl. unfold getSubExpr, getSubExprOld.
  assert (Hsets : (list_to_set vars : gset IndexVar) ⊆ list_to_set vars').
  { intros v Hv. apply elem_of_list_to_set. apply elem_of_list_to_set in Hv.
    by apply Hincl. }
  assert (Hnone : forall (s : gset IndexVar) m, mentions s e = false ->
            SubExprVisitor.getSubExpression s e m = (None, m)).
  { intros s m Hm. pose proof (getSubExpression_defined s e m) as Hd.
    pose proof (getSubExpression_undefined s e m) as Hu.
    destruct (SubExprVisitor.getSubExpression s e m) as [[r|] m']; cbn [fst snd] in *.
    - rewrite Hm in Hd. done.
    - by rewrite Hu. }
  rewrite !getSubExpression_defined, !getSubExpressionOld_defined.
  split; [by apply mentions_mono|]. split; [by apply mentions_mono|]. split; [|split].
  - intros Hu. apply Hnone.
    pose proof (getSubExpression_defined (list_to_set vars') e n) as Hd.
    rewrite Hu in Hd. cbn [defined] in Hd.
    destruct (mentions (list_to_set vars) e) eqn:E; [|done].
    apply (mentions_mono _ _ _ Hsets) in E. congruence.
  - apply Hnone. apply mentions_empty.
  - pose proof (getSubExpressionOld_defined (list_to_set []) e) as Hd.
    cbn [list_to_set] in *. rewrite mentions_empty in Hd.
    by destruct (SubExprVisitorOld.getSubExpression ∅ e).
Qed.

Lemma X14_getSubExpr_monotone_witness :
  [var_j] ⊆ [var_j; var_k]
  /\ defined (getSubExpr sum_times_c [var_j; var_k] 10%positive).1 = true
  /\ getSubExpr sum_times_c [] 10%positive = (None, 10%positive).
Proof.
  assert (Hincl : [var_j] ⊆ [var_j; var_k]).
  { intros v Hv. apply list_elem_of_singleton in Hv as ->. apply list_elem_of_here. }
  split; [exact Hincl|].
  destruct (X14_getSubExpr_monotone sum_times_c [var_j] [var_j; var_k] 10 Hincl)
    as (Hmono & _ & _ & Hempty & _).
  split; [exact (Hmono eq_refl)|exact Hempty].
Defined.

(** * Available expressions: further proofs *)

Section AvailableMore.

Variable visitedVars : gset IndexVar.

Lemma get_cover (e : ExprNode) (vars : list IndexVar) :
  getAvailableExpressions e vars = Some (cover (list_to_set vars) e).
Proof.
  unfold getAvailableExpressions, ExtractAvailableExpressions.get.
  rewrite visit_spec. cbn [ExtractAvailableExpressions.activeExpressions snd fst].
  unfold cover, ExtractAvailableExpressions.push_back.
  destruct (isAvailable (list_to_set vars) e); simpl; by rewrite ?app_nil_r.
Qed.

Lemma isAvailable_sub (e x : ExprNode) :
  x ∈ subterms e -> isAvailable visitedVars e = true -> isAvailable visitedVars x = true.
Proof.
  induction e as [p t ivs|p k a IH|p k a IHa b IHb|p v]; cbn [subterms];
    intros Hx Hav; apply elem_of_cons in Hx as [->|Hx]; try done.
  - by apply elem_of_nil in Hx.
  - by apply IH.
  - rewrite isAvailable_binary in Hav. apply andb_true_iff in Hav as [Ha Hb].
    apply elem_of_app in Hx as [Hx|Hx]; auto.
  - by apply elem_of_nil in Hx.
Qed.

Lemma handedOver_complete (e x : ExprNode) :
  x ∈ subterms e -> isAvailable visitedVars x = true ->
  isAvailable visitedVars e = false ->
  exists y, y ∈ handedOver visitedVars e /\ x ∈ subterms y.
Proof.
  intros Hx Hav.
  induction e as [p t ivs|p k a IH|p k a IHa b IHb|p v]; cbn [subterms] in Hx;
    intros Ee; apply elem_of_cons in Hx as [->|Hx]; try congruence.
  - by apply elem_of_nil in Hx.
  - rewrite isAvailable_unary in Ee. cbn [handedOver]. by apply IH.
  - rewrite isAvailable_binary in Ee. cbn [handedOver].
    apply elem_of_app in Hx as [Hx|Hx].
    + destruct (isAvailable visitedVars a) eqn:Ea.
      * cbn [andb] in Ee. rewrite Ee. exists a. split; [|done].
        apply elem_of_app. right. apply elem_of_app. right. apply list_elem_of_here.
      * destruct (IHa Hx eq_refl) as (y & Hy & Hxy). exists y. split; [|done].
        apply elem_of_app. by left.
    + destruct (isAvailable visitedVars b) eqn:Eb.
      * rewrite andb_true_r in Ee. rewrite Ee. exists b. split; [|done].
        apply elem_of_app. right. apply elem_of_app. right. apply list_elem_of_here.
      * destruct (IHb Hx eq_refl) as (y & Hy & Hxy). exists y. split; [|done].
        apply elem_of_app. right. apply elem_of_app. by left.
  - by apply elem_of_nil in Hx.
Qed.

(** Every available node of the expression lies within a returned one. *)
Lemma cover_complete (e x : ExprNode) :
  x ∈ subterms e -> isAvailable visitedVars x = true ->
  exists y, y ∈ cover visitedVars e /\ x ∈ subterms y.
Proof.
  intros Hx Hav. unfold cover.
  destruct (isAvailable visitedVars e) eqn:Ee.
  - exists e. split; [|done]. apply elem_of_app. right. apply list_elem_of_here.
  - rewrite app_nil_r. by apply handedOver_complete.
Qed.

(** An operand handed over sits under a binary node of the expression whose
    other operand is not available. *)
Lemma handedOver_origin (e y : ExprNode) :
  y ∈ handedOver visitedVars e ->
  exists p k a b, BinaryExprNode p k a b ∈ subterms e
    /\ (y = a /\ isAvailable visitedVars b = false
        \/ y = b /\ isAvailable visitedVars a = false).
Proof.
  induction e as [p t ivs|p k a IH|p k a IHa b IHb|p v]; cbn [handedOver]; intros Hy.
  - by apply elem_of_nil in Hy.
  - destruct (IH Hy) as (q & k' & a' & b' & Hin & Hcase).
    exists q, k', a', b'. split; [|done]. cbn [subterms]. apply elem_of_cons. by right.
  - assert (Hup : forall z, z ∈ subterms a \/ z ∈ subterms b ->
                    z ∈ subterms (BinaryExprNode p k a b)).
    { intros z Hz. cbn [subterms]. apply elem_of_cons. right. by apply elem_of_app. }
    apply elem_of_app in Hy as [Hy|Hy].
    { destruct (IHa Hy) as (q & k' & a' & b' & Hin & Hcase).
      exists q, k', a', b'. split; [auto|done]. }
    apply elem_of_app in Hy as [Hy|Hy].
    { destruct (IHb Hy) as (q & k' & a' & b' & Hin & Hcase).
      exists q, k', a', b'. split; [auto|done]. }
    exists p, k, a, b. split; [apply subterms_self|].
    destruct (isAvailable visitedVars a) eqn:Ea, (isAvailable visitedVars b) eqn:Eb;
      try (by apply elem_of_nil in Hy); apply list_elem_of_singleton in Hy as ->; auto.
  - by apply elem_of_nil in Hy.
Qed.

Lemma leaves_nonempty (e : ExprNode) : leaves e <> [].
Proof.
  induction e as [p t ivs|p k a IH|p k a IHa b IHb|p v]; cbn [leaves]; try done.
  intros [H _]%app_eq_nil. done.
Qed.

(** Nothing is returned exactly when no leaf is available. *)
Lemma cover_nil (e : ExprNode) :
  cover visitedVars e = [] <->
  Forall (fun x => availableLeaf visitedVars x = false) (leaves e).
Proof.
  pose proof (cover_leaves visitedVars e) as Hperm. split.
  - intros Hnil. rewrite Hnil in Hperm. cbn in Hperm.
    apply Permutation_nil_l in Hperm. apply Forall_forall. intros x Hx.
    destruct (availableLeaf visitedVars x) eqn:E; [|done].
    by apply (filter_nil_not_elem_of _ _ x (eq_sym Hperm)) in Hx.
  - intros Hall.
    assert (Hf : filter (fun x => availableLeaf visitedVars x = true) (leaves e) = []).
    { revert Hall. generalize (leaves e). intros l.
      induction l as [|x l IH]; [done|]. intros [Hx Hl]%Forall_cons.
      rewrite filter_cons_False by congruence. by apply IH. }
    rewrite Hf in Hperm. apply Permutation_nil_r in Hperm.
    destruct (cover visitedVars e) as [|y l]; [done|].
    cbn in Hperm. apply app_eq_nil in Hperm as [Hy _].
    by apply leaves_nonempty in Hy.
Qed.

End AvailableMore.

Lemma isAvailable_mono (s s' : gset IndexVar) (e : ExprNode) :
  s ⊆ s' -> isAvailable s e = true -> isAvailable s' e = true.
Proof.
  intros Hincl. unfold isAvailable. rewrite !forallb_forall. intros H x Hx.
  specialize (H x Hx). destruct x as [p t ivs|p k a|p k a b|p v]; try done.
  cbn [availableLeaf] in *. rewrite forallb_forall in *. intros v Hv.
  apply bool_decide_eq_true. apply H, bool_decide_eq_true in Hv. by apply Hincl.
Qed.

Lemma cover_whole (s : gset IndexVar) (e : ExprNode) :
  cover s e = [e] <-> isAvailable s e = true.
Proof.
  unfold cover. split.
  - destruct (isAvailable s e); [done|]. rewrite app_nil_r. intros Hl.
    assert (He : e ∈ handedOver s e) by (rewrite Hl; apply list_elem_of_here).
    by destruct (handedOver_sound s e e He) as (_ & Hne & _).
  - intros Hav. by rewrite Hav, (handedOver_available s e Hav).
Qed.

(** X15: the expressions [getAvailableExpressions] returns are maximal, and
    they miss nothing: every available node of the expression lies within a
    returned expression, and a returned expression is the whole expression,
    returned alone, or an operand of a binary node of the expression whose
    other operand is not available. *)
Theorem X15_available_expressions_are_maximal (e : ExprNode) (vars : list IndexVar)
    (l : list ExprNode) :
  getAvailableExpressions e vars = Some l ->
  (forall x, x ∈ subterms e -> isAvailable (list_to_set vars) x = true ->
     exists y, y ∈ l /\ x ∈ subterms y)
  /\ (forall y, y ∈ l ->
        (y = e /\ l = [e])
        \/ exists p k a b,
             BinaryExprNode p k a b ∈ subterms e
             /\ (y = a /\ isAvailable (list_to_set vars) b = false
                 \/ y = b /\ isAvailable (list_to_set vars) a = false)).
Proof.
  rewrite get_cover. intros [= <-]. split.
  - intros x Hx Hav. by apply cover_complete.
  - intros y Hy. unfold cover in Hy. apply elem_of_app in Hy as [Hy|Hy].
    + right. by apply handedOver_origin.
    + left. destruct (isAvailable (list_to_set vars) e) eqn:Ee.
      * apply list_elem_of_singleton in Hy as ->. split; [done|]. by apply cover_whole.
      * by apply elem_of_nil in Hy.
Qed.

Lemma X15_available_expressions_are_maximal_witness :
  exists y, y ∈ [product_ab] /\ AccessNode 1 tensor_a [var_i] ∈ subterms y.
Proof.
  destruct (X15_available_expressions_are_maximal product_plus_c [var_i] [product_ab]
              eq_refl) as [Hcomplete _].
  apply (Hcomplete (AccessNode 1 tensor_a [var_i])); [|reflexivity].
  apply list_elem_of_further, list_elem_of_further, list_elem_of_here.
Defined.

(** X16: the result grows with the visited variables: every expression
    returned for a set lies within an expression returned for a larger set.
    The whole expression is returned, alone, exactly when it is available,
    and then it is for every larger set; nothing is returned exactly when no
    leaf is available. *)
Theorem X16_available_expressions_grow (e : ExprNode) (vars vars' : list IndexVar)
    (l l' : list ExprNode) :
  vars ⊆ vars' ->
  getAvailableExpressions e vars = Some l ->
  getAvailableExpressions e vars' = Some l' ->
  (forall x, x ∈ l -> exists y, y ∈ l' /\ x ∈ subterms y)
  /\ (l = [e] <-> isAvailable (list_to_set vars) e = true)
  /\ (l = [e] -> l' = [e])
  /\ (l = [] <->
      Forall (fun x => availableLeaf (list_to_set vars) x = false) (leaves e)).
Proof.
  intros Hincl. rewrite !get_cover. intros [= <-] [= <-].
  assert (Hsets : (list_to_set vars : gset IndexVar) ⊆ list_to_set vars').
  { intros v Hv. apply elem_of_list_to_set. apply elem_of_list_to_set in Hv.
    by apply Hincl. }
  split; [|split; [|split]].
  - intros x Hx. apply cover_complete.
    + unfold cover in Hx. apply elem_of_app in Hx as [Hx|Hx].
      * by destruct (handedOver_sound _ _ _ Hx) as (? & _).
      * destruct (isAvailable (list_to_set vars) e); [|by apply elem_of_nil in Hx].
        apply list_elem_of_singleton in Hx as ->. apply subterms_self.
    + apply (isAvailable_mono _ _ _ Hsets).
      unfold cover in Hx. apply elem_of_app in Hx as [Hx|Hx].
      * by destruct (handedOver_sound _ _ _ Hx) as (_ & _ & ?).
      * destruct (isAvailable (list_to_set vars) e) eqn:Ee;
          [|by apply elem_of_nil in Hx].
        by apply list_elem_of_singleton in Hx as ->.
  - apply cover_whole.
  - intros Hl. apply cover_whole. apply (isAvailable_mono _ _ _ Hsets).
    by apply cover_whole.
  - apply cover_nil.
Qed.

Lemma X16_available_expressions_grow_witness :
  [var_i] ⊆ [var_i; var_j]
  /\ exists y, y ∈ [product_plus_c] /\ product_ab ∈ subterms y.
Proof.
  assert (Hincl : [var_i] ⊆ [var_i; var_j]).
  { intros v Hv. apply list_elem_of_singleton in Hv as ->. apply list_elem_of_here. }
  split; [exact Hincl|].
  destruct (X16_available_expressions_grow product_plus_c [var_i] [var_i; var_j]
              [product_ab] [product_plus_c] Hincl eq_refl eq_refl) as [Hgrow _].
  apply Hgrow. apply list_elem_of_here.
Defined.

(** * Tensor variables of a kernel: proofs *)

Section TensorVarsFacts.

Variable Var_make : string -> Type_ -> Format -> ir.Expr.
Variable getOperands : IndexExpr -> list TensorVar.
Variable h : Heap.

Lemma packOperands_Some (operands : list TensorVar) (parameters : list ir.Expr)
    (mapping : gmap TensorVar ir.Expr) :
  NoDup operands -> (forall t, t ∈ operands -> mapping !! t = None) ->
  exists mapping',
    packOperands Var_make h operands parameters mapping
    = Some (parameters
            ++ ((fun t => Var_make (name (h t)) (type (h t)) (format (h t))) <$> operands),
            mapping')
    /\ forall t, mapping' !! t =
         if bool_decide (t ∈ operands)
         then Some (Var_make (name (h t)) (type (h t)) (format (h t)))
         else mapping !! t.
Proof.
  revert parameters mapping.
  induction operands as [|o operands IH]; intros parameters mapping Hnd Hfresh.
  - exists mapping. cbn [packOperands fmap list_fmap]. rewrite app_nil_r.
    split; [done|]. intros t. rewrite bool_decide_eq_false_2; [done|].
    apply not_elem_of_nil.
  - apply NoDup_cons in Hnd as [Hno Hnd]. cbn [packOperands].
    rewrite (Hfresh o) by apply list_elem_of_here.
    rewrite bool_decide_eq_false_2 by (by intros [? ?]).
    destruct (IH (parameters ++ [Var_make (name (h o)) (type (h o)) (format (h o))])
                (<[o := Var_make (name (h o)) (type (h o)) (format (h o))]> mapping) Hnd)
      as (mapping' & -> & Hlook).
    { intros t Ht. rewrite lookup_insert_ne; [|by intros ->].
      by apply Hfresh, list_elem_of_further. }
    exists mapping'. split; [by rewrite fmap_cons, <- app_assoc|].
    intros t. rewrite Hlook. destruct (decide (t = o)) as [->|Hne].
    + rewrite (bool_decide_eq_false_2 _ Hno).
      rewrite (bool_decide_eq_true_2 (o ∈ o :: operands)) by apply list_elem_of_here.
      by rewrite lookup_insert_eq.
    + rewrite lookup_insert_ne by done.
      destruct (decide (t ∈ operands)) as [Hin|Hnin].
      * rewrite !bool_decide_eq_true_2; [done|by apply list_elem_of_further|done].
      * rewrite !bool_decide_eq_false_2; [done| |done].
        intros [?|?]%elem_of_cons; done.
Qed.

Lemma packOperands_NoDup (operands : list TensorVar) (parameters : list ir.Expr)
    (mapping : gmap TensorVar ir.Expr) :
  is_Some (packOperands Var_make h operands parameters mapping) ->
  NoDup operands /\ forall t, t ∈ operands -> mapping !! t = None.
Proof.
  revert parameters mapping.
  induction operands as [|o operands IH]; intros parameters mapping.
  - intros _. split; [constructor|]. intros t Ht. by apply elem_of_nil in Ht.
  - cbn [packOperands]. case_bool_decide as Ho; [by intros [? ?]|].
    assert (Hnone : mapping !! o = None).
    { destruct (mapping !! o) eqn:E; [|done]. exfalso. apply Ho. by eexists. }
    rewrite Hnone. intros [Hnd Hfresh]%IH. split.
    + apply NoDup_cons. split; [|done]. intros Hin.
      specialize (Hfresh o Hin). by rewrite lookup_insert_eq in Hfresh.
    + intros t [->|Ht]%elem_of_cons; [done|].
      specialize (Hfresh t Ht). destruct (decide (t = o)) as [->|Hne]; [done|].
      by rewrite lookup_insert_ne in Hfresh.
Qed.

End TensorVarsFacts.

(** X17: [getTensorVars] passes its assertion exactly when the result
    tensor and the operands of its definition are pairwise distinct.  It
    then returns the variable of the result tensor as the only result, the
    variables of the operands, in their order, as parameters, and a mapping
    that takes the result tensor and every operand to its variable and is
    defined on no other tensor. *)
Theorem X17_getTensorVars (Var_make : string -> Type_ -> Format -> ir.Expr)
    (getOperands : IndexExpr -> list TensorVar) (h : Heap) (tensor : TensorVar) :
  let operands := getOperands (indexExpr (h tensor)) in
  let var := fun t => Var_make (name (h t)) (type (h t)) (format (h t)) in
  (is_Some (getTensorVars Var_make getOperands h tensor)
   <-> NoDup (tensor :: operands))
  /\ forall parameters results mapping,
       getTensorVars Var_make getOperands h tensor = Some (parameters, results, mapping) ->
       results = [var tensor]
       /\ parameters = var <$> operands
       /\ forall t, mapping !! t =
            if bool_decide (t ∈ tensor :: operands) then Some (var t) else None.
Proof.
  intros operands var. unfold getTensorVars. fold operands.
  set (start := <[tensor := Var_make (name (h tensor)) (type (h tensor))
                              (format (h tensor))]> (∅ : gmap TensorVar ir.Expr)).
  assert (Hstart : forall t, start !! t = if decide (t = tensor) then Some (var t) else None).
  { intros t. unfold start. destruct (decide (t = tensor)) as [->|Hne].
    - by rewrite lookup_insert_eq.
    - by rewrite lookup_insert_ne. }
  assert (Hok : NoDup (tensor :: operands) ->
            exists mapping,
              packOperands Var_make h operands [] start = Some (var <$> operands, mapping)
              /\ forall t, mapping !! t =
                   if bool_decide (t ∈ tensor :: operands) then Some (var t) else None).
  { intros [Hno Hnd]%NoDup_cons.
    destruct (packOperands_Some Var_make h operands [] start Hnd)
      as (mapping & Hpack & Hlook).
    { intros t Ht. rewrite Hstart. by rewrite decide_False by (by intros ->). }
    exists mapping. split; [done|]. intros t. rewrite Hlook, Hstart.
    destruct (decide (t = tensor)) as [->|Hne].
    - rewrite (bool_decide_eq_false_2 _ Hno).
      by rewrite bool_decide_eq_true_2 by apply list_elem_of_here.
    - destruct (decide (t ∈ operands)) as [Hin|Hnin].
      + rewrite !bool_decide_eq_true_2; [done|by apply list_elem_of_further|done].
      + rewrite !bool_decide_eq_false_2; [done| |done].
        intros [?|?]%elem_of_cons; done. }
  assert (Hnd : is_Some (packOperands Var_make h operands [] start) ->
            NoDup (tensor :: operands)).
  { intros [Hnd Hfresh]%packOperands_NoDup. apply NoDup_cons. split; [|done].
    intros Hin. specialize (Hfresh _ Hin). rewrite Hstart in Hfresh.
    by rewrite decide_True in Hfresh. }
  split; [split|].
  - destruct (packOperands Var_make h operands [] start) as [[ps m]|] eqn:E.
    + intros _. apply Hnd. by eexists.
    + by intros [? ?].
  - intros (mapping & -> & _)%Hok. by eexists.
  - intros parameters results mapping.
    destruct (packOperands Var_make h operands [] start) as [[ps m]|] eqn:E; [|done].
    intros [= <- <- <-].
    destruct Hok as (mapping & Hpack & Hlook); [apply Hnd; by eexists|].
    rewrite ?E in Hpack. by injection Hpack as -> ->.
Qed.

Lemma X17_getTensorVars_witness :
  is_Some (getTensorVars named_var accessed_tensors a_is_b_plus_c tensor_a).
Proof.
  apply (X17_getTensorVars named_var accessed_tensors a_is_b_plus_c tensor_a).
  vm_compute. repeat constructor; intros H; repeat (apply elem_of_cons in H as [H|H]);
    try discriminate H; by apply elem_of_nil in H.
Defined.

(** * Scalar lowering: further proofs *)

Section LoweringFrame.

Context {TensorPath TensorPathStep : Type}.
Variable getLastStep : TensorPath -> TensorPathStep.
Variable leftFirst : ExprNode -> bool.

(** Lowering reads the temporaries and the orders at the tensors the
    expression accesses, and the graph and the table at what it looks up. *)
Lemma lower_frame (h h' : Heap) (iterators iterators' : Iterators TensorPath TensorPathStep)
    (iterationGraph iterationGraph' : IterationGraph TensorPath)
    (temporaries temporaries' : gmap TensorVar ir.Expr) (e : ExprNode) :
  (forall op, op ∈ accesses e ->
     temporaries' !! op.1 = temporaries !! op.1 /\ getOrder h' op.1 = getOrder h op.1) ->
  (forall asked,
     asked ∈ (lower getLastStep leftFirst h iterators iterationGraph temporaries e).2 ->
     sameAnswer iterators iterators' iterationGraph iterationGraph' asked) ->
  lower getLastStep leftFirst h' iterators' iterationGraph' temporaries' e
  = lower getLastStep leftFirst h iterators iterationGraph temporaries e.
Proof.
  induction e as [p t ivs|p k a IH|p k a IHa b IHb|p v]; cbn [accesses].
  - intros Hread Hans. destruct (Hread (t, ivs)) as [Htmp Hord]; [apply list_elem_of_here|].
    cbn [fst] in *. revert Hans. cbn [lower]. unfold lowerAccess, getOrder in *.
    rewrite Htmp, Hord.
    destruct (temporaries !! t); [done|].
    destruct (length (getShape (type (h t))) =? 0)%nat; cbn [snd]; intros Hans.
    + pose proof (Hans _ (list_elem_of_here _ _)) as Hp. cbn in Hp. rewrite Hp.
      pose proof (Hans _ (list_elem_of_further _ _ _ (list_elem_of_here _ _))) as Hr.
      cbn in Hr. by rewrite Hr.
    + pose proof (Hans _ (list_elem_of_here _ _)) as Hp. cbn in Hp. rewrite Hp.
      pose proof (Hans _ (list_elem_of_further _ _ _ (list_elem_of_here _ _))) as Hr.
      cbn in Hr. by rewrite Hr.
  - intros Hread Hans. rewrite lower_unary in Hans. cbn [snd] in Hans.
    rewrite !lower_unary. by rewrite IH.
  - intros Hread Hans. rewrite lower_binary in Hans. cbn [snd] in Hans.
    rewrite !lower_binary. rewrite IHa, IHb; [done|..].
    + intros op Hop. apply Hread. apply elem_of_app. by right.
    + intros asked Hasked. apply Hans.
      destruct (leftFirst _); apply elem_of_app; [by right|by left].
    + intros op Hop. apply Hread. apply elem_of_app. by left.
    + intros asked Hasked. apply Hans.
      destruct (leftFirst _); apply elem_of_app; [by left|by right].
  - done.
Qed.

(** Two look-ups for each access outside the temporaries, none otherwise. *)
Lemma lower_lookups_length (h : Heap) (iterators : Iterators TensorPath TensorPathStep)
    (iterationGraph : IterationGraph TensorPath)
    (temporaries : gmap TensorVar ir.Expr) (e : ExprNode) :
  length (lower getLastStep leftFirst h iterators iterationGraph temporaries e).2
  = 2 * length (filter (fun op : TensorVar * list IndexVar => temporaries !! op.1 = None)
                  (accesses e)).
Proof.
  induction e as [p t ivs|p k a IH|p k a IHa b IHb|p v]; cbn [accesses].
  - cbn [lower]. unfold lowerAccess. destruct (temporaries !! t) eqn:E.
    + by rewrite filter_cons_False by (cbn [fst]; by rewrite E).
    + rewrite filter_cons_True by done.
      by destruct (length (getShape (type (h t))) =? 0)%nat.
  - by rewrite lower_unary.
  - rewrite lower_binary, filter_app, length_app. cbn [snd].
    destruct (leftFirst _); rewrite length_app; lia.
  - done.
Qed.

End LoweringFrame.

(** X18: the footprint of the lowering.  The lowering of an expression
    reads the temporaries and the orders of the tensors the expression
    accesses, and reads the iteration graph and the iterator table only at
    what it looks up: with other temporaries, another heap, another graph and
    another table that agree on these, the result is the same.  It makes two
    look-ups for each access to a tensor outside the temporaries, and no
    other. *)
Theorem X18_lowering_footprint {TensorPath TensorPathStep : Type}
    (getLastStep : TensorPath -> TensorPathStep) (leftFirst : ExprNode -> bool)
    (h h' : Heap)
    (iterators iterators' : Iterators TensorPath TensorPathStep)
    (iterationGraph iterationGraph' : IterationGraph TensorPath)
    (temporaries temporaries' : gmap TensorVar ir.Expr) (e : ExprNode) :
  (forall op, op ∈ accesses e ->
     temporaries' !! op.1 = temporaries !! op.1 /\ getOrder h' op.1 = getOrder h op.1) ->
  (forall asked,
     asked ∈ (lowerToScalarExpression getLastStep leftFirst h iterators iterationGraph
                temporaries e).2 ->
     sameAnswer iterators iterators' iterationGraph iterationGraph' asked) ->
  lowerToScalarExpression getLastStep leftFirst h' iterators' iterationGraph' temporaries' e
  = lowerToScalarExpression getLastStep leftFirst h iterators iterationGraph temporaries e
  /\ length (lowerToScalarExpression getLastStep leftFirst h iterators iterationGraph
               temporaries e).2
     = 2 * length (filter (fun op : TensorVar * list IndexVar =>
                             temporaries !! op.1 = None) (accesses e)).
Proof.
  unfold lowerToScalarExpression. intros Hread Hans. split.
  - by apply lower_frame.
  - apply lower_lookups_length.
Qed.

Lemma X18_lowering_footprint_witness :
  let temporaries : gmap TensorVar ir.Expr := {[ tensor_a := ir.Var 9 ]} in
  let temporaries' : gmap TensorVar ir.Expr := <[ tensor_c := ir.Var 8 ]> temporaries in
  lowerToScalarExpression (fun path : nat => path) (fun _ => true) a_defined two_iterators
    numbered_graph temporaries' sum_ab_1
  = lowerToScalarExpression (fun path : nat => path) (fun _ => true) vectors two_iterators
      numbered_graph temporaries sum_ab_1
  /\ length (lowerToScalarExpression (fun path : nat => path) (fun _ => true) vectors
               two_iterators numbered_graph temporaries sum_ab_1).2 = 2.
Proof.
  intros temporaries temporaries'.
  apply (X18_lowering_footprint (fun path : nat => path) (fun _ => true) vectors a_defined
           two_iterators two_iterators numbered_graph numbered_graph
           temporaries temporaries' sum_ab_1).
  - intros op Hop. apply elem_of_cons in Hop as [->|Hop]; [split; reflexivity|].
    apply list_elem_of_singleton in Hop as ->. split; reflexivity.
  - intros asked _. destruct asked; reflexivity.
Defined.

(** * Binding and the analyses: proofs *)

Lemma insertAccessRanges_keeps (t : TensorVar) (h h' : Heap)
    (ops : list (TensorVar * list IndexVar)) (m : gmap IndexVar Dimension) :
  keeps t h h' -> insertAccessRanges h' ops m = insertAccessRanges h ops m.
Proof.
  intros [Hdecl _]. revert m. induction ops as [|[t' ivs] ops IH]; intros m; [done|].
  cbn [insertAccessRanges]. destruct (Hdecl t') as (_ & -> & _).
  destruct (insertRanges ivs (getShape (type (h t'))) 0 m); [apply IH|done].
Qed.

Lemma packOperands_keeps (Var_make : string -> Type_ -> Format -> ir.Expr)
    (t : TensorVar) (h h' : Heap) (operands : list TensorVar)
    (parameters : list ir.Expr) (mapping : gmap TensorVar ir.Expr) :
  keeps t h h' ->
  packOperands Var_make h' operands parameters mapping
  = packOperands Var_make h operands parameters mapping.
Proof.
  intros [Hdecl _]. revert parameters mapping.
  induction operands as [|o operands IH]; intros parameters mapping; [done|].
  cbn [packOperands]. destruct (Hdecl o) as (-> & -> & ->).
  case_bool_decide; [done|]. apply IH.
Qed.

(** X19: a binding does not disturb the analyses.  Whatever its outcome, a
    binding through [setIndexExpression], [operator=] or [operator+=] leaves
    the lowering of every expression as it was, and leaves the index
    variables, the index-variable ranges and the kernel variables of every
    tensor other than its target as they were. *)
Theorem X19_binding_leaves_analyses {TensorPath TensorPathStep : Type}
    (getLastStep : TensorPath -> TensorPathStep) (leftFirst : ExprNode -> bool)
    (iterators : Iterators TensorPath TensorPathStep)
    (iterationGraph : IterationGraph TensorPath)
    (temporaries : gmap TensorVar ir.Expr)
    (error : ErrorChecks) (h : Heap) (this : Access)
    (fv : list IndexVar) (expr : IndexExpr) (acc : bool) :
  Forall (fun op : Cmd unit =>
            let h' := (op h).2 in
            (forall e,
               lowerToScalarExpression getLastStep leftFirst h' iterators iterationGraph
                 temporaries e
               = lowerToScalarExpression getLastStep leftFirst h iterators iterationGraph
                   temporaries e)
            /\ (forall tensor, tensor <> getTensorVar this ->
                  getIndexVarRanges h' tensor = getIndexVarRanges h tensor
                  /\ getTensorIndexVars h' tensor = getTensorIndexVars h tensor
                  /\ forall Var_make getOperands,
                       getTensorVars Var_make getOperands h' tensor
                       = getTensorVars Var_make getOperands h tensor))
    [setIndexExpression error (getTensorVar this) fv expr acc;
     Access_assign error this expr; Access_accumulate error this expr].
Proof.
  assert (Hall : forall h', keeps (getTensorVar this) h h' ->
            (forall e,
               lowerToScalarExpression getLastStep leftFirst h' iterators iterationGraph
                 temporaries e
               = lowerToScalarExpression getLastStep leftFirst h iterators iterationGraph
                   temporaries e)
            /\ (forall tensor, tensor <> getTensorVar this ->
                  getIndexVarRanges h' tensor = getIndexVarRanges h tensor
                  /\ getTensorIndexVars h' tensor = getTensorIndexVars h tensor
                  /\ forall Var_make getOperands,
                       getTensorVars Var_make getOperands h' tensor
                       = getTensorVars Var_make getOperands h tensor)).
  { intros h' Hk. destruct (keeps_wellFormed _ _ _ Hk) as [Hord _]. split.
    - intros e. unfold lowerToScalarExpression. apply lower_frame.
      + intros op _. split; [done|apply Hord].
      + intros asked _. by destruct asked.
    - intros tensor Hne. pose proof (proj2 Hk tensor Hne) as Hsame.
      split; [|split].
      + unfold getIndexVarRanges. rewrite Hsame.
        destruct (insertRanges _ _ _ _); [|done].
        by apply (insertAccessRanges_keeps (getTensorVar this)).
      + unfold getTensorIndexVars. by rewrite Hsame.
      + intros Var_make getOperands. unfold getTensorVars. rewrite Hsame.
        by rewrite (packOperands_keeps Var_make (getTensorVar this) h h'). }
  repeat apply Forall_cons_2; [..|apply Forall_nil_2]; cbn zeta; apply Hall.
  - apply setIndexExpression_keeps.
  - pose proof (Access_bind_cases error this expr false h) as E. cbn iota in E.
    rewrite E. destruct (defined _); [apply keeps_refl|apply setIndexExpression_keeps].
  - pose proof (Access_bind_cases error this expr true h) as E. cbn iota in E.
    rewrite E. destruct (defined _); [apply keeps_refl|apply setIndexExpression_keeps].
Qed.

(** * The analyses and structural equality: proofs *)

Section StructureFacts.

Variable vars : gset IndexVar.

Lemma getSubExpression_structure (a b : ExprNode) (n m : NodePtr) :
  forget a = forget b ->
  forget <$> (SubExprVisitor.getSubExpression vars a n).1
  = forget <$> (SubExprVisitor.getSubExpression vars b m).1.
Proof.
  revert b n m. induction a as [p t ivs|p k a IH|p k a1 IH1 a2 IH2|p v];
    intros [q t' ivs'|q k' b|q k' b1 b2|q v'] n m H; cbn [forget] in H;
    try discriminate H.
  - injection H as -> ->. cbn. by destruct (accessKept vars ivs').
  - injection H as -> Ha. rewrite !getSubExpression_unary. cbv zeta. cbn [fst].
    specialize (IH b n m Ha).
    destruct (SubExprVisitor.getSubExpression vars a n).1,
      (SubExprVisitor.getSubExpression vars b m).1; try done.
    cbn. by rewrite Ha.
  - injection H as -> Ha Hb. rewrite !getSubExpression_binary. cbv zeta.
    specialize (IH1 b1 n m Ha).
    specialize (IH2 b2 (SubExprVisitor.getSubExpression vars a1 n).2
                  (SubExprVisitor.getSubExpression vars b1 m).2 Hb).
    destruct (SubExprVisitor.getSubExpression vars a1 n) as [[x1|] n1],
      (SubExprVisitor.getSubExpression vars b1 m) as [[y1|] m1];
      cbn [fst snd] in *; try done;
      destruct (SubExprVisitor.getSubExpression vars a2 n1) as [[x2|] n2],
        (SubExprVisitor.getSubExpression vars b2 m1) as [[y2|] m2];
      cbn [fst snd] in *; try done; cbn in *; congruence.
  - done.
Qed.

Lemma getSubExpressionOld_structure (a b : ExprNode) :
  forget a = forget b ->
  forget <$> SubExprVisitorOld.getSubExpression vars a
  = forget <$> SubExprVisitorOld.getSubExpression vars b.
Proof.
  revert b. induction a as [p t ivs|p k a IH|p k a1 IH1 a2 IH2|p v];
    intros [q t' ivs'|q k' b|q k' b1 b2|q v'] H; cbn [forget] in H;
    try discriminate H.
  - injection H as -> ->. cbn. by destruct (accessKept vars ivs').
  - injection H as -> Ha. cbn [SubExprVisitorOld.getSubExpression].
    specialize (IH b Ha).
    destruct (SubExprVisitorOld.getSubExpression vars a),
      (SubExprVisitorOld.getSubExpression vars b); try done.
    cbn. by rewrite Ha.
  - injection H as -> Ha Hb. cbn [SubExprVisitorOld.getSubExpression].
    specialize (IH1 b1 Ha). specialize (IH2 b2 Hb).
    destruct (SubExprVisitorOld.getSubExpression vars a1),
      (SubExprVisitorOld.getSubExpression vars b1); try done;
      destruct (SubExprVisitorOld.getSubExpression vars a2),
        (SubExprVisitorOld.getSubExpression vars b2); try done;
      cbn in *; congruence.
  - done.
Qed.

Lemma isAvailable_structure (a b : ExprNode) :
  forget a = forget b -> isAvailable vars a = isAvailable vars b.
Proof.
  revert b. induction a as [p t ivs|p k a IH|p k a1 IH1 a2 IH2|p v];
    intros [q t' ivs'|q k' b|q k' b1 b2|q v'] H; cbn [forget] in H;
    try discriminate H.
  - by injection H as -> ->.
  - injection H as -> Ha. rewrite !isAvailable_unary. by apply IH.
  - injection H as -> Ha Hb. rewrite !isAvailable_binary.
    by rewrite (IH1 b1 Ha), (IH2 b2 Hb).
  - done.
Qed.

Lemma handedOver_structure (a b : ExprNode) :
  forget a = forget b ->
  forget <$> handedOver vars a = forget <$> handedOver vars b.
Proof.
  revert b. induction a as [p t ivs|p k a IH|p k a1 IH1 a2 IH2|p v];
    intros [q t' ivs'|q k' b|q k' b1 b2|q v'] H; cbn [forget] in H;
    try discriminate H; try done.
  - injection H as -> Ha. cbn [handedOver]. by apply IH.
  - injection H as -> Ha Hb. cbn [handedOver]. rewrite !fmap_app.
    rewrite (IH1 b1 Ha), (IH2 b2 Hb).
    rewrite (isAvailable_structure a1 b1 Ha), (isAvailable_structure a2 b2 Hb).
    destruct (isAvailable vars b1), (isAvailable vars b2); cbn; congruence.
Qed.

End StructureFacts.

(** X20: the analyses respect structural equality.  On two expressions of
    the same structure, built at whatever addresses, [getSubExpr] and
    [getSubExprOld] return expressions of the same structure,
    [getAvailableExpressions] returns lists of expressions of the same
    structure, and so does [simplify] when addresses identify the nodes of
    each argument and the allocator is fresh for it. *)
Theorem X20_analyses_respect_structure (e e' : ExprNode) (exhausted : list Access)
    (vars : list IndexVar) (n n' : NodePtr) :
  forget e = forget e' ->
  forget <$> (getSubExpr e vars n).1 = forget <$> (getSubExpr e' vars n').1
  /\ forget <$> getSubExprOld e vars = forget <$> getSubExprOld e' vars
  /\ (fun l : list ExprNode => forget <$> l) <$> getAvailableExpressions e vars
     = (fun l : list ExprNode => forget <$> l) <$> getAvailableExpressions e' vars
  /\ (wellLabelled e = true -> allocatedBefore n e = true ->
      wellLabelled e' = true -> allocatedBefore n' e' = true ->
      forget <$> (simplify (Some e) exhausted n).1
      = forget <$> (simplify (Some e') exhausted n').1).
Proof.
  intros Hsame. split; [|split; [|split]].
  - by apply getSubExpression_structure.
  - by apply getSubExpressionOld_structure.
  - rewrite !get_cover. cbn. f_equal. unfold cover. rewrite !fmap_app.
    rewrite (handedOver_structure _ e e' Hsame), (isAvailable_structure _ e e' Hsame).
    destruct (isAvailable (list_to_set vars) e'); cbn; by rewrite ?Hsame.
  - intros Hwl Hal Hwl' Hal'. unfold simplify.
    rewrite (rewrite_refines exhausted e n Hwl Hal).
    rewrite (rewrite_refines exhausted e' n' Hwl' Hal').
    by apply simplifySpec_forget.
Qed.

Lemma X20_analyses_respect_structure_witness :
  forget <$> (getSubExpr sum_ab_1 [var_i] 10%positive).1
  = forget <$> (getSubExpr sum_ab_2 [var_i] 20%positive).1
  /\ (fun l : list ExprNode => forget <$> l) <$> getAvailableExpressions sum_ab_1 [var_i]
     = (fun l : list ExprNode => forget <$> l) <$> getAvailableExpressions sum_ab_2 [var_i].
Proof.
  destruct (X20_analyses_respect_structure sum_ab_1 sum_ab_2 [] [var_i] 10 20 eq_refl)
    as (Hsub & _ & Hav & _).
  split; [exact Hsub|exact Hav].
Defined.

(** * Index variable ranges: when they are defined *)

Lemma insertRanges_is_Some (vars : list IndexVar) (shape : list Dimension) (i : nat)
    (m : gmap IndexVar Dimension) :
  is_Some (insertRanges vars shape i m) <-> vars = [] \/ i + length vars <= length shape.
Proof.
  revert i m. induction vars as [|x vars IH]; intros i m; cbn [insertRanges length].
  - split; [by left|by eexists].
  - destruct (shape !! i) as [d|] eqn:Hd.
    + rewrite IH. apply lookup_lt_Some in Hd. split.
      * intros [->|Hlen]; right; cbn [length]; lia.
      * intros [?|Hlen]; [done|]. right. lia.
    + apply lookup_ge_None in Hd. split; [by intros [? ?]|].
      intros [?|Hlen]; [done|]. lia.
Qed.

Lemma insertAccessRanges_is_Some (h : Heap) (ops : list (TensorVar * list IndexVar))
    (m : gmap IndexVar Dimension) :
  is_Some (insertAccessRanges h ops m)
  <-> Forall (fun op => length op.2 <= getOrder h op.1) ops.
Proof.
  revert m. induction ops as [|[t ivs] ops IH]; intros m; cbn [insertAccessRanges].
  - split; [constructor|by eexists].
  - rewrite Forall_cons. cbn [fst snd]. unfold getOrder at 1.
    destruct (insertRanges ivs (getShape (type (h t))) 0 m) as [m1|] eqn:E.
    + rewrite IH. assert (Hs : is_Some (insertRanges ivs (getShape (type (h t))) 0 m))
        by (by eexists).
      apply insertRanges_is_Some in Hs. split; [|by intros [_ ?]].
      intros Hrest. split; [|done]. destruct Hs as [->|Hs]; cbn [length]; lia.
    + split; [by intros [? ?]|]. intros [Hlen _].
      assert (Hs : is_Some (insertRanges ivs (getShape (type (h t))) 0 m)).
      { apply insertRanges_is_Some. right. lia. }
      rewrite E in Hs. by destruct Hs.
Qed.

Lemma firstBinding_zip_is_Some (v : IndexVar) (ivs : list IndexVar)
    (shape : list Dimension) :
  v ∈ ivs -> length ivs <= length shape -> is_Some (firstBinding v (zip ivs shape)).
Proof.
  revert shape. induction ivs as [|y ivs IH]; intros shape Hv Hlen;
    [by apply elem_of_nil in Hv|].
  destruct shape as [|d shape]; cbn [length] in Hlen; [lia|].
  cbn [zip zip_with firstBinding]. case_decide as Hy; [by eexists|].
  apply elem_of_cons in Hv as [->|Hv]; [done|]. apply IH; [done|lia].
Qed.

(** X21: [getIndexVarRanges] has a result exactly when no dimension is read
    past the order of a tensor: the tensor has at most as many free
    variables as its order, and every Access of its definition has at most
    as many index variables as the order of its tensor.  Fewer are
    accepted. *)
Theorem X21_getIndexVarRanges_defined (h : Heap) (tensor : TensorVar) :
  is_Some (getIndexVarRanges h tensor)
  <-> length (freeVars (h tensor)) <= getOrder h tensor
      /\ Forall (fun op : TensorVar * list IndexVar => length op.2 <= getOrder h op.1)
           (match_AccessNode (indexExpr (h tensor))).
Proof.
  unfold getIndexVarRanges, getOrder at 1.
  destruct (insertRanges (freeVars (h tensor)) (getShape (type (h tensor))) 0 ∅)
    as [m0|] eqn:E0.
  - rewrite insertAccessRanges_is_Some.
    assert (Hs : is_Some (insertRanges (freeVars (h tensor))
                            (getShape (type (h tensor))) 0 ∅)) by (by eexists).
    apply insertRanges_is_Some in Hs. split; [|by intros [_ ?]].
    intros Hrest. split; [|done]. destruct Hs as [->|Hs]; cbn [length]; lia.
  - split; [by intros [? ?]|]. intros [Hlen _].
    assert (Hs : is_Some (insertRanges (freeVars (h tensor))
                            (getShape (type (h tensor))) 0 ∅)).
    { apply insertRanges_is_Some. right. lia. }
    rewrite E0 in Hs. by destruct Hs.
Qed.

(** X22: from building to analysis.  Let [TensorVar::operator()] return an
    access to a tensor, and let [operator=] or [operator+=] on that access
    bind a well-formed expression with success.  Then [getIndexVarRanges]
    has a result for the tensor in the new heap: every index variable of the
    call has a range, and each variable is bound to the dimension of the
    first position it is met at, the positions of the call first, then those
    of the accesses of the bound expression. *)
Theorem X22_call_bind_ranges (error : ErrorChecks) (h h' : Heap) (t : TensorVar)
    (ivs : list IndexVar) (n n' : NodePtr) (x : Access) (expr : IndexExpr) (acc : bool) :
  TensorVar_call h t ivs n = (inr x, n') ->
  (if acc then Access_accumulate error x expr h else Access_assign error x expr h)
  = (inr tt, h') ->
  wellFormedExpr h expr = true ->
  exists m,
    getIndexVarRanges h' t = Some m
    /\ (forall v, v ∈ ivs -> is_Some (m !! v))
    /\ forall v,
         m !! v =
         firstBinding v
           (zip ivs (getShape (type (h t)))
            ++ concat (map (fun op : TensorVar * list IndexVar =>
                              zip op.2 (getShape (type (h op.1))))
                         (match_AccessNode expr))).
Proof.
  unfold TensorVar_call. destruct (length ivs =? getOrder h t)%nat eqn:Hlen; [|done].
  cbn [negb]. intros [= <- <-]. apply Nat.eqb_eq in Hlen.
  rewrite Access_bind_cases. cbn [getTensorVar getIndexVars].
  destruct (defined (indexExpr (h t))); [done|]. intros Hbind Hwf.
  pose proof (setIndexExpression_keeps error t ivs expr acc h) as Hk.
  rewrite Hbind in Hk. cbn [snd] in Hk.
  apply setIndexExpression_inr in Hbind as (Hfv & He & _).
  destruct (keeps_wellFormed _ _ _ Hk) as [Hord Hwf'].
  destruct Hk as [Hdecl _].
  assert (Htype : forall t', getShape (type (h' t')) = getShape (type (h t'))).
  { intros t'. by destruct (Hdecl t') as (_ & -> & _). }
  unfold getIndexVarRanges. rewrite Hfv, He, Htype.
  destruct (insertRanges_spec ivs (getShape (type (h t))) 0 ∅) as (m0 & -> & Hm0).
  { unfold getOrder in Hlen. lia. }
  destruct (insertAccessRanges_spec h' (match_AccessNode expr) m0) as (m & -> & Hm).
  { destruct expr as [e|]; cbn [match_AccessNode wellFormedExpr] in *; [|constructor].
    apply wellFormed_accesses. by rewrite Hwf'. }
  assert (Hall : forall v,
            m !! v =
            firstBinding v
              (zip ivs (getShape (type (h t)))
               ++ concat (map (fun op : TensorVar * list IndexVar =>
                                 zip op.2 (getShape (type (h op.1))))
                            (match_AccessNode expr)))).
  { intros v. rewrite Hm, Hm0, lookup_empty, firstBinding_app, drop_0.
    destruct (firstBinding v (zip ivs (getShape (type (h t))))); [done|].
    f_equal. f_equal. apply map_ext. intros op. by rewrite Htype. }
  exists m. split; [done|]. split; [|done].
  intros v Hv. rewrite Hall, firstBinding_app.
  assert (Hin : is_Some (firstBinding v (zip ivs (getShape (type (h t)))))).
  { apply firstBinding_zip_is_Some; [done|]. unfold getOrder in Hlen. lia. }
  destruct Hin as [d ->]. by eexists.
Qed.

Lemma X22_call_bind_ranges_witness :
  let x := AccessAt 7 tensor_a [var_i] in
  let e := Some (AccessNode 2 tensor_b [var_j]) in
  let h' := (Access_assign arity_checks x e vectors).2 in
  exists m, getIndexVarRanges h' tensor_a = Some m
    /\ (forall v, v ∈ [var_i] -> is_Some (m !! v))
    /\ forall v, m !! v = firstBinding v [(var_i, 3); (var_j, 3)].
Proof.
  intros x e h'.
  assert (Hbind : (if false then Access_accumulate arity_checks x e vectors
                   else Access_assign arity_checks x e vectors) = (inr tt, h'))
    by reflexivity.
  exact (X22_call_bind_ranges arity_checks vectors h' tensor_a [var_i] 7 8 x e false
           eq_refl Hbind eq_refl).
Defined.
